(** * aTRAM preprocessing: sequence store, shard partitioner, shard export

    A shallow embedding of [format_sra.py] (the loader [load_seqs], the
    store helpers, the partitioner [assign_seqs_to_shards], the exporter
    [create_blast_db] and the orchestrator [create_blast_dbs]) and of the
    exporter [fill_blast_fasta] of [atram_preprocessor.py].

    Conventions.
    - A Python [str] is a [list ascii]; a character is a code point below
      256 (the read archives are ASCII text).
    - [open(name, 'r')] is text mode with universal newlines: the decoded
      content is passed through [universal_newlines] and iterated line by
      line with [readlines]; a line keeps its terminating newline.
    - The sqlite database is a record holding the rows of table [frags]
      in rowid order, the presence of index [frag], and the statements
      executed so far.
    - Python exceptions are the [Raise] results of [result].
    - [np.linspace] computes in double precision: its step and its
      products are rounded to the nearest double before they are cut
      down to integers. *)

From Stdlib Require Import String Ascii List ZArith Lia Bool.
From Stdlib Require Import Sorted Permutation DecimalString.
From Stdlib Require DecimalNat DecimalFacts.
Import ListNotations.

Set Implicit Arguments.

(** ** Text *)

Definition text := list ascii.

Definition txt (s : string) : text := list_ascii_of_string s.

Definition code (c : ascii) : N := N_of_ascii c.

Definition LF : ascii := ascii_of_N 10.
Definition CR : ascii := ascii_of_N 13.

Definition is_lf (c : ascii) : bool := (code c =? 10)%N.
Definition is_cr (c : ascii) : bool := (code c =? 13)%N.

Definition between (lo hi : N) (c : ascii) : bool :=
  ((lo <=? code c) && (code c <=? hi))%N.

(** [str.isspace] and the regular-expression class [\s] agree on the code
    points below 256: TAB..CR, FS..US, space, NEL and NBSP. *)
Definition isspace (c : ascii) : bool :=
  between 9 13 c || between 28 32 c || (code c =? 133)%N || (code c =? 160)%N.

(** [str.isalpha] on the code points below 256. *)
Definition isalpha (c : ascii) : bool :=
  between 65 90 c || between 97 122 c
  || (code c =? 170)%N || (code c =? 181)%N || (code c =? 186)%N
  || between 192 214 c || between 216 246 c || between 248 255 c.

Definition text_eqb (a b : text) : bool :=
  if list_eq_dec ascii_dec a b then true else false.

Definition nonempty (A : Type) (l : list A) : bool :=
  match l with [] => false | _ :: _ => true end.

(** [str.rstrip()]: drop the trailing whitespace. *)
Fixpoint rstrip (s : text) : text :=
  match s with
  | [] => []
  | c :: s' =>
      match rstrip s' with
      | [] => if isspace c then [] else [c]
      | r => c :: r
      end
  end.

(** Universal newlines on input: CR LF and a lone CR both read as LF. *)
Fixpoint universal_newlines (s : text) : text :=
  match s with
  | [] => []
  | c :: s' =>
      if is_cr c then
        LF :: match s' with
              | [] => []
              | d :: s'' =>
                  if is_lf d then universal_newlines s''
                  else universal_newlines s'
              end
      else c :: universal_newlines s'
  end.

(** Iterating a text file: the lines, each with its newline, the last one
    possibly without. No line is empty. *)
Fixpoint readlines (s : text) : list text :=
  match s with
  | [] => []
  | c :: s' =>
      if is_lf c then [c] :: readlines s'
      else match readlines s' with
           | [] => [[c]]
           | l :: ls => (c :: l) :: ls
           end
  end.

(** What [for line in open(file_name, 'r')] ranges over. *)
Definition open_r (content : text) : list text :=
  readlines (universal_newlines content).

(** ** The header pattern

    [FRAGMENT = re.compile(r'^ [>@] \s* ( .* ) ( [\s\/_] [12] )', re.VERBOSE)]

    matched with [FRAGMENT.match(line)]: a backtracking match anchored at
    the start of the line and not at its end. Each quantifier is greedy:
    it first tries to consume one more character and gives it back when
    the rest of the pattern fails. *)

Definition is_marker (c : ascii) : bool :=
  (code c =? 62)%N || (code c =? 64)%N.          (* '>' or '@' *)

Definition is_plus (c : ascii) : bool := (code c =? 43)%N.

Definition is_sep (c : ascii) : bool :=
  isspace c || (code c =? 47)%N || (code c =? 95)%N.   (* \s, '/', '_' *)

Definition is_12 (c : ascii) : bool :=
  (code c =? 49)%N || (code c =? 50)%N.

(** [( .* ) ( [\s\/_] [12] )] at the head of [s]; [.] is any character
    but the newline. The result is (group 1, group 2). *)
Fixpoint match_groups (s : text) : option (text * text) :=
  match s with
  | [] => None
  | c :: s' =>
      match (if is_lf c then None else match_groups s') with
      | Some (g1, g2) => Some (c :: g1, g2)
      | None =>
          match s' with
          | d :: _ => if is_sep c && is_12 d then Some ([], [c; d]) else None
          | [] => None
          end
      end
  end.

(** [\s*] followed by the two groups. *)
Fixpoint match_spaces (s : text) : option (text * text) :=
  match s with
  | [] => match_groups []
  | c :: s' =>
      if isspace c then
        match match_spaces s' with
        | Some r => Some r
        | None => match_groups s
        end
      else match_groups s
  end.

Definition FRAGMENT_match (line : text) : option (text * text) :=
  match line with
  | c :: s => if is_marker c then match_spaces s else None
  | [] => None
  end.

(** ** Python values, exceptions *)

Inductive exception :=
| TypeError            (* subscripting [None] *)
| UnboundLocalError    (* a local read before any assignment *)
| ValueError
| CalledProcessError (returncode : Z).

Inductive result (A : Type) :=
| Ok (a : A)
| Raise (e : exception).

Arguments Ok {A} a.
Arguments Raise {A} e.

Definition bind (A B : Type) (m : result A) (k : A -> result B) : result B :=
  match m with
  | Ok a => k a
  | Raise e => Raise e
  end.

Notation "x <- m ;; k" := (bind m (fun x => k))
  (at level 61, m at next level, right associativity).

(** [frag] starts out as the integer [0] and is a [str] after the first
    header line. *)
Inductive pyval :=
| PyInt (z : Z)
| PyStr (s : text).

(** A tuple [(frag, frag_end, seq)] appended to [recs]. *)
Definition rec := (pyval * text * text)%type.

(** ** The sqlite database *)

(** A row of [frags (frag TEXT, frag_end TEXT, seq TEXT)]. *)
Definition row := (text * text * text)%type.

Definition row_frag (r : row) : text := fst (fst r).
Definition row_frag_end (r : row) : text := snd (fst r).
Definition row_seq (r : row) : text := snd r.

Inductive statement :=
| PRAGMA
| DROP_INDEX
| DROP_TABLE
| CREATE_TABLE
| INSERT (rows : list row)
| COMMIT
| CREATE_INDEX
| SELECT_COUNT
| SELECT_FRAG (offset : Z)
| SELECT_ROWS (limit offset : Z).

Record database := {
  frags : list row;            (* table frags, in rowid order *)
  frag_index : bool;           (* index frag ON frags (frag) *)
  executed : list statement    (* statements run so far, oldest first *)
}.

Definition logged (db : database) (s : statement) : database :=
  {| frags := frags db; frag_index := frag_index db;
     executed := executed db ++ [s] |}.

(** A column of TEXT affinity stores an integer as its decimal text. *)
Definition text_affinity (v : pyval) : text :=
  match v with
  | PyInt z => txt (NilZero.string_of_int (Z.to_int z))
  | PyStr s => s
  end.

Definition store_rec (r : rec) : row :=
  let '(f, e, s) := r in (text_affinity f, e, s).

Definition executemany_insert (db : database) (recs : list rec) : database :=
  let rows := map store_rec recs in
  {| frags := frags db ++ rows; frag_index := frag_index db;
     executed := executed db ++ [INSERT rows] |}.

Definition commit (db : database) : database := logged db COMMIT.

Definition bulk_insert (db_conn : database) (recs : list rec) : database :=
  if nonempty recs then commit (executemany_insert db_conn recs)
  else db_conn.

Definition create_table (db_conn : database) : database :=
  {| frags := []; frag_index := false;
     executed := executed db_conn ++ [DROP_INDEX; DROP_TABLE; CREATE_TABLE] |}.

Definition create_index (db_conn : database) : database :=
  {| frags := frags db_conn; frag_index := true;
     executed := executed db_conn ++ [CREATE_INDEX] |}.

(** [connect_db] opens the database file and sets three pragmas. *)
Definition connect_db (file : database) : database :=
  {| frags := frags file; frag_index := frag_index file;
     executed := executed file ++ [PRAGMA; PRAGMA; PRAGMA] |}.

(** ** The loader *)

Definition DEFAULT_BATCH_SIZE : Z := 10000000.

(** The local variables of the loop over the lines of one file. *)
Record locals := {
  recs : list rec;
  seq : text;
  frag_end : text;
  frag : pyval;
  is_seq : bool
}.

Definition locals0 : locals :=
  {| recs := []; seq := []; frag_end := []; frag := PyInt 0; is_seq := true |}.

(** [if seq: recs.append((frag, frag_end, seq))], as run at a header line
    and after the last line. *)
Definition flush (l : locals) : list rec :=
  if nonempty (seq l) then recs l ++ [(frag l, frag_end l, seq l)]
  else recs l.

(** The branches of the body of [for line in sra_file], before the test
    on the batch size. *)
Definition on_line (l : locals) (line : text) : locals :=
  match line with
  | [] => l
  | c :: rest =>
      if is_marker c then
        match FRAGMENT_match line with
        | Some (g1, g2) =>
            {| recs := flush l; seq := []; frag_end := g2;
               frag := PyStr g1; is_seq := true |}
        | None =>
            {| recs := flush l; seq := []; frag_end := [];
               frag := PyStr rest; is_seq := true |}
        end
      else if is_plus c then
        {| recs := recs l; seq := seq l; frag_end := frag_end l;
           frag := frag l; is_seq := false |}
      else if isalpha c && is_seq l then
        {| recs := recs l; seq := seq l ++ rstrip line;
           frag_end := frag_end l; frag := frag l; is_seq := is_seq l |}
      else l
  end.

Section Loader.

(** The batch size is [DEFAULT_BATCH_SIZE] in the source; the loop is
    written once for any threshold. *)
Variable batch_size : Z.

(** One pass of the loop: the branches, then
    [if len(recs) >= DEFAULT_BATCH_SIZE: bulk_insert(db_conn, recs); recs = []]. *)
Definition load_step (st : database * locals) (line : text)
  : database * locals :=
  let (db_conn, l) := st in
  let l1 := on_line l line in
  if (batch_size <=? Z.of_nat (length (recs l1)))%Z then
    (bulk_insert db_conn (recs l1),
     {| recs := []; seq := seq l1; frag_end := frag_end l1;
        frag := frag l1; is_seq := is_seq l1 |})
  else (db_conn, l1).

(** The body of [with open(file_name, 'r') as sra_file], the final flush
    and insert included. *)
Definition load_file (db_conn : database) (content : text) : database :=
  let (db1, l) := fold_left load_step (open_r content) (db_conn, locals0) in
  bulk_insert db1 (flush l).

Definition load_files (db_conn : database) (sra_files : list text)
  : database :=
  fold_left load_file sra_files db_conn.

End Loader.

(** [config] of the command line. [sra_files] holds, for each file name,
    the decoded content that opening it yields. *)
Record config := {
  sra_files : list text;
  shards : Z;
  cpu : Z
}.

Definition load_seqs (db_conn : database) (cfg : config) : database :=
  load_files DEFAULT_BATCH_SIZE db_conn (sra_files cfg).

Definition empty_db : database :=
  {| frags := []; frag_index := false; executed := [] |}.

Definition ln (s : string) : text := txt s ++ [LF].

(** ** Queries

    [ORDER BY frag] compares TEXT values bytewise (collation BINARY),
    which is the order of the code points; rows of equal [frag] come in
    rowid order, the order in which index [frag] lists them. *)

Fixpoint lex_leb (a b : text) : bool :=
  match a, b with
  | [], _ => true
  | _ :: _, [] => false
  | x :: a', y :: b' =>
      if (code x <? code y)%N then true
      else if (code x =? code y)%N then lex_leb a' b'
      else false
  end.

Section OrderBy.

Variable A : Type.
Variable key : A -> text.

Fixpoint insert_by (x : A) (l : list A) : list A :=
  match l with
  | [] => [x]
  | y :: l' =>
      if lex_leb (key y) (key x) then y :: insert_by x l'
      else x :: l
  end.

(** The rows in key order, ties in their given order. *)
Definition order_by (l : list A) : list A :=
  fold_left (fun acc x => insert_by x acc) l [].

End OrderBy.

(** [LIMIT limit OFFSET offset]: a negative offset counts as zero and a
    negative limit as no limit. *)
Definition limit_offset (A : Type) (limit offset : Z) (l : list A) : list A :=
  let l' := skipn (Z.to_nat offset) l in
  if (limit <? 0)%Z then l' else firstn (Z.to_nat limit) l'.

(** [SELECT frag FROM frags ORDER BY frag LIMIT 2 OFFSET offset] *)
Definition select_frag (db : database) (offset : Z) : list text :=
  limit_offset 2 offset (order_by (fun n => n) (map row_frag (frags db))).

(** [SELECT frag, frag_end, seq FROM frags ORDER BY frag LIMIT .. OFFSET ..] *)
Definition select_rows (db : database) (limit offset : Z) : list row :=
  limit_offset limit offset (order_by row_frag (frags db)).

(** A cursor is the list of the rows not fetched yet. *)
Definition fetchone (A : Type) (cursor : list A) : option A * list A :=
  match cursor with
  | [] => (None, [])
  | x :: c => (Some x, c)
  end.

(** [row[0]] on what [fetchone] returned: [None] has no subscript. *)
Definition subscript0 (A : Type) (r : option A) : result A :=
  match r with
  | Some x => Ok x
  | None => Raise TypeError
  end.

(** ** The partitioner *)

(** ** Double precision

    [np.linspace] computes in binary64. A finite double is kept here as
    the rational [numerator / denominator], the denominator positive.
    The magnitudes met below are quotients and products of integers of
    at most 63 bits, far from both ends of the exponent range: no result
    overflows and none is subnormal. *)

Section Binary64.

Local Open Scope Z_scope.

Definition double := (Z * Z)%type.

(** The integer nearest to [a / b], a tie going to the even one, for
    [0 <= a] and [0 < b]. *)
Definition round_half_even (a b : Z) : Z :=
  let q := a / b in
  let r := a mod b in
  if 2 * r <? b then q
  else if b <? 2 * r then q + 1
  else if Z.even q then q else q + 1.

(** The double nearest to [a / b], for [0 < a] and [0 < b]: the power of
    two [2 ^ k] brings the quotient into [2^52, 2^53), where it is
    rounded to an integer, the 53 bits of the mantissa, and scaled
    back. *)
Definition nearest_pos (a b : Z) : double :=
  let k0 := 52 - (Z.log2 a - Z.log2 b) in
  let k := if a * 2 ^ Z.max 0 k0 / (b * 2 ^ Z.max 0 (- k0)) <? 2 ^ 52
           then k0 + 1 else k0 in
  let up := 2 ^ Z.max 0 k in
  let down := 2 ^ Z.max 0 (- k) in
  (round_half_even (a * up) (b * down) * down, up).

(** Rounding to nearest is symmetric about zero. *)
Definition nearest (a b : Z) : double :=
  if a =? 0 then (0, 1)
  else if a <? 0 then let r := nearest_pos (- a) b in (- fst r, snd r)
  else nearest_pos a b.

(** An integer as a double: itself below 2^53, rounded from there on. *)
Definition of_int (z : Z) : double :=
  if Z.abs z <? 2 ^ 53 then (z, 1) else nearest z 1.

(** Division by a positive double, and multiplication. *)
Definition fdiv (x y : double) : double :=
  nearest (fst x * snd y) (snd x * fst y).

Definition fmul (x y : double) : double :=
  nearest (fst x * fst y) (snd x * snd y).

(** [np.floor] followed by [astype(int)]. *)
Definition ffloor (x : double) : Z := fst x / snd x.

End Binary64.

(** [np.linspace(0, stop, num=num, dtype=int)]. With [div = num - 1], numpy
    takes [step = stop / div] in double precision, multiplies each index
    of [arange(0, num)] by [step], adds the start 0.0, puts [stop] itself
    in the last place and cuts every value down to an integer. A step of
    zero gives zeros on either branch of its test. The values are cut
    down by [np.floor] since numpy 1.20 and were truncated toward zero
    before, which differs on negative values only, that is for a
    negative [stop]. *)
Definition sample (stop div : Z) (i : nat) : Z :=
  let step := fdiv (of_int stop) (of_int div) in
  ffloor (fmul (of_int (Z.of_nat i)) step).

Definition linspace (stop num : Z) : result (list Z) :=
  if (num <? 0)%Z then Raise ValueError
  else if (num =? 0)%Z then Ok []
  else if (num =? 1)%Z then Ok [0%Z]
  else Ok (map (sample stop (num - 1)) (List.seq 0 (Z.to_nat num - 1))
           ++ [ffloor (of_int stop)]).

Fixpoint set_nth (i : nat) (v : Z) (l : list Z) : list Z :=
  match l, i with
  | [], _ => []
  | _ :: l', O => v :: l'
  | x :: l', S j => x :: set_nth j v l'
  end.

(** The variables the loop of [assign_seqs_to_shards] updates;
    [connection] is unbound until the first pass. *)
Record cuts := {
  offsets : list Z;
  connection : option (list text)
}.

(** One pass of [for i in range(1, len(offsets) - 1)]. *)
Definition adjust (db : database) (st : cuts) (i : nat) : result cuts :=
  let offset := nth i (offsets st) 0%Z in
  let c0 := select_frag db offset in
  let (r1, c1) := fetchone c0 in
  first <- subscript0 r1 ;;
  let (r2, c2) := fetchone c1 in
  second <- subscript0 r2 ;;
  Ok {| offsets := if negb (text_eqb first second)
                   then set_nth i (offset + 1)%Z (offsets st)
                   else offsets st;
        connection := Some c2 |}.

Fixpoint adjust_loop (db : database) (range : list nat) (st : cuts)
  : database * result cuts :=
  match range with
  | [] => (db, Ok st)
  | i :: range' =>
      let db1 := logged db (SELECT_FRAG (nth i (offsets st) 0%Z)) in
      match adjust db st i with
      | Ok st1 => adjust_loop db1 range' st1
      | Raise e => (db1, Raise e)
      end
  end.

(** [[offsets[i + 1] - offsets[i] for i in range(len(offsets) - 1)]] *)
Fixpoint limits (offsets : list Z) : list Z :=
  match offsets with
  | a :: (b :: _) as rest => (b - a)%Z :: limits rest
  | _ => []
  end.

(** A shard is the pair [(limit, offset)] of its range. *)
Definition shard := (Z * Z)%type.

Definition assign_seqs_to_shards (db_conn : database) (cfg : config)
  : database * result (list shard) :=
  let db1 := logged db_conn SELECT_COUNT in
  let total := Z.of_nat (length (frags db_conn)) in
  match linspace total (shards cfg + 1) with
  | Raise e => (db1, Raise e)
  | Ok offsets0 =>
      let range := List.seq 1 (length offsets0 - 2) in
      match adjust_loop db1 range
              {| offsets := offsets0; connection := None |} with
      | (db2, Raise e) => (db2, Raise e)
      | (db2, Ok st) =>
          let lims := limits (offsets st) in
          match connection st with
          | None => (db2, Raise UnboundLocalError)   (* connection.close() *)
          | Some _ =>
              (db2, Ok (combine lims (removelast (offsets st))))
          end
      end
  end.

(** ** The exporter of [format_sra.py] *)

Definition GT : ascii := ascii_of_N 62.
Definition SLASH : ascii := ascii_of_N 47.

(** [out_file.write(data)] in text mode on a POSIX host. *)
Definition write (file data : text) : text := file ++ data.

(** The two [write] calls of [create_blast_db] for one row:
    ['>{}{}\n'.format(row[0], row[1])] and ['{}\n'.format(row[2])]. *)
Definition write_row (out_file : text) (r : row) : text :=
  let out1 := write out_file (GT :: row_frag r ++ row_frag_end r ++ [LF]) in
  write out1 (row_seq r ++ [LF]).

(** What a worker leaves behind. *)
Record outcome := {
  worker_conn : database;       (* its own connection, when closed *)
  fasta_file : option text;     (* the export, if still on disk *)
  blast_db : bool;              (* the tool built the shard *)
  returned : result nat
}.

Section Builder.

(** The external tool: its exit status, given the shard index that
    names its input and output paths, and the exported text. *)
Variable makeblastdb : nat -> text -> Z.

Definition create_blast_db (file : database) (shard_params : shard)
    (shard_index : nat) : outcome :=
  let db_conn := connect_db file in
  let (limit, offset) := shard_params in
  let db1 := logged db_conn (SELECT_ROWS limit offset) in
  let out_file := fold_left write_row (select_rows db_conn limit offset) [] in
  let status := makeblastdb shard_index out_file in
  if (status =? 0)%Z then
    {| worker_conn := db1; fasta_file := None; blast_db := true;
       returned := Ok shard_index |}
  else
    {| worker_conn := db1; fasta_file := Some out_file; blast_db := false;
       returned := Raise (CalledProcessError status) |}.

(** *** The pool of [create_blast_dbs]

    [multiprocessing.Pool(processes=cpu)] runs the submitted tasks in
    submission order on at most [cpu] workers. [result.get()] blocks
    until its task is over and raises what the task raised. Leaving
    the [with] block, normally or by an exception, terminates the pool:
    the tasks that are not over are stopped where they are. *)

Inductive task :=
| Queued
| Running
| Over (o : outcome)
| Terminated.

Inductive control :=
| Getting (i : nat)            (* about to call results[i].get() *)
| Finished                     (* 'Finished making blast DBs' *)
| Propagating (e : exception). (* the exception leaves the function *)

Record pool := {
  tasks : list task;
  pc : control
}.

Definition is_running (t : task) : bool :=
  match t with Running => true | _ => false end.

Definition is_queued (t : task) : bool :=
  match t with Queued => true | _ => false end.

Definition terminate (t : task) : task :=
  match t with
  | Queued | Running => Terminated
  | _ => t
  end.

Fixpoint set_task (i : nat) (t : task) (l : list task) : list task :=
  match l, i with
  | [], _ => []
  | _ :: l', O => t :: l'
  | x :: l', S j => x :: set_task j t l'
  end.

Definition running (l : list task) : Z :=
  Z.of_nat (length (filter is_running l)).

Section Steps.

Variable file : database.
Variable cpu_count : Z.
Variable shard_list : list shard.

(** The pool refuses fewer than one process; otherwise every shard is
    submitted, [shard_index] counting from 0. *)
Definition submitted : pool :=
  if (cpu_count <? 1)%Z then {| tasks := []; pc := Propagating ValueError |}
  else {| tasks := map (fun _ => Queued) shard_list; pc := Getting 0 |}.

Definition run_task (i : nat) : outcome :=
  create_blast_db file (nth i shard_list (0, 0)%Z) i.

Inductive step : pool -> pool -> Prop :=
| step_start : forall p j i,
    (* an idle worker takes the oldest queued task *)
    pc p = Getting j ->
    nth_error (tasks p) i = Some Queued ->
    (forall k, k < i -> nth_error (tasks p) k <> Some Queued) ->
    (running (tasks p) < cpu_count)%Z ->
    step p {| tasks := set_task i Running (tasks p); pc := pc p |}
| step_over : forall p j i,
    (* a worker comes to the end of [create_blast_db] *)
    pc p = Getting j ->
    nth_error (tasks p) i = Some Running ->
    step p {| tasks := set_task i (Over (run_task i)) (tasks p);
              pc := pc p |}
| step_get : forall p j o n,
    (* [results[j].get()] returns *)
    pc p = Getting j ->
    nth_error (tasks p) j = Some (Over o) ->
    returned o = Ok n ->
    step p {| tasks := tasks p; pc := Getting (S j) |}
| step_raise : forall p j o e,
    (* [results[j].get()] raises; the [with] block is left *)
    pc p = Getting j ->
    nth_error (tasks p) j = Some (Over o) ->
    returned o = Raise e ->
    step p {| tasks := map terminate (tasks p); pc := Propagating e |}
| step_finish : forall p,
    (* every [get] returned; the [with] block is left *)
    pc p = Getting (length (tasks p)) ->
    step p {| tasks := map terminate (tasks p); pc := Finished |}.

Inductive reachable : pool -> Prop :=
| reach_submitted : reachable submitted
| reach_step : forall p q, reachable p -> step p q -> reachable q.

(** [create_blast_dbs] is over: it returned or an exception left it. *)
Definition exited (p : pool) : Prop :=
  match pc p with Getting _ => False | _ => True end.

End Steps.

(** ** The main program, up to the shard list *)
Definition main (CONFIG : config) (file : database)
  : database * result (list shard) :=
  let DB := connect_db file in
  let DB := create_table DB in
  let DB := load_seqs DB CONFIG in
  let DB := create_index DB in
  assign_seqs_to_shards DB CONFIG.

End Builder.

(** ** The exporter of [atram_preprocessor.py] *)



Definition db_of_names (names : list string) : database :=
  {| frags := map (fun n => (txt n, [], txt "A")) names;
     frag_index := true; executed := [] |}.

(** ** Vocabulary of the statements *)

(** A text without line feed, and one without any line break. *)
Definition no_lf (s : text) : Prop := Forall (fun c => is_lf c = false) s.
Definition no_break (s : text) : Prop :=
  Forall (fun c => is_lf c = false /\ is_cr c = false) s.

Definition no_cr (s : text) : Prop := Forall (fun c => is_cr c = false) s.

(** A line closed by its line feed. *)
Definition full_line (l : text) : Prop :=
  exists body, l = body ++ [LF] /\ no_lf body.

Definition records (content : text) : list rec :=
  flush (fold_left on_line (open_r content) locals0).

Definition with_recs (rs : list rec) (l : locals) : locals :=
  {| recs := rs; seq := seq l; frag_end := frag_end l; frag := frag l;
     is_seq := is_seq l |}.

Definition is_header (line : text) : bool :=
  match line with
  | c :: _ => is_marker c
  | [] => false
  end.

(** The name and end tag [load_seqs] takes from a header line. *)
Definition header_fields (line : text) : pyval * text :=
  match FRAGMENT_match line with
  | Some (g1, g2) => (PyStr g1, g2)
  | None => (PyStr (tl line), [])
  end.

Definition starts_alpha (s : text) : bool :=
  match s with
  | c :: _ => isalpha c
  | [] => false
  end.











Definition seq_nonempty (r : rec) : bool := nonempty (snd r).

(** A separator followed by '1' or '2' somewhere in [s]. *)
Fixpoint has_pair (s : text) : bool :=
  match s with
  | [] => false
  | c :: s' =>
      match s' with
      | d :: _ => (is_sep c && is_12 d) || has_pair s'
      | [] => false
      end
  end.

(** Empty, or starting with a character that is not whitespace. *)
Definition starts_nonspace (s : text) : bool :=
  match s with
  | c :: _ => negb (isspace c)
  | [] => true
  end.

Definition DOT : ascii := ascii_of_N 46.






(** The rows that the INSERT statements of a log add, in order. *)
Fixpoint inserted (log : list statement) : list row :=
  match log with
  | [] => []
  | INSERT rows :: rest => rows ++ inserted rest
  | _ :: rest => inserted rest
  end.

(** A log made of batches only, each INSERT followed by its COMMIT. *)
Fixpoint committed_batches (log : list statement) : Prop :=
  match log with
  | [] => True
  | INSERT _ :: COMMIT :: rest => committed_batches rest
  | _ => False
  end.

Definition is_select (s : statement) : bool :=
  match s with
  | SELECT_COUNT | SELECT_FRAG _ | SELECT_ROWS _ _ => true
  | _ => false
  end.

(** What a piece of the loader does to the database: it keeps the index
    flag and appends committed batches, whose rows it adds to the table. *)
Definition loads (db db' : database) : Prop :=
  exists log,
    executed db' = executed db ++ log
    /\ committed_batches log
    /\ frags db' = frags db ++ inserted log
    /\ frag_index db' = frag_index db.

(** What a piece of the partitioner does: it only runs SELECT statements. *)
Definition queries (db db' : database) : Prop :=
  exists log,
    executed db' = executed db ++ log
    /\ forallb is_select log = true
    /\ frags db' = frags db
    /\ frag_index db' = frag_index db.

(** ** Vocabulary of the partitioner *)

Definition lex_le (a b : text) : Prop := lex_leb a b = true.

(** The names in the order of [ORDER BY frag]. *)
Definition sorted_names (db : database) : list text :=
  order_by (fun n => n) (map row_frag (frags db)).

(** The name at a rank. *)
Definition name_at (db : database) (rank : Z) : text :=
  nth (Z.to_nat rank) (sorted_names db) [].

(** The rank is in the range of the shard. *)
Definition in_shard (rank : Z) (s : shard) : Prop :=
  (snd s <= rank < snd s + fst s)%Z.

(** The shards start at [lo], follow one another without gap or overlap,
    and end at [hi]. *)
Fixpoint covers (lo hi : Z) (l : list shard) : Prop :=
  match l with
  | [] => lo = hi
  | (limit, offset) :: l' =>
      offset = lo /\ (0 <= limit)%Z /\ covers (lo + limit) hi l'
  end.

(** What the loop makes of an offset: it stays when the two names read
    there are equal and moves one up when they differ. *)
Definition bump (db : database) (offset : Z) : Z :=
  if text_eqb (name_at db offset) (name_at db (offset + 1)) then offset
  else (offset + 1)%Z.

(** The shard list of a list of offsets. *)
Definition shards_of (offsets : list Z) : list shard :=
  combine (limits offsets) (removelast offsets).

(** The interior offsets of [linspace]. *)
Definition interior (total n : Z) : list Z :=
  map (sample total n) (List.seq 1 (Z.to_nat n - 1)).

(** An offset [o] that is the exact quotient [i * total / n] cut down, or
    one below it where that quotient is an integer and the step
    [total / n] is not. *)
Definition near (total n i o : Z) : Prop :=
  (o = i * total / n
   \/ (o = i * total / n - 1 /\ (i * total) mod n = 0 /\ total mod n <> 0))%Z.

(** The counts for which the samples of [linspace] are shown to be
    [near]: the product of the two stays below 2^51. *)
Definition in_range (total n : Z) : Prop := (total * n <= 2 ^ 51)%Z.

(** Offsets at least one apart, from [lo] on and leaving room for one
    more below [hi]. *)
Fixpoint spaced (lo hi : Z) (mid : list Z) : Prop :=
  match mid with
  | [] => (lo <= hi)%Z
  | m :: mid' => (lo <= m)%Z /\ spaced (m + 1) hi mid'
  end.

(** Two names can be read at the offset. *)
Definition readable (db : database) (m : Z) : Prop :=
  (0 <= m)%Z /\ (m + 1 < Z.of_nat (length (sorted_names db)))%Z.

(** Two stores for the examples: mates in pairs, and a name with three
    rows. *)
Definition pairs_db : database :=
  load_file DEFAULT_BATCH_SIZE (create_table (connect_db empty_db))
    (ln ">a/1" ++ ln "AC" ++ ln ">a/2" ++ ln "GT" ++ ln ">b/1" ++ ln "AA"
     ++ ln ">c/1" ++ ln "CC" ++ ln ">c/2" ++ ln "GG").

Definition triple_db : database :=
  load_file DEFAULT_BATCH_SIZE (create_table (connect_db empty_db))
    (ln ">a/1" ++ ln "AC" ++ ln ">b/1" ++ ln "GT" ++ ln ">b/2" ++ ln "AA"
     ++ ln ">b_1" ++ ln "CC").

Definition two_shards : config :=
  {| sra_files := []; shards := 2; cpu := 1 |}.


(** ** Vocabulary of the round trip *)

(** The lines of a text file: each closed by its line feed, but perhaps
    the last one. *)
Inductive lines_ok : list text -> Prop :=
| lines_nil : lines_ok []
| lines_last : forall l, no_lf l -> l <> [] -> lines_ok [l]
| lines_cons : forall l ls, full_line l -> lines_ok ls -> lines_ok (l :: ls).

(** No line that starts with a letter comes before the first header
    line. *)
Fixpoint headed (lines : list text) : bool :=
  match lines with
  | [] => true
  | l :: rest =>
      if is_header l then true
      else if starts_alpha l then false
      else headed rest
  end.

(** A name and an end tag as a header line gives them: the two groups of
    the pattern, or the rest of a line that the pattern does not match. *)
Definition wf_name (f e : text) : Prop :=
  (exists sep d,
      e = [sep; d] /\ is_sep sep = true /\ is_lf sep = false
      /\ is_12 d = true /\ no_lf f /\ starts_nonspace f = true)
  \/ (e = [] /\ exists body,
         f = body ++ [LF] /\ no_lf body /\ match_spaces f = None).

(** A sequence as the loader builds it. *)
Definition wf_seq (s : text) : Prop :=
  starts_alpha s = true /\ no_lf s /\ rstrip s = s.

Definition wf_row (r : row) : Prop :=
  wf_name (row_frag r) (row_frag_end r) /\ wf_seq (row_seq r)
  /\ no_cr (row_frag r) /\ no_cr (row_frag_end r) /\ no_cr (row_seq r).

Definition wf_rec (r : rec) : Prop :=
  exists f, fst (fst r) = PyStr f /\ wf_row (f, snd (fst r), snd r).

(** The text [create_blast_db] writes for the rows of a shard. *)
Definition shard_fasta (db : database) (shard_params : shard) : text :=
  fold_left write_row
    (select_rows db (fst shard_params) (snd shard_params)) [].

(** The lines of that text for one row. *)
Definition row_lines (r : row) : list text :=
  if nonempty (row_frag_end r)
  then [GT :: row_frag r ++ row_frag_end r ++ [LF]; row_seq r ++ [LF]]
  else [GT :: row_frag r; [LF]; row_seq r ++ [LF]].

(** A line feed is nowhere but at the end. *)
Definition lf_only_last (s : text) : Prop :=
  forall p c q, s = p ++ c :: q -> q <> [] -> is_lf c = false.

(** The name and end tag in the locals are those of a header line. *)
Definition wf_fields (l : locals) : Prop :=
  exists f, frag l = PyStr f /\ wf_name f (frag_end l)
            /\ no_cr f /\ no_cr (frag_end l).

(** What holds of the locals of the loop when [rest] is still to read:
    before the first header line no sequence is pending; a header line
    without line feed is the last line; otherwise the name and end tag
    are those of a header line and the pending sequence, if any, is well
    formed. *)
Definition loader_inv (l : locals) (rest : list text) : Prop :=
  Forall wf_rec (recs l)
  /\ ((seq l = [] /\ headed rest = true)
      \/ (seq l = [] /\ rest = [])
      \/ (wf_fields l
          /\ (seq l = [] \/ (wf_seq (seq l) /\ no_cr (seq l))))).

(** The record that reading back the lines of a row gives. *)
Definition row_rec (r : row) : rec :=
  (PyStr (row_frag r), row_frag_end r, row_seq r).

(** A configuration whose only input file is the export of a shard. *)
Definition reingest (CONFIG : config) (fasta : text) : config :=
  {| sra_files := [fasta]; shards := shards CONFIG; cpu := cpu CONFIG |}.

Definition mixed_config : config :=
  {| sra_files := [ln ">r2/2" ++ ln "TTTT" ++ ln "@r1 1" ++ ln "ACGT"
                   ++ ln "+" ++ ln "IIII";
                   ln ">single.read" ++ ln "GG" ++ ln "CC"];
     shards := 2; cpu := 1 |}.

(** ** Vocabulary of the pool *)

(** The states a run of [create_blast_dbs(config, shard_list)] goes
    through. *)
Definition create_blast_dbs (makeblastdb : nat -> text -> Z)
    (file : database) (CONFIG : config) (shard_list : list shard)
    (p : pool) : Prop :=
  reachable makeblastdb file (cpu CONFIG) shard_list p.

(** The task is over and its worker returned. *)
Definition built (t : task) : Prop :=
  exists o n, t = Over o /\ returned o = Ok n.

(** What is left to do: two steps for a queued task, one for a running
    one, and the results still to collect. *)
Definition weight (t : task) : nat :=
  match t with
  | Queued => 2
  | Running => 1
  | _ => 0
  end.

Definition measure (p : pool) : nat :=
  match pc p with
  | Getting j =>
      1 + (length (tasks p) - j) + list_sum (map weight (tasks p))
  | _ => 0
  end.

(** What holds in every state of a run. *)
Definition pool_inv (makeblastdb : nat -> text -> Z) (file : database)
    (cpu_count : Z) (shard_list : list shard) (p : pool) : Prop :=
  (forall i o, nth_error (tasks p) i = Some (Over o) ->
               o = run_task makeblastdb file shard_list i)
  /\ match pc p with
     | Getting j =>
         length (tasks p) = length shard_list
         /\ (1 <= cpu_count)%Z
         /\ (forall k, k < j ->
                       exists t, nth_error (tasks p) k = Some t /\ built t)
         /\ (forall i, nth_error (tasks p) i <> Some Terminated)
     | Finished =>
         length (tasks p) = length shard_list
         /\ Forall built (tasks p)
     | Propagating e =>
         (e = ValueError /\ (cpu_count < 1)%Z /\ tasks p = [])
         \/ (length (tasks p) = length shard_list
             /\ exists j o,
                  nth_error (tasks p) j = Some (Over o)
                  /\ returned o = Raise e
                  /\ (forall k, k < j ->
                        exists t, nth_error (tasks p) k = Some t /\ built t)
                  /\ Forall (fun t => t = Terminated \/ exists o', t = Over o')
                       (tasks p))
     end.

(** A tool that fails on the first shard only. *)
Definition fails_on_first (shard_index : nat) (fasta : text) : Z :=
  if Nat.eqb shard_index 0 then 1%Z else 0%Z.

(** A run on two shards with one worker, where the tool fails on the
    first shard while the second is being built. *)
Definition pair_shards : list shard := [(3, 0); (2, 3)]%Z.

Definition failed_run : pool :=
  {| tasks := [Over (run_task fails_on_first pairs_db pair_shards 0);
               Terminated];
     pc := Propagating (CalledProcessError 1) |}.

(** ** Examples for the further properties *)

Definition trailing_text_header : text :=
  ln ">sample_1_read/2 lane 3".

Definition always_succeeds (shard_index : nat) (fasta : text) : Z := 0%Z.

Definition built_run : pool :=
  {| tasks := [Over (run_task always_succeeds pairs_db pair_shards 0);
               Over (run_task always_succeeds pairs_db pair_shards 1)];
     pc := Finished |}.

(** A FASTA record: the text of the header line after ['>'] and the
    lines of the sequence, each without its line break. *)
Record fasta := {
  fa_title : text;
  fa_lines : list text
}.

Definition seq_lines (lines : list text) : list text :=
  map (fun s => s ++ [LF]) lines.

Definition fasta_lines (e : fasta) : list text :=
  (GT :: fa_title e ++ [LF]) :: seq_lines (fa_lines e).

Definition fasta_text (es : list fasta) : text :=
  concat (flat_map fasta_lines es).

(** A sequence line: no line break in it, and a letter first. *)
Definition seq_line_ok (s : text) : Prop :=
  no_break s /\ starts_alpha s = true.

Definition fasta_ok (e : fasta) : Prop :=
  no_break (fa_title e) /\ fa_lines e <> [] /\ Forall seq_line_ok (fa_lines e).

(** The sequence the loader makes of the lines. *)
Definition joined (lines : list text) : text := concat (map rstrip lines).

Definition fasta_row (e : fasta) : row :=
  let h := header_fields (GT :: fa_title e ++ [LF]) in
  (text_affinity (fst h), snd h, joined (fa_lines e)).

Definition fasta_rec (e : fasta) : rec :=
  let h := header_fields (GT :: fa_title e ++ [LF]) in
  (fst h, snd h, joined (fa_lines e)).

(** Every INSERT of the log carries at least one row and at most [batch]
    rows. *)
Definition bounded_inserts (batch : Z) (log : list statement) : Prop :=
  Forall (fun s => match s with
                   | INSERT rows =>
                       (1 <= Z.of_nat (length rows) <= batch)%Z
                   | _ => True
                   end) log.

Definition wrapped_example : fasta :=
  {| fa_title := txt "read7/1"; fa_lines := [txt "ACGT  "; txt "TTGA"] |}.

(** The outcome of the partitioner, by the shard count [n] and the
    record count [total]. *)
Definition assign_outcome (db : database) (n : Z) : result (list shard) :=
  let total := Z.of_nat (length (frags db)) in
  if (n <? -1)%Z then Raise ValueError
  else if (n <=? 1)%Z then Raise UnboundLocalError
  else if (total <=? n)%Z then Raise TypeError
  else Ok (shards_of (0%Z :: map (bump db) (interior total n) ++ [total])).

(** Consecutive offsets are [q] or [q + 1] apart, from [prev] to [last]. *)
Fixpoint gaps_ok (q prev last : Z) (mid : list Z) : Prop :=
  match mid with
  | [] => (q <= last - prev <= q + 1)%Z
  | m :: mid' => (q <= m - prev <= q + 1)%Z /\ gaps_ok q m last mid'
  end.

(** ** The files of the shards *)

Definition ZERO : ascii := ascii_of_N 48.
Definition UNDERSCORE : ascii := ascii_of_N 95.

(** ['{}'.format(n)] for an integer [n >= 0]: its decimal digits. *)
Definition format_d (n : nat) : text :=
  txt (NilZero.string_of_uint (Nat.to_uint n)).

(** ['{:03d}'.format(n)] for an integer [n >= 0]: the decimal digits,
    filled with zeros on the left up to three characters. *)
Definition format_03d (n : nat) : text :=
  let digits := format_d n in
  repeat ZERO (3 - length digits) ++ digits.

(** [format_sra.py], [create_blast_db]:
    ['{}shard_seqs_{}.fasta'.format(config['blast_db'], shard_index + 1)] *)
Definition fasta_file_name (blast_db : text) (shard_index : nat) : text :=
  blast_db ++ txt "shard_seqs_" ++ format_d (shard_index + 1) ++ txt ".fasta".

(** [os.path.join(a, b)] on a POSIX host. *)
Definition startswith_sep (s : text) : bool :=
  match s with
  | c :: _ => Ascii.eqb c SLASH
  | [] => false
  end.

Definition endswith_sep (s : text) : bool := startswith_sep (rev s).

Definition join (a b : text) : text :=
  if startswith_sep b then b
  else if negb (nonempty a) || endswith_sep a then a ++ b
  else a ++ SLASH :: b.

(** [atram_preprocessor.py], [create_one_blast_shard]: the name of the
    blast database of the shard, and the path of its FASTA file;
    [exe_name] is [splitext(basename(sys.argv[0]))[0]]. *)
Definition shard_name (blast_db : text) (shard_index : nat) : text :=
  blast_db ++ DOT :: format_03d shard_index ++ txt ".blast".

Definition fasta_name (exe_name : text) (shard_index : nat) : text :=
  exe_name ++ UNDERSCORE :: format_03d shard_index ++ txt ".fasta".

Definition fasta_path (temp_dir exe_name : text) (shard_index : nat) : text :=
  join temp_dir (fasta_name exe_name shard_index).

(** [enumerate(shard_list)] and [enumerate(shard_list, 1)]: the indexes
    handed to the workers. *)
Definition enumerate (A : Type) (start : nat) (l : list A) : list (nat * A) :=
  combine (List.seq start (length l)) l.

(** ** More of [str] *)

(** [str.lower] on the code points below 256: the letters A..Z and the
    capital letters of Latin-1 move up by 32. *)
Definition lower_char (c : ascii) : ascii :=
  if between 65 90 c || between 192 214 c || between 216 222 c
  then ascii_of_N (code c + 32)
  else c.

Definition lower (s : text) : text := map lower_char s.

(** [str.lstrip()] and [str.strip()]. *)
Fixpoint lstrip (s : text) : text :=
  match s with
  | [] => []
  | c :: s' => if isspace c then lstrip s' else s
  end.

Definition strip (s : text) : text := lstrip (rstrip s).

(** [s.endswith(suffix)] *)
Definition endswith (s suffix : text) : bool :=
  (length suffix <=? length s)
  && text_eqb (skipn (length s - length suffix) s) suffix.

(** ** [atram_preprocessor.py]

    The modules [lib.db] and [lib.blast] are not part of the sources at
    hand: what the functions below take from them is a variable of their
    section. *)

Module Preprocessor.

(** The exceptions above, and the one of [cuts[-1]] on an empty list. *)
Inductive raised :=
| IndexError
| Other (e : exception).

Inductive outcome (A : Type) :=
| Returns (a : A)
| Raises (r : raised).

Arguments Returns {A} a.
Arguments Raises {A} r.

(** [[f(x) for x in l]]: the first exception ends the comprehension. *)
Fixpoint comprehension (A B : Type) (f : A -> outcome B) (l : list A)
  : outcome (list B) :=
  match l with
  | [] => Returns []
  | x :: l' =>
      match f x with
      | Raises r => Raises r
      | Returns y =>
          match comprehension f l' with
          | Raises r => Raises r
          | Returns ys => Returns (y :: ys)
          end
      end
  end.

(** [[(cuts[i - 1], cuts[i]) for i in range(1, len(cuts))]] *)
Definition pairs (cuts : list text) : list (text * text) :=
  map (fun i => (nth (i - 1) cuts [], nth i cuts []))
      (List.seq 1 (length cuts - 1)).

Section Partitioner.

(** A connection, [db.get_sequence_count] and [db.get_shard_cut]. *)
Variable cxn : Type.
Variable get_sequence_count : cxn -> Z.
Variable get_shard_cut : cxn -> Z -> outcome text.

(** [np.linspace(0, total - 1, dtype=int, num=shard_count + 1)] is the
    [linspace] above at [total - 1]; on an empty table the stop is -1
    and the offsets between the two ends are those of a numpy that cuts
    down with [np.floor]. *)
Definition assign_seqs_to_shards (c : cxn) (shard_count : Z)
  : outcome (list (text * text)) :=
  let total := get_sequence_count c in
  match linspace (total - 1) (shard_count + 1) with
  | Raise e => Raises (Other e)
  | Ok offsets =>
      match comprehension (get_shard_cut c) offsets with
      | Raises r => Raises r
      | Returns cuts =>
          match rev cuts with
          | [] => Raises IndexError                      (* cuts[-1] *)
          | last_cut :: front =>
              Returns (pairs (rev front ++ [last_cut ++ txt "z"]))
          end
      end
  end.

End Partitioner.

(** The command line, as far as the loader reads it: each of the four
    options is absent ([None]) or a list of file names. *)
Record args := {
  mixed_ends : option (list text);
  end_1 : option (list text);
  end_2 : option (list text);
  single_ends : option (list text)
}.

(** [if args.get(ends)]: the option is there and its list is not empty. *)
Definition given (files : option (list text)) : bool :=
  match files with
  | Some (_ :: _) => true
  | _ => false
  end.

Definition files_of (files : option (list text)) : list text :=
  match files with
  | Some l => l
  | None => []
  end.

(** [parse_command_line]: the list [all_files]. *)
Definition all_files (a : args) : list text :=
  fold_left (fun all files => if given files then all ++ files_of files
                              else all)
            [mixed_ends a; end_1 a; end_2 a; single_ends a] [].

Section Loader.

(** A connection, [db.BATCH_SIZE], [db.insert_sequences_batch] and
    [blast.parse_fasta_title]; the two functions are taken to return. *)
Variable cxn : Type.
Variable BATCH_SIZE : Z.
Variable insert_sequences_batch : cxn -> list row -> cxn.
Variable parse_fasta_title : text -> text -> text -> text * text.

(** The parsers of Biopython on the file of a name: the records
    [(title, sequence)] they yield, and the exception, if any, that ends
    the iteration, the one of [open] included. The quality string of a
    FASTQ record is never read. *)
Variable FastqGeneralIterator : text -> list (text * text) * option raised.
Variable SimpleFastaParser : text -> list (text * text) * option raised.

Definition is_fastq (file_name : text) : bool :=
  endswith (lower file_name) (txt "q").

Definition parser (file_name : text)
  : text -> list (text * text) * option raised :=
  if is_fastq file_name then FastqGeneralIterator else SimpleFastaParser.

(** One turn of the loop of [load_one_file], on the connection and the
    batch. *)
Definition load_rec (ends seq_end_clamp : text) (st : cxn * list row)
    (rec : text * text) : cxn * list row :=
  let (c, batch) := st in
  let title := strip (fst rec) in
  let seq := snd rec in
  let (seq_name, seq_end) := parse_fasta_title title ends seq_end_clamp in
  let batch := batch ++ [(seq_name, seq_end, seq)] in
  if (BATCH_SIZE <=? Z.of_nat (length batch))%Z
  then (insert_sequences_batch c batch, [])
  else (c, batch).

Definition load_one_file (c : cxn) (file_name ends seq_end_clamp : text)
  : cxn * outcome unit :=
  let (recs, raised_by_parser) := parser file_name file_name in
  let (c1, batch) := fold_left (load_rec ends seq_end_clamp) recs (c, []) in
  match raised_by_parser with
  | Some r => (c1, Raises r)
  | None => (insert_sequences_batch c1 batch, Returns tt)
  end.

(** A [for] loop whose body may raise. *)
Fixpoint for_each (A : Type) (body : cxn -> A -> cxn * outcome unit)
    (l : list A) (c : cxn) : cxn * outcome unit :=
  match l with
  | [] => (c, Returns tt)
  | x :: l' =>
      match body c x with
      | (c1, Returns _) => for_each body l' c1
      | (c1, Raises r) => (c1, Raises r)
      end
  end.

Definition load_seqs (a : args) (c : cxn) : cxn * outcome unit :=
  for_each
    (fun c group =>
       let '(files, ends, clamp) := group in
       if given files
       then for_each (fun c file_name => load_one_file c file_name ends clamp)
                     (files_of files) c
       else (c, Returns tt))
    [(mixed_ends a, txt "mixed_ends", []);
     (end_1 a, txt "end_1", txt "1");
     (end_2 a, txt "end_2", txt "2");
     (single_ends a, txt "single_ends", [])]
    c.

End Loader.

End Preprocessor.

(** ** Vocabulary of the preprocessor *)

(** The offset of the cut of rank [k] among the [n + 1] cuts of a table
    of [total] sequences: the value of rank [k] of
    [np.linspace(0, total - 1, num=n + 1, dtype=int)]. *)
Definition cut_offset (total n : Z) (k : nat) : Z :=
  if (Z.of_nat k =? n)%Z then (total - 1)%Z else sample (total - 1) n k.

Definition no_pair : text * text := ([], []).

(** Strictly before, in the order of the names. *)
Definition lex_lt (a b : text) : Prop := lex_leb b a = false.

(** A table given by its sorted names. *)
Definition names_count (names : list text) : Z := Z.of_nat (length names).

Definition names_cut (names : list text) (offset : Z)
  : Preprocessor.outcome text :=
  if (offset <? 0)%Z then Preprocessor.Raises (Preprocessor.Other TypeError)
  else match nth_error names (Z.to_nat offset) with
       | Some n => Preprocessor.Returns n
       | None => Preprocessor.Raises (Preprocessor.Other TypeError)
       end.

Definition five_names : list text :=
  [txt "a"; txt "b"; txt "c"; txt "d"; txt "e"].

(** The row that [load_one_file] makes of a parsed record. *)
Definition title_row (parse_fasta_title : text -> text -> text -> text * text)
    (ends seq_end_clamp : text) (rec : text * text) : row :=
  let (seq_name, seq_end) :=
    parse_fasta_title (strip (fst rec)) ends seq_end_clamp in
  (seq_name, seq_end, snd rec).

(** The files of the command line with the option and the clamp of their
    group, in the order of the groups. *)
Definition tagged (a : Preprocessor.args) : list (text * text * text) :=
  map (fun f => (f, txt "mixed_ends", [])) 
      (Preprocessor.files_of (Preprocessor.mixed_ends a))
  ++ map (fun f => (f, txt "end_1", txt "1"))
         (Preprocessor.files_of (Preprocessor.end_1 a))
  ++ map (fun f => (f, txt "end_2", txt "2"))
         (Preprocessor.files_of (Preprocessor.end_2 a))
  ++ map (fun f => (f, txt "single_ends", []))
         (Preprocessor.files_of (Preprocessor.single_ends a)).

(** A connection that records the batches it is given. *)
Definition record_batch (c : list (list row)) (batch : list row)
  : list (list row) := c ++ [batch].

Definition title_and_clamp (title ends seq_end_clamp : text) : text * text :=
  (title, seq_end_clamp).

Definition three_reads (file_name : text)
  : list (text * text) * option Preprocessor.raised :=
  ([(txt " r1 ", txt "ACGT"); (txt "r2", txt "GG"); (txt "r3", txt "T")],
   None).

Definition paired_args : Preprocessor.args :=
  {| Preprocessor.mixed_ends := None;
     Preprocessor.end_1 := Some [txt "a_1.fasta"];
     Preprocessor.end_2 := Some [txt "a_2.fasta"];
     Preprocessor.single_ends := Some [] |}.

(** * Properties *)

Unset Implicit Arguments.

(** ** Characters and lines *)

Lemma alpha_not_space : forall c, isalpha c = true -> isspace c = false.
Proof.
  intros [b0 b1 b2 b3 b4 b5 b6 b7];
    destruct b0, b1, b2, b3, b4, b5, b6, b7; vm_compute; congruence.
Qed.

Lemma lf_is_space : forall c, is_lf c = true -> isspace c = true.
Proof.
  intros [b0 b1 b2 b3 b4 b5 b6 b7];
    destruct b0, b1, b2, b3, b4, b5, b6, b7; vm_compute; congruence.
Qed.

Lemma marker_not_space : forall c, is_marker c = true -> isspace c = false.
Proof.
  intros [b0 b1 b2 b3 b4 b5 b6 b7];
    destruct b0, b1, b2, b3, b4, b5, b6, b7; vm_compute; congruence.
Qed.

Lemma digit_not_sep : forall c, is_12 c = true -> is_sep c = false.
Proof.
  intros [b0 b1 b2 b3 b4 b5 b6 b7];
    destruct b0, b1, b2, b3, b4, b5, b6, b7; vm_compute; congruence.
Qed.

Lemma is_lf_LF : forall c, is_lf c = true -> c = LF.
Proof.
  intros [b0 b1 b2 b3 b4 b5 b6 b7];
    destruct b0, b1, b2, b3, b4, b5, b6, b7; vm_compute; congruence.
Qed.

Lemma text_eqb_eq : forall a b, text_eqb a b = true <-> a = b.
Proof.
  intros a b. unfold text_eqb. destruct (list_eq_dec ascii_dec a b); split;
    congruence.
Qed.

Lemma no_break_no_lf : forall s, no_break s -> no_lf s.
Proof.
  unfold no_break, no_lf. intros s H. eapply Forall_impl; [|exact H].
  simpl. tauto.
Qed.

Lemma readlines_line : forall s rest,
  no_lf s -> readlines (s ++ LF :: rest) = (s ++ [LF]) :: readlines rest.
Proof.
  induction s as [|c s IH]; intros rest H; simpl.
  - reflexivity.
  - inversion H as [|? ? Hc Hs]; subst. rewrite Hc, (IH rest Hs). reflexivity.
Qed.

Lemma readlines_last : forall s,
  no_lf s -> s <> [] -> readlines s = [s].
Proof.
  induction s as [|c s IH]; intros H Hne; [congruence|].
  inversion H as [|? ? Hc Hs]; subst. simpl. rewrite Hc.
  destruct s as [|d s]; [reflexivity|].
  rewrite IH; [reflexivity|assumption|discriminate].
Qed.

Lemma rstrip_snoc_space : forall s c,
  isspace c = true -> rstrip (s ++ [c]) = rstrip s.
Proof.
  induction s as [|d s IH]; intros c Hc; simpl.
  - rewrite Hc. reflexivity.
  - rewrite (IH c Hc). reflexivity.
Qed.

Lemma rstrip_head : forall c s,
  isspace c = false -> exists r, rstrip (c :: s) = c :: r.
Proof.
  intros c s Hc. simpl. destruct (rstrip s) as [|d r].
  - rewrite Hc. exists []. reflexivity.
  - exists (d :: r). reflexivity.
Qed.

(** ** Batches

    The rows a file adds to the table do not depend on the batch size:
    they are the records of [records], stored. *)

Lemma on_line_recs : forall l line rs,
  on_line (with_recs (rs ++ recs l) l) line
  = with_recs (rs ++ recs (on_line l line)) (on_line l line).
Proof.
  intros [r s fe f b] line rs. destruct line as [|c rest]; simpl.
  - reflexivity.
  - unfold with_recs, flush; simpl.
    destruct (is_marker c).
    + destruct (match_spaces rest) as [[g1 g2]|]; simpl;
        destruct (nonempty s); simpl; rewrite ?app_assoc; reflexivity.
    + destruct (is_plus c); [reflexivity|].
      destruct (isalpha c && b); reflexivity.
Qed.

Lemma frags_bulk_insert : forall db rs,
  frags (bulk_insert db rs) = frags db ++ map store_rec rs.
Proof.
  intros db rs. unfold bulk_insert. destruct rs; simpl.
  - rewrite app_nil_r. reflexivity.
  - reflexivity.
Qed.

Lemma fold_on_line_recs : forall lines l rs,
  fold_left on_line lines (with_recs (rs ++ recs l) l)
  = with_recs (rs ++ recs (fold_left on_line lines l))
      (fold_left on_line lines l).
Proof.
  induction lines as [|line lines IH]; intros l rs; simpl.
  - reflexivity.
  - rewrite on_line_recs. apply IH.
Qed.

Lemma with_recs_nil_split : forall l,
  l = with_recs (recs l ++ recs (with_recs [] l)) (with_recs [] l).
Proof.
  intros [r s fe f b]. unfold with_recs; simpl. rewrite app_nil_r.
  reflexivity.
Qed.

Lemma with_recs_idem : forall rs rs' l,
  with_recs rs (with_recs rs' l) = with_recs rs l.
Proof. reflexivity. Qed.

Lemma with_recs_self : forall l, with_recs (recs l) l = l.
Proof. intros []; reflexivity. Qed.

Lemma flush_with_recs : forall rs l,
  flush (with_recs (rs ++ recs l) l) = rs ++ flush l.
Proof.
  intros rs l. unfold flush, with_recs; simpl.
  destruct (nonempty (seq l)); [rewrite app_assoc|]; reflexivity.
Qed.

Lemma flush_split : forall l,
  flush l = recs l ++ flush (with_recs [] l).
Proof.
  intros l. unfold flush, with_recs; simpl.
  destruct (nonempty (seq l)); [|rewrite app_nil_r]; reflexivity.
Qed.

(** What the loop over the lines leaves: the rows written so far and the
    pending records add up to the records of the unbatched loop. *)
Lemma load_fold : forall batch lines db l,
  let pure := fold_left on_line lines l in
  exists db' rs',
    fold_left (load_step batch) lines (db, l) = (db', with_recs rs' pure)
    /\ frags db' ++ map store_rec rs'
       = frags db ++ map store_rec (recs pure).
Proof.
  intros batch lines. induction lines as [|line lines IH]; intros db l; simpl.
  - exists db, (recs l). rewrite with_recs_self. auto.
  - destruct (batch <=? Z.of_nat (length (recs (on_line l line))))%Z.
    + set (lo := on_line l line).
      fold (with_recs [] lo).
      destruct (IH (bulk_insert db (recs lo)) (with_recs [] lo))
        as (db' & rs' & Hf & Hr).
      assert (Hlo : fold_left on_line lines lo
                    = with_recs (recs lo ++ recs (fold_left on_line lines (with_recs [] lo)))
                        (fold_left on_line lines (with_recs [] lo))).
      { rewrite <- fold_on_line_recs. f_equal. apply with_recs_nil_split. }
      rewrite Hf. exists db', rs'. split.
      * rewrite Hlo, with_recs_idem. reflexivity.
      * rewrite Hr, frags_bulk_insert, Hlo. simpl recs.
        rewrite map_app, app_assoc. reflexivity.
    + apply IH.
Qed.

(** The rows of a file are appended whatever the batch size. *)
Lemma frags_load_file : forall batch db content,
  frags (load_file batch db content)
  = frags db ++ map store_rec (records content).
Proof.
  intros batch db content. unfold load_file, records.
  destruct (load_fold batch (open_r content) db locals0)
    as (db' & rs' & Hf & Hr).
  rewrite Hf. rewrite frags_bulk_insert.
  set (pure := fold_left on_line (open_r content) locals0) in *.
  rewrite flush_split, (flush_split pure). simpl recs.
  rewrite with_recs_idem, !map_app, !app_assoc, Hr. reflexivity.
Qed.

Lemma frags_load_files : forall batch files db,
  frags (load_files batch db files)
  = frags db ++ map store_rec (flat_map records files).
Proof.
  induction files as [|f files IH]; intros db; simpl.
  - rewrite app_nil_r. reflexivity.
  - unfold load_files in *. simpl. rewrite IH, frags_load_file.
    rewrite map_app, app_assoc. reflexivity.
Qed.

(** ** The loader, line by line *)

Lemma on_line_header : forall l line,
  is_header line = true ->
  on_line l line
  = {| recs := flush l; seq := []; frag_end := snd (header_fields line);
       frag := fst (header_fields line); is_seq := true |}.
Proof.
  intros l [|c rest] H; simpl in H; [discriminate|].
  unfold on_line, header_fields. rewrite H.
  destruct (FRAGMENT_match (c :: rest)) as [[g1 g2]|]; reflexivity.
Qed.

Lemma alpha_not_marker : forall c, isalpha c = true -> is_marker c = false.
Proof.
  intros [b0 b1 b2 b3 b4 b5 b6 b7];
    destruct b0, b1, b2, b3, b4, b5, b6, b7; vm_compute; congruence.
Qed.

Lemma alpha_not_plus : forall c, isalpha c = true -> is_plus c = false.
Proof.
  intros [b0 b1 b2 b3 b4 b5 b6 b7];
    destruct b0, b1, b2, b3, b4, b5, b6, b7; vm_compute; congruence.
Qed.

Lemma plus_not_marker : forall c, is_plus c = true -> is_marker c = false.
Proof.
  intros [b0 b1 b2 b3 b4 b5 b6 b7];
    destruct b0, b1, b2, b3, b4, b5, b6, b7; vm_compute; congruence.
Qed.

Lemma on_line_residues : forall l line,
  starts_alpha line = true -> is_seq l = true ->
  on_line l line
  = {| recs := recs l; seq := seq l ++ rstrip line; frag_end := frag_end l;
       frag := frag l; is_seq := true |}.
Proof.
  intros l [|c rest] H Hs; simpl in H; [discriminate|].
  unfold on_line. rewrite (alpha_not_marker _ H), (alpha_not_plus _ H), H, Hs.
  reflexivity.
Qed.

Lemma on_line_plus : forall l c rest,
  is_plus c = true ->
  on_line l (c :: rest)
  = {| recs := recs l; seq := seq l; frag_end := frag_end l;
       frag := frag l; is_seq := false |}.
Proof.
  intros l c rest H. unfold on_line. rewrite (plus_not_marker _ H), H.
  reflexivity.
Qed.


Lemma rstrip_nonempty : forall s,
  starts_alpha s = true -> nonempty (rstrip s) = true.
Proof.
  intros [|c s] H; simpl in H; [discriminate|].
  destruct (rstrip_head c s (alpha_not_space _ H)) as [r Hr].
  rewrite Hr. reflexivity.
Qed.

Lemma universal_newlines_id : forall s,
  Forall (fun c => is_cr c = false) s -> universal_newlines s = s.
Proof.
  induction 1 as [|c s Hc Hs IH]; simpl.
  - reflexivity.
  - rewrite Hc, IH. reflexivity.
Qed.

(** ** FASTQ records *)



Lemma readlines_concat : forall ls,
  Forall full_line ls -> readlines (concat ls) = ls.
Proof.
  induction 1 as [|l ls (body & -> & Hb) Hls IH]; simpl.
  - reflexivity.
  - rewrite <- app_assoc. simpl. rewrite readlines_line by exact Hb.
    rewrite IH. reflexivity.
Qed.

Lemma no_break_no_cr : forall s, no_break s -> no_cr s.
Proof.
  unfold no_break, no_cr. intros s H. eapply Forall_impl; [|exact H].
  simpl. tauto.
Qed.

Lemma no_cr_concat : forall ls, Forall no_cr ls -> no_cr (concat ls).
Proof.
  induction 1 as [|l ls Hl Hls IH]; simpl.
  - constructor.
  - apply Forall_app. split; assumption.
Qed.

Lemma open_r_lines : forall ls,
  Forall full_line ls -> Forall no_cr ls -> open_r (concat ls) = ls.
Proof.
  intros ls Hf Hc. unfold open_r.
  rewrite universal_newlines_id by (apply no_cr_concat; exact Hc).
  apply readlines_concat. exact Hf.
Qed.

Lemma full_line_intro : forall s, no_lf s -> full_line (s ++ [LF]).
Proof. intros s H. exists s. auto. Qed.

Lemma full_line_cons : forall c s,
  is_lf c = false -> no_lf s -> full_line (c :: s ++ [LF]).
Proof.
  intros c s Hc H. exists (c :: s). split; [reflexivity|].
  constructor; assumption.
Qed.

Lemma no_cr_snoc_lf : forall s, no_cr s -> no_cr (s ++ [LF]).
Proof.
  intros s H. apply Forall_app. split; [exact H|].
  constructor; [reflexivity|constructor].
Qed.



(** ** Claims on the loader *)





Lemma flush_nonempty : forall l,
  Forall (fun r => seq_nonempty r = true) (recs l) ->
  Forall (fun r => seq_nonempty r = true) (flush l).
Proof.
  intros l H. unfold flush. destruct (nonempty (seq l)) eqn:E; [|exact H].
  apply Forall_app. split; [exact H|].
  constructor; [exact E|constructor].
Qed.

Lemma on_line_nonempty : forall l line,
  Forall (fun r => seq_nonempty r = true) (recs l) ->
  Forall (fun r => seq_nonempty r = true) (recs (on_line l line)).
Proof.
  intros l [|c rest] H; [exact H|].
  destruct (is_marker c) eqn:Hm.
  - rewrite on_line_header by exact Hm. apply flush_nonempty, H.
  - unfold on_line. rewrite Hm.
    destruct (is_plus c); [exact H|].
    destruct (isalpha c && is_seq l); exact H.
Qed.

Lemma fold_on_line_nonempty : forall lines l,
  Forall (fun r => seq_nonempty r = true) (recs l) ->
  Forall (fun r => seq_nonempty r = true) (recs (fold_left on_line lines l)).
Proof.
  induction lines as [|line lines IH]; intros l H; simpl.
  - exact H.
  - apply IH, on_line_nonempty, H.
Qed.

Lemma records_nonempty : forall content,
  Forall (fun r => seq_nonempty r = true) (records content).
Proof.
  intros content. apply flush_nonempty, fold_on_line_nonempty. constructor.
Qed.

Lemma bulk_insert_nonempty : forall db r rs,
  executed (bulk_insert db (r :: rs))
  = executed db ++ [INSERT (map store_rec (r :: rs)); COMMIT].
Proof.
  intros db r rs. simpl. rewrite <- app_assoc. reflexivity.
Qed.

(** C10. Inserting an empty batch changes nothing: no statement is
    executed, no commit is made and the rows of the table are the same;
    the final flush of a file that gave no record leaves the database as
    it was. *)
Theorem bulk_insert_empty : forall (batch : Z) (db_conn : database),
  bulk_insert db_conn [] = db_conn
  /\ load_file batch db_conn [] = db_conn.
Proof.
  intros batch db_conn. split; reflexivity.
Qed.

(** C9. Every row a file adds to the table has a non-empty sequence; a
    header line that follows a header line adds no record, and neither
    does the end of the input right after a header line. *)
Theorem no_empty_sequence :
  forall (batch : Z) (db : database) (content : text),
    (exists added,
        frags (load_file batch db content) = frags db ++ added
        /\ Forall (fun r => nonempty (row_seq r) = true) added)
    /\ (forall l h h',
           is_header h = true -> is_header h' = true ->
           recs (on_line (on_line l h) h') = recs (on_line l h))
    /\ (forall l h,
           is_header h = true -> flush (on_line l h) = recs (on_line l h)).
Proof.
  intros batch db content. split; [|split].
  - exists (map store_rec (records content)). split.
    + apply frags_load_file.
    + apply Forall_map. eapply Forall_impl; [|apply records_nonempty].
      intros [[f e] s] H. exact H.
  - intros l h h' Hh Hh'.
    rewrite (on_line_header _ h' Hh'), (on_line_header _ h Hh). reflexivity.
  - intros l h Hh. rewrite (on_line_header _ h Hh). reflexivity.
Qed.

Lemma no_empty_sequence_witness :
  frags (load_file 1 empty_db (ln ">a" ++ ln ">b/1" ++ ln "AC" ++ txt "@c"))
  = [(txt "b", txt "/1", txt "AC")]
  /\ recs (on_line (on_line locals0 (ln ">a")) (ln ">b/1")) = []
  /\ flush (on_line locals0 (ln ">a")) = [].
Proof.
  destruct (no_empty_sequence 1 empty_db
              (ln ">a" ++ ln ">b/1" ++ ln "AC" ++ txt "@c"))
    as (_ & H2 & H3).
  split; [reflexivity|]. split.
  - rewrite (H2 locals0 (ln ">a") (ln ">b/1")); reflexivity.
  - rewrite (H3 locals0 (ln ">a")); reflexivity.
Defined.

(** ** The header pattern *)

Lemma digit_not_space : forall c, is_12 c = true -> isspace c = false.
Proof.
  intros [b0 b1 b2 b3 b4 b5 b6 b7];
    destruct b0, b1, b2, b3, b4, b5, b6, b7; vm_compute; congruence.
Qed.

Lemma digit_not_lf : forall c, is_12 c = true -> is_lf c = false.
Proof.
  intros [b0 b1 b2 b3 b4 b5 b6 b7];
    destruct b0, b1, b2, b3, b4, b5, b6, b7; vm_compute; congruence.
Qed.

Lemma space_is_sep : forall c, isspace c = true -> is_sep c = true.
Proof. intros c H. unfold is_sep. rewrite H. reflexivity. Qed.

Lemma match_groups_cons : forall c s,
  match_groups (c :: s)
  = match (if is_lf c then None else match_groups s) with
    | Some (g1, g2) => Some (c :: g1, g2)
    | None =>
        match s with
        | d :: _ => if is_sep c && is_12 d then Some ([], [c; d]) else None
        | [] => None
        end
    end.
Proof. reflexivity. Qed.

Lemma match_spaces_cons : forall c s,
  match_spaces (c :: s)
  = if isspace c then
      match match_spaces s with
      | Some r => Some r
      | None => match_groups (c :: s)
      end
    else match_groups (c :: s).
Proof. reflexivity. Qed.

(** The groups stop at the last separator-digit pair. *)
Lemma match_groups_last : forall name sep d t,
  no_lf name -> is_lf sep = false -> is_sep sep = true -> is_12 d = true ->
  match_groups (d :: t) = None ->
  match_groups (name ++ sep :: d :: t) = Some (name, [sep; d]).
Proof.
  induction name as [|c name IH]; intros sep d t Hn Hl Hs Hd Ht.
  - cbn [app]. rewrite match_groups_cons, Hl, Ht, Hs, Hd. reflexivity.
  - inversion Hn as [|? ? Hc Hn']; subst.
    cbn [app]. rewrite match_groups_cons, Hc.
    rewrite (IH sep d t Hn' Hl Hs Hd Ht). reflexivity.
Qed.

Lemma match_groups_digit_end : forall d t,
  is_12 d = true -> t = [] \/ t = [LF] -> match_groups (d :: t) = None.
Proof.
  intros d t Hd [-> | ->]; rewrite match_groups_cons.
  - destruct (is_lf d); reflexivity.
  - rewrite (digit_not_lf _ Hd). rewrite match_groups_cons.
    replace (is_lf LF) with true by reflexivity.
    rewrite (digit_not_sep _ Hd). reflexivity.
Qed.

Lemma match_spaces_skip : forall ws s r,
  Forall (fun c => isspace c = true) ws ->
  match_spaces s = Some r -> match_spaces (ws ++ s) = Some r.
Proof.
  induction ws as [|c ws IH]; intros s r Hws Hs; [exact Hs|].
  inversion Hws as [|? ? Hc Hws']; subst.
  cbn [app]. rewrite match_spaces_cons, Hc, (IH s r Hws' Hs). reflexivity.
Qed.

Lemma match_spaces_last : forall name sep d t,
  no_lf name -> starts_nonspace name = true ->
  is_lf sep = false -> is_sep sep = true -> is_12 d = true ->
  match_groups (d :: t) = None ->
  match_spaces (name ++ sep :: d :: t) = Some (name, [sep; d]).
Proof.
  intros name sep d t Hn Hst Hl Hs Hd Ht.
  pose proof (match_groups_last name sep d t Hn Hl Hs Hd Ht) as G.
  destruct name as [|c name].
  - cbn [app] in *. rewrite match_spaces_cons.
    destruct (isspace sep); [|exact G].
    rewrite match_spaces_cons, (digit_not_space _ Hd), Ht. exact G.
  - cbn [app] in *. rewrite match_spaces_cons. simpl in Hst.
    destruct (isspace c); [discriminate|exact G].
Qed.

Lemma match_groups_no_pair : forall s,
  has_pair s = false -> match_groups s = None.
Proof.
  induction s as [|c s IH]; intros H; [reflexivity|].
  cbn [has_pair] in H. rewrite match_groups_cons.
  destruct s as [|d s].
  - destruct (is_lf c); reflexivity.
  - apply orb_false_iff in H. destruct H as [H1 H2].
    rewrite (IH H2), H1. destruct (is_lf c); reflexivity.
Qed.

Lemma match_spaces_no_pair : forall s,
  has_pair s = false -> match_spaces s = None.
Proof.
  induction s as [|c s IH]; intros H; [reflexivity|].
  rewrite match_spaces_cons, (match_groups_no_pair _ H).
  destruct (isspace c); [|reflexivity].
  cbn [has_pair] in H. destruct s as [|d s]; [reflexivity|].
  apply orb_false_iff in H. destruct H as [_ H2].
  rewrite (IH H2). reflexivity.
Qed.

(** C6, as the pattern of [format_sra.py] has it. A header line that
    ends in a separator followed by '1' or '2', the separator being '/',
    '_' or a whitespace character, gives the text before the pair (after
    the marker and the whitespace that follows it) as name and the pair,
    separator included, as end tag; a header line without any such pair
    gives the line after its marker, line feed included, as name and the
    empty end tag. [header_fields] is a total function: no header makes
    the loader fail. *)
Theorem header_fields_spec :
  forall (m : ascii) (ws name : text) (sep d : ascii) (line : text),
    (is_marker m = true ->
     Forall (fun c => isspace c = true) ws ->
     no_lf name -> starts_nonspace name = true ->
     is_sep sep = true -> is_lf sep = false -> is_12 d = true ->
     header_fields (m :: ws ++ name ++ [sep; d; LF])
     = (PyStr name, [sep; d]))
    /\ (is_header line = true -> has_pair (tl line) = false ->
        header_fields line = (PyStr (tl line), [])).
Proof.
  intros m ws name sep d line. split.
  - intros Hm Hws Hn Hst Hs Hl Hd. unfold header_fields, FRAGMENT_match.
    rewrite Hm.
    assert (G : match_spaces (name ++ [sep; d; LF]) = Some (name, [sep; d])).
    { apply match_spaces_last; try assumption.
      apply match_groups_digit_end; auto. }
    rewrite (match_spaces_skip ws _ _ Hws G). reflexivity.
  - intros Hh Hp. destruct line as [|c rest]; [discriminate|].
    simpl in Hh, Hp. unfold header_fields, FRAGMENT_match.
    rewrite Hh, (match_spaces_no_pair _ Hp). reflexivity.
Qed.

Lemma header_fields_spec_witness :
  header_fields (ln "> read_7 2") = (PyStr (txt "read_7"), txt " 2")
  /\ header_fields (ln "@read.1") = (PyStr (ln "read.1"), []).
Proof.
  destruct (header_fields_spec GT (txt " ") (txt "read_7")
              (ascii_of_N 32) (ascii_of_N 50) (ln "@read.1")) as [H1 H2].
  split.
  - apply H1; try reflexivity; repeat constructor.
  - apply H2; reflexivity.
Defined.

(** C6 as the specification words it fails on the dot: ['.'] is not in
    the class of the pattern, so [>read.1] keeps its suffix in the name
    and has no end tag. *)
Lemma header_dot_not_stripped :
  header_fields (GT :: txt "read" ++ [DOT; ascii_of_N 49; LF])
  = (PyStr (txt "read.1" ++ [LF]), [])
  /\ fst (header_fields (GT :: txt "read" ++ [DOT; ascii_of_N 49; LF]))
     <> PyStr (txt "read")
  /\ snd (header_fields (GT :: txt "read" ++ [DOT; ascii_of_N 49; LF]))
     <> [DOT; ascii_of_N 49]
  /\ snd (header_fields (GT :: txt "read" ++ [DOT; ascii_of_N 49; LF]))
     <> [ascii_of_N 49].
Proof.
  repeat split; vm_compute; discriminate.
Qed.

(** ** The exporters *)

Lemma fold_left_write : forall (A : Type) (g : A -> text) (l : list A) acc,
  fold_left (fun f r => f ++ g r) l acc = acc ++ concat (map g l).
Proof.
  induction l as [|x l IH]; intros acc; simpl.
  - rewrite app_nil_r. reflexivity.
  - rewrite IH, app_assoc. reflexivity.
Qed.









(** ** Write-then-index *)

Lemma committed_batches_app : forall a b,
  committed_batches a -> committed_batches b -> committed_batches (a ++ b).
Proof.
  fix IH 1. intros [|s [|s' a]] b Ha Hb; simpl in *.
  - exact Hb.
  - destruct s; contradiction.
  - destruct s; try contradiction. destruct s'; try contradiction.
    apply IH; assumption.
Qed.

Lemma inserted_app : forall a b, inserted (a ++ b) = inserted a ++ inserted b.
Proof.
  induction a as [|s a IH]; intros b; simpl; [reflexivity|].
  destruct s; rewrite ?IH, <- ?app_assoc; reflexivity.
Qed.

Lemma loads_refl : forall db, loads db db.
Proof.
  intros db. exists []. simpl. rewrite !app_nil_r. auto.
Qed.

Lemma loads_trans : forall a b c, loads a b -> loads b c -> loads a c.
Proof.
  intros a b c (l1 & E1 & C1 & F1 & I1) (l2 & E2 & C2 & F2 & I2).
  exists (l1 ++ l2). repeat split.
  - rewrite E2, E1, app_assoc. reflexivity.
  - apply committed_batches_app; assumption.
  - rewrite F2, F1, inserted_app, app_assoc. reflexivity.
  - congruence.
Qed.

Lemma loads_bulk_insert : forall db rs, loads db (bulk_insert db rs).
Proof.
  intros db [|r rs].
  - apply loads_refl.
  - exists [INSERT (map store_rec (r :: rs)); COMMIT]. repeat split.
    + apply bulk_insert_nonempty.
    + simpl. rewrite app_nil_r. reflexivity.
Qed.

Lemma loads_fold_step : forall batch lines db l,
  loads db (fst (fold_left (load_step batch) lines (db, l))).
Proof.
  intros batch lines. induction lines as [|line lines IH]; intros db l.
  - apply loads_refl.
  - cbn [fold_left]. unfold load_step at 2.
    destruct (batch <=? Z.of_nat (length (recs (on_line l line))))%Z.
    + eapply loads_trans; [apply loads_bulk_insert|apply IH].
    + apply IH.
Qed.

Lemma loads_load_file : forall batch db content,
  loads db (load_file batch db content).
Proof.
  intros batch db content. unfold load_file.
  pose proof (loads_fold_step batch (open_r content) db locals0) as H.
  destruct (fold_left (load_step batch) (open_r content) (db, locals0))
    as [db1 l].
  eapply loads_trans; [exact H|apply loads_bulk_insert].
Qed.

Lemma loads_load_files : forall batch files db,
  loads db (load_files batch db files).
Proof.
  intros batch files. induction files as [|f files IH]; intros db.
  - apply loads_refl.
  - unfold load_files. cbn [fold_left].
    eapply loads_trans; [apply loads_load_file|apply IH].
Qed.

Lemma queries_logged : forall db s,
  is_select s = true -> queries db (logged db s).
Proof.
  intros db s H. exists [s]. simpl. rewrite H. auto.
Qed.

Lemma queries_refl : forall db, queries db db.
Proof. intros db. exists []. simpl. rewrite app_nil_r. auto. Qed.

Lemma queries_trans : forall a b c, queries a b -> queries b c -> queries a c.
Proof.
  intros a b c (l1 & E1 & C1 & F1 & I1) (l2 & E2 & C2 & F2 & I2).
  exists (l1 ++ l2). repeat split.
  - rewrite E2, E1, app_assoc. reflexivity.
  - rewrite forallb_app, C1, C2. reflexivity.
  - congruence.
  - congruence.
Qed.

Lemma queries_adjust_loop : forall range db st,
  queries db (fst (adjust_loop db range st)).
Proof.
  induction range as [|i range IH]; intros db st; cbn [adjust_loop].
  - apply queries_refl.
  - destruct (adjust db st i) as [st1|e].
    + eapply queries_trans; [|apply IH]. apply queries_logged. reflexivity.
    + apply queries_logged. reflexivity.
Qed.

Lemma queries_assign : forall db cfg,
  queries db (fst (assign_seqs_to_shards db cfg)).
Proof.
  intros db cfg. unfold assign_seqs_to_shards.
  assert (Q : queries db (logged db SELECT_COUNT))
    by (apply queries_logged; reflexivity).
  destruct (linspace _ _) as [offsets0|e]; [|exact Q].
  match goal with
  | |- context [adjust_loop ?d ?r ?s] =>
      pose proof (queries_adjust_loop r d s) as H;
      destruct (adjust_loop d r s) as [db2 [st|e]]
  end.
  - destruct (connection st); eapply queries_trans; eauto.
  - eapply queries_trans; eauto.
Qed.

(** C8. In a run of the main program the statements of the main
    connection are, in this order: the pragmas and the reset of the
    table, the batches of the loader (each INSERT with its COMMIT, adding
    up to the rows of the table), CREATE INDEX, and then SELECT
    statements only. A worker opens its own connection and runs one
    SELECT on it. So the index is created after the last batch is
    committed, and the table is the same for every query that follows. *)
Theorem index_after_load :
  forall (makeblastdb : nat -> text -> Z) (CONFIG : config) (file : database),
    let DB := fst (main CONFIG file) in
    (exists batches selects,
        executed DB
        = executed file
          ++ [PRAGMA; PRAGMA; PRAGMA; DROP_INDEX; DROP_TABLE; CREATE_TABLE]
          ++ batches ++ CREATE_INDEX :: selects
        /\ committed_batches batches
        /\ inserted batches = frags DB
        /\ forallb is_select selects = true
        /\ frag_index DB = true)
    /\ (forall shard_params shard_index,
           let w := worker_conn
                      (create_blast_db makeblastdb DB shard_params shard_index) in
           frags w = frags DB
           /\ executed w
              = executed DB
                ++ [PRAGMA; PRAGMA; PRAGMA;
                    SELECT_ROWS (fst shard_params) (snd shard_params)]).
Proof.
  intros makeblastdb CONFIG file DB. split.
  - subst DB. unfold main.
    set (db0 := create_table (connect_db file)).
    destruct (loads_load_files DEFAULT_BATCH_SIZE (sra_files CONFIG) db0)
      as (batches & E1 & C1 & F1 & I1).
    fold (load_seqs db0 CONFIG) in *.
    destruct (queries_assign (create_index (load_seqs db0 CONFIG)) CONFIG)
      as (selects & E2 & C2 & F2 & I2).
    exists batches, selects. repeat split.
    + rewrite E2. cbn [create_index executed]. rewrite E1.
      subst db0. cbn [create_table connect_db executed].
      rewrite <- !app_assoc. reflexivity.
    + exact C1.
    + rewrite F2. cbn [create_index frags]. rewrite F1. reflexivity.
    + exact C2.
    + rewrite I2. reflexivity.
  - intros [limit offset] shard_index w. subst w.
    unfold create_blast_db.
    destruct (_ =? 0)%Z; cbn; rewrite <- app_assoc; auto.
Qed.

(** ** The order of the names *)

Lemma code_inj : forall x y, code x = code y -> x = y.
Proof.
  intros x y H. unfold code in H.
  rewrite <- (ascii_N_embedding x), <- (ascii_N_embedding y), H. reflexivity.
Qed.

Lemma lex_leb_refl : forall a, lex_leb a a = true.
Proof.
  induction a as [|x a IH]; simpl; [reflexivity|].
  rewrite N.ltb_irrefl, N.eqb_refl. exact IH.
Qed.

Lemma lex_leb_total : forall a b, lex_leb a b = false -> lex_leb b a = true.
Proof.
  induction a as [|x a IH]; intros [|y b] H; simpl in *; try congruence.
  destruct (N.ltb_spec (code x) (code y)); [discriminate|].
  destruct (N.eqb_spec (code x) (code y)) as [E|E].
  - rewrite E, N.ltb_irrefl, N.eqb_refl. apply IH, H.
  - destruct (N.ltb_spec (code y) (code x)); [reflexivity|lia].
Qed.

Lemma lex_leb_antisym : forall a b,
  lex_leb a b = true -> lex_leb b a = true -> a = b.
Proof.
  induction a as [|x a IH]; intros [|y b] H1 H2; simpl in *; try congruence.
  destruct (N.ltb_spec (code x) (code y)).
  - destruct (N.ltb_spec (code y) (code x)); [lia|].
    destruct (N.eqb_spec (code y) (code x)); [lia|discriminate].
  - destruct (N.eqb_spec (code x) (code y)) as [E|E]; [|discriminate].
    rewrite E, N.ltb_irrefl, N.eqb_refl in H2.
    f_equal; [apply code_inj, E|apply IH; assumption].
Qed.

Lemma lex_leb_trans : forall a b c,
  lex_leb a b = true -> lex_leb b c = true -> lex_leb a c = true.
Proof.
  induction a as [|x a IH]; intros [|y b] [|z c] H1 H2; simpl in *;
    try congruence.
  destruct (N.ltb_spec (code x) (code y)).
  - destruct (N.ltb_spec (code y) (code z)).
    + destruct (N.ltb_spec (code x) (code z)); [reflexivity|lia].
    + destruct (N.eqb_spec (code y) (code z)); [|discriminate].
      destruct (N.ltb_spec (code x) (code z)); [reflexivity|lia].
  - destruct (N.eqb_spec (code x) (code y)) as [E|E]; [|discriminate].
    rewrite E.
    destruct (N.ltb_spec (code y) (code z)); [reflexivity|].
    destruct (N.eqb_spec (code y) (code z)); [|discriminate].
    eapply IH; eassumption.
Qed.

Section OrderByFacts.

Variable A : Type.
Variable key : A -> text.

Let le (x y : A) : Prop := lex_le (key x) (key y).

Lemma insert_by_perm : forall x l, Permutation (insert_by key x l) (x :: l).
Proof.
  induction l as [|y l IH]; simpl; [reflexivity|].
  destruct (lex_leb (key y) (key x)); [|reflexivity].
  rewrite IH. apply perm_swap.
Qed.

Lemma fold_insert_perm : forall l acc,
  Permutation (fold_left (fun a x => insert_by key x a) l acc) (acc ++ l).
Proof.
  induction l as [|x l IH]; intros acc; simpl.
  - rewrite app_nil_r. reflexivity.
  - rewrite IH, insert_by_perm. apply Permutation_middle.
Qed.

Lemma order_by_perm : forall l, Permutation (order_by key l) l.
Proof. intros l. unfold order_by. apply (fold_insert_perm l []). Qed.

Lemma insert_by_sorted : forall x l,
  StronglySorted le l -> StronglySorted le (insert_by key x l).
Proof.
  induction l as [|y l IH]; intros H; simpl.
  - constructor; constructor.
  - inversion H as [|? ? Hl Hy]; subst.
    destruct (lex_leb (key y) (key x)) eqn:E.
    + constructor; [apply IH, Hl|].
      eapply Permutation_Forall; [symmetry; apply insert_by_perm|].
      constructor; [exact E|exact Hy].
    + constructor; [exact H|].
      assert (Hxy : le x y) by (apply lex_leb_total, E).
      constructor; [exact Hxy|].
      eapply Forall_impl; [|exact Hy].
      intros z Hz. unfold le, lex_le in *.
      eapply lex_leb_trans; eassumption.
Qed.

Lemma order_by_sorted : forall l, StronglySorted le (order_by key l).
Proof.
  intros l. unfold order_by.
  assert (G : forall acc, StronglySorted le acc ->
              StronglySorted le (fold_left (fun a x => insert_by key x a) l acc)).
  { induction l as [|x l IH]; intros acc H; simpl; [exact H|].
    apply IH, insert_by_sorted, H. }
  apply G. constructor.
Qed.

End OrderByFacts.

(** ** Double precision *)

Section Binary64Facts.

Local Open Scope Z_scope.

Lemma round_half_even_spec : forall a b,
  0 <= a -> 0 < b ->
  2 * (round_half_even a b * b) <= 2 * a + b
  /\ 2 * a <= 2 * (round_half_even a b * b) + b.
Proof.
  intros a b Ha Hb. unfold round_half_even.
  pose proof (Z.div_mod a b ltac:(lia)) as E.
  pose proof (Z.mod_pos_bound a b Hb) as R.
  set (q := a / b) in *. set (r := a mod b) in *.
  destruct (Z.ltb_spec (2 * r) b); [nia|].
  destruct (Z.ltb_spec b (2 * r)); [nia|].
  destruct (Z.even q); nia.
Qed.

Lemma round_half_even_exact : forall v b,
  0 < b -> round_half_even (v * b) b = v.
Proof.
  intros v b Hb. unfold round_half_even.
  rewrite Z.mod_mul, Z.div_mul by lia.
  destruct (Z.ltb_spec (2 * 0) b); [reflexivity|lia].
Qed.

Lemma pow2_pos : forall k, 0 < 2 ^ Z.max 0 k.
Proof. intros k. apply Z.pow_pos_nonneg; lia. Qed.

(** The exponent of [nearest_pos] brings the quotient up to 2^52. *)
Lemma nearest_pos_scaled : forall a b,
  0 < a -> 0 < b ->
  let k0 := 52 - (Z.log2 a - Z.log2 b) in
  let k := if a * 2 ^ Z.max 0 k0 / (b * 2 ^ Z.max 0 (- k0)) <? 2 ^ 52
           then k0 + 1 else k0 in
  2 ^ 52 * (b * 2 ^ Z.max 0 (- k)) <= a * 2 ^ Z.max 0 k.
Proof.
  intros a b Ha Hb k0 k.
  pose proof (Z.log2_spec a Ha) as [La _].
  pose proof (Z.log2_spec b Hb) as [_ Lb].
  pose proof (Z.log2_nonneg a) as Na. pose proof (Z.log2_nonneg b) as Nb.
  unfold k.
  destruct (Z.ltb_spec (a * 2 ^ Z.max 0 k0 / (b * 2 ^ Z.max 0 (- k0)))
                       (2 ^ 52)) as [H|H].
  - pose proof (pow2_pos (k0 + 1)) as Pu.
    pose proof (pow2_pos (- (k0 + 1))) as Pd.
    assert (E : 2 ^ Z.log2 a * 2 ^ Z.max 0 (k0 + 1)
                = 2 ^ 52 * (2 ^ Z.succ (Z.log2 b) * 2 ^ Z.max 0 (- (k0 + 1)))).
    { rewrite <- !Z.pow_add_r by lia. f_equal. unfold k0. lia. }
    apply Z.le_trans with (2 ^ Z.log2 a * 2 ^ Z.max 0 (k0 + 1)).
    + rewrite E. apply Z.mul_le_mono_nonneg_l; [lia|].
      apply Z.mul_le_mono_nonneg_r; lia.
    + apply Z.mul_le_mono_nonneg_r; lia.
  - pose proof (pow2_pos k0) as Pu. pose proof (pow2_pos (- k0)) as Pd.
    set (a0 := a * 2 ^ Z.max 0 k0) in *.
    set (b0 := b * 2 ^ Z.max 0 (- k0)) in *.
    assert (0 < b0) by (unfold b0; nia).
    pose proof (Z.mul_div_le a0 b0 ltac:(lia)).
    nia.
Qed.

Lemma nearest_pos_error : forall a b,
  0 < a -> 0 < b ->
  0 < snd (nearest_pos a b)
  /\ (2 ^ 53 - 1) * (a * snd (nearest_pos a b))
     <= 2 ^ 53 * (fst (nearest_pos a b) * b)
  /\ 2 ^ 53 * (fst (nearest_pos a b) * b)
     <= (2 ^ 53 + 1) * (a * snd (nearest_pos a b)).
Proof.
  intros a b Ha Hb.
  pose proof (nearest_pos_scaled a b Ha Hb) as S. cbv zeta in S.
  unfold nearest_pos.
  set (k0 := 52 - (Z.log2 a - Z.log2 b)) in *.
  set (k := if a * 2 ^ Z.max 0 k0 / (b * 2 ^ Z.max 0 (- k0)) <? 2 ^ 52
            then k0 + 1 else k0) in *.
  cbn [fst snd].
  pose proof (pow2_pos k) as Pu. pose proof (pow2_pos (- k)) as Pd.
  set (up := 2 ^ Z.max 0 k) in *. set (down := 2 ^ Z.max 0 (- k)) in *.
  pose proof (round_half_even_spec (a * up) (b * down) ltac:(nia) ltac:(nia))
    as [R1 R2].
  set (m := round_half_even (a * up) (b * down)) in *.
  replace (m * down * b) with (m * (b * down)) by ring.
  set (a1 := a * up) in *. set (b1 := b * down) in *.
  change (2 ^ 52) with 4503599627370496 in S.
  change (2 ^ 53) with 9007199254740992.
  split; [exact Pu|]. split; lia.
Qed.

Lemma nearest_positive : forall a b, 0 < a -> nearest a b = nearest_pos a b.
Proof.
  intros a b Ha. unfold nearest.
  destruct (Z.eqb_spec a 0); [lia|].
  destruct (Z.ltb_spec a 0); [lia|reflexivity].
Qed.

Lemma of_int_small : forall z, Z.abs z < 2 ^ 53 -> of_int z = (z, 1).
Proof.
  intros z Hz. unfold of_int.
  destruct (Z.ltb_spec (Z.abs z) (2 ^ 53)); [reflexivity|lia].
Qed.

Lemma sample_zero_index : forall stop div, sample stop div 0 = 0.
Proof. intros stop div. reflexivity. Qed.

Lemma sample_zero_stop : forall div i, 0 < div -> sample 0 div i = 0.
Proof.
  intros div i Hd. unfold sample, fmul, fdiv. cbv zeta.
  change (of_int 0) with (0, 1). cbn [fst snd].
  rewrite Z.mul_0_l. change (nearest 0 (1 * fst (of_int div))) with (0, 1).
  cbn [fst snd]. rewrite Z.mul_0_r. reflexivity.
Qed.

(** The sample as two roundings: the step [n1 / d1], then the product
    [n2 / d2]. *)
Lemma sample_roundings : forall T n i,
  0 < T -> 0 < n -> 0 < i -> T * n <= 2 ^ 51 -> i <= n ->
  exists n1 d1 n2 d2,
    nearest_pos T n = (n1, d1) /\ nearest_pos (i * n1) d1 = (n2, d2)
    /\ 0 < n1 /\ 0 < d1
    /\ sample T n (Z.to_nat i) = n2 / d2.
Proof.
  intros T n i HT Hn Hi Hb Hin.
  change (2 ^ 51) with 2251799813685248 in Hb.
  assert (T < 2 ^ 53 /\ n < 2 ^ 53) as [BT Bn].
  { change (2 ^ 53) with 9007199254740992. nia. }
  destruct (nearest_pos T n) as [n1 d1] eqn:E1.
  destruct (nearest_pos (i * n1) d1) as [n2 d2] eqn:E2.
  pose proof (nearest_pos_error T n HT Hn) as (D1 & L1 & _).
  rewrite E1 in D1, L1. cbn [fst snd] in D1, L1.
  assert (N1 : 0 < n1).
  { change (2 ^ 53) with 9007199254740992 in L1. nia. }
  exists n1, d1, n2, d2. repeat split; try assumption.
  unfold sample. cbv zeta. rewrite Z2Nat.id by lia.
  rewrite !of_int_small by lia.
  unfold fdiv. cbn [fst snd]. rewrite Z.mul_1_r, Z.mul_1_l.
  rewrite nearest_positive by exact HT. rewrite E1.
  unfold fmul. cbn [fst snd]. rewrite Z.mul_1_l.
  rewrite nearest_positive by nia. rewrite E2. reflexivity.
Qed.

Lemma sample_sandwich : forall T n i n1 d1 n2 d2,
  0 < T -> 0 < n -> 0 < i -> 0 < n1 -> 0 < d1 ->
  nearest_pos T n = (n1, d1) -> nearest_pos (i * n1) d1 = (n2, d2) ->
  0 < d2
  /\ (2 ^ 53 - 1) * (2 ^ 53 - 1) * (i * T) * d2 <= 2 ^ 53 * 2 ^ 53 * n * n2
  /\ 2 ^ 53 * 2 ^ 53 * n * n2 <= (2 ^ 53 + 1) * (2 ^ 53 + 1) * (i * T) * d2.
Proof.
  intros T n i n1 d1 n2 d2 HT Hn Hi N1 D1 E1 E2.
  pose proof (nearest_pos_error T n HT Hn) as (_ & L1 & U1).
  rewrite E1 in L1, U1. cbn [fst snd] in L1, U1.
  pose proof (nearest_pos_error (i * n1) d1 ltac:(nia) D1) as (D2 & L2 & U2).
  rewrite E2 in D2, L2, U2. cbn [fst snd] in D2, L2, U2.
  set (U := 2 ^ 53) in *.
  assert (HU : 1 < U) by (unfold U; change (2 ^ 53) with 9007199254740992; lia).
  split; [exact D2|]. split.
  - apply (Z.mul_le_mono_pos_r _ _ d1 D1).
    apply Z.le_trans with ((U - 1) * (i * d2) * (U * (n1 * n))).
    + replace ((U - 1) * (U - 1) * (i * T) * d2 * d1)
        with ((U - 1) * (i * d2) * ((U - 1) * (T * d1))) by ring.
      apply Z.mul_le_mono_nonneg_l; [nia|exact L1].
    + replace ((U - 1) * (i * d2) * (U * (n1 * n)))
        with (U * n * ((U - 1) * (i * n1 * d2))) by ring.
      replace (U * U * n * n2 * d1) with (U * n * (U * (n2 * d1))) by ring.
      apply Z.mul_le_mono_nonneg_l; [nia|exact L2].
  - apply (Z.mul_le_mono_pos_r _ _ d1 D1).
    apply Z.le_trans with ((U + 1) * (i * d2) * (U * (n1 * n))).
    + replace (U * U * n * n2 * d1) with (U * n * (U * (n2 * d1))) by ring.
      replace ((U + 1) * (i * d2) * (U * (n1 * n)))
        with (U * n * ((U + 1) * (i * n1 * d2))) by ring.
      apply Z.mul_le_mono_nonneg_l; [nia|exact U2].
    + replace ((U + 1) * (U + 1) * (i * T) * d2 * d1)
        with ((U + 1) * (i * d2) * ((U + 1) * (T * d1))) by ring.
      apply Z.mul_le_mono_nonneg_l; [nia|exact U1].
Qed.

(** A sample is the exact quotient or one below it, and one below only
    where the quotient is an integer. *)
Lemma sample_near : forall T n i,
  0 < T -> 0 < n -> 0 < i -> T * n <= 2 ^ 51 -> i <= n ->
  let o := sample T n (Z.to_nat i) in
  let E := i * T / n in
  E - 1 <= o <= E /\ (o = E - 1 -> (i * T) mod n = 0).
Proof.
  intros T n i HT Hn Hi Hb Hin o E.
  destruct (sample_roundings T n i HT Hn Hi Hb Hin)
    as (n1 & d1 & n2 & d2 & E1 & E2 & N1 & D1 & Eo).
  destruct (sample_sandwich T n i n1 d1 n2 d2 HT Hn Hi N1 D1 E1 E2)
    as (D2 & Lo & Up).
  unfold o. rewrite Eo. clear o Eo.
  change (2 ^ 51) with 2251799813685248 in Hb.
  change (2 ^ 53) with 9007199254740992 in Lo, Up.
  pose proof (Z.div_mod (i * T) n ltac:(lia)) as Dm.
  pose proof (Z.mod_pos_bound (i * T) n Hn) as Rm.
  fold E in Dm. set (r := (i * T) mod n) in *.
  assert (HE : 0 <= E) by (apply Z.div_pos; nia).
  assert (HiT : i * T <= 2251799813685248) by nia.
  assert (Hn' : n <= 2251799813685248) by nia.
  set (Y := n * E) in *.
  assert (HY : 0 <= Y) by (unfold Y; nia).
  assert (Upper : n2 / d2 <= E).
  { apply Z.lt_succ_r. apply Z.div_lt_upper_bound; [exact D2|].
    destruct (Z.lt_ge_cases n2 (d2 * Z.succ E)) as [H|H]; [exact H|exfalso].
    assert (A : 9007199254740992 * 9007199254740992 * (Y + n)
                <= (9007199254740992 + 1) * (9007199254740992 + 1) * (i * T)).
    { apply (Z.mul_le_mono_pos_r _ _ d2 D2).
      eapply Z.le_trans; [|exact Up].
      replace (9007199254740992 * 9007199254740992 * (Y + n) * d2)
        with (9007199254740992 * 9007199254740992 * n * (d2 * Z.succ E))
        by (unfold Y; ring).
      apply Z.mul_le_mono_nonneg_l; [nia|exact H]. }
    lia. }
  assert (Lower : forall c, 0 <= c -> n2 / d2 < c ->
            (9007199254740992 - 1) * (9007199254740992 - 1) * (i * T)
            <= 9007199254740992 * 9007199254740992 * (n * c)).
  { intros c Hc H.
    assert (H' : n2 <= d2 * c).
    { destruct (Z.le_gt_cases n2 (d2 * c)) as [G|G]; [exact G|exfalso].
      pose proof (Z.div_le_lower_bound n2 d2 c D2 ltac:(lia)). lia. }
    apply (Z.mul_le_mono_pos_r _ _ d2 D2).
    eapply Z.le_trans; [exact Lo|].
    replace (9007199254740992 * 9007199254740992 * (n * c) * d2)
      with (9007199254740992 * 9007199254740992 * n * (d2 * c)) by ring.
    apply Z.mul_le_mono_nonneg_l; [nia|exact H']. }
  assert (Pos : 0 <= n2 / d2).
  { apply Z.div_pos; [|exact D2].
    destruct (Z.le_gt_cases 0 n2) as [G|G]; [exact G|exfalso]. nia. }
  split; [split; [|exact Upper]|].
  - destruct (Z.le_gt_cases (E - 1) (n2 / d2)) as [G|G]; [exact G|exfalso].
    pose proof (Lower (E - 1) ltac:(lia) G) as A.
    replace (n * (E - 1)) with (Y - n) in A by (unfold Y; ring). lia.
  - intros Eq.
    destruct (Z.eq_dec r 0) as [R0|R0]; [exact R0|exfalso].
    pose proof (Lower E HE ltac:(lia)) as A. fold Y in A. lia.
Qed.

(** A quotient that is an integer below 2^53 is not rounded. *)
Lemma nearest_pos_exact : forall v b,
  0 < v < 2 ^ 53 -> 0 < b ->
  0 < snd (nearest_pos (v * b) b)
  /\ fst (nearest_pos (v * b) b) = v * snd (nearest_pos (v * b) b).
Proof.
  intros v b Hv Hb.
  assert (Ha : 0 < v * b) by nia.
  pose proof (Z.log2_spec (v * b) Ha) as [La _].
  pose proof (Z.log2_spec b Hb) as [_ Lb].
  pose proof (Z.log2_nonneg (v * b)) as Na. pose proof (Z.log2_nonneg b) as Nb.
  unfold nearest_pos.
  set (k0 := 52 - (Z.log2 (v * b) - Z.log2 b)).
  set (k := if v * b * 2 ^ Z.max 0 k0 / (b * 2 ^ Z.max 0 (- k0)) <? 2 ^ 52
            then k0 + 1 else k0).
  assert (Hk : 0 <= k).
  { destruct (Z.le_gt_cases 0 k0) as [G|G].
    - unfold k. destruct (_ <? _); lia.
    - assert (L : Z.log2 (v * b) < Z.log2 b + 54).
      { apply (Z.pow_lt_mono_r_iff 2); [lia|lia|].
        eapply Z.le_lt_trans; [exact La|].
        replace (Z.log2 b + 54) with (53 + Z.succ (Z.log2 b)) by lia.
        rewrite Z.pow_add_r by lia.
        assert (0 < 2 ^ Z.succ (Z.log2 b)) by (apply Z.pow_pos_nonneg; lia).
        nia. }
      assert (K0 : k0 = -1) by (unfold k0 in *; lia).
      unfold k. rewrite K0.
      change (Z.max 0 (-1)) with 0. change (Z.max 0 (- -1)) with 1.
      change (2 ^ 0) with 1. change (2 ^ 1) with 2.
      rewrite Z.mul_1_r.
      replace (v * b / (b * 2)) with (v / 2)
        by (rewrite (Z.mul_comm v b), Z.div_mul_cancel_l; lia).
      assert (v / 2 < 2 ^ 52).
      { apply Z.div_lt_upper_bound; [lia|].
        change (2 * 2 ^ 52) with (2 ^ 53). lia. }
      destruct (Z.ltb_spec (v / 2) (2 ^ 52)); lia. }
  rewrite (Z.max_l 0 (- k)) by lia. rewrite (Z.max_r 0 k) by lia.
  change (2 ^ 0) with 1. cbn [fst snd].
  assert (P : 0 < 2 ^ k) by (apply Z.pow_pos_nonneg; lia).
  split; [exact P|].
  rewrite !Z.mul_1_r.
  replace (v * b * 2 ^ k) with (v * 2 ^ k * b) by ring.
  rewrite round_half_even_exact by exact Hb. reflexivity.
Qed.

(** Where the rounding shows: 30 records in 22 shards. The step 30 / 22
    is rounded down, its product by 11 is just below 15, and the offset
    is 14. *)
Lemma sample_below_quotient :
  sample 30 22 11 = 14 /\ 11 * 30 / 22 = 15
  /\ linspace 30 23
     = Ok [0; 1; 2; 4; 5; 6; 8; 9; 10; 12; 13; 14; 16; 17; 19; 20; 21; 23;
           24; 25; 27; 28; 30].
Proof. repeat split; vm_compute; reflexivity. Qed.

(** A step that is an integer gives the exact multiples. *)
Lemma sample_exact : forall v n i,
  0 < v -> 0 < n -> 0 < i -> v * n * n <= 2 ^ 51 -> i <= n ->
  sample (v * n) n (Z.to_nat i) = i * v.
Proof.
  intros v n i Hv Hn Hi Hb Hin.
  change (2 ^ 51) with 2251799813685248 in Hb.
  assert (B : v * n < 2 ^ 53 /\ n < 2 ^ 53 /\ i * v < 2 ^ 53 /\ v < 2 ^ 53).
  { change (2 ^ 53) with 9007199254740992. nia. }
  destruct B as (B1 & B2 & B3 & B4).
  unfold sample. cbv zeta. rewrite Z2Nat.id by lia.
  rewrite !of_int_small by nia.
  unfold fdiv. cbn [fst snd]. rewrite Z.mul_1_r, Z.mul_1_l.
  rewrite nearest_positive by nia.
  pose proof (nearest_pos_exact v n ltac:(lia) Hn) as [D1 X1].
  destruct (nearest_pos (v * n) n) as [n1 d1]. cbn [fst snd] in D1, X1.
  unfold fmul. cbn [fst snd]. rewrite Z.mul_1_l.
  rewrite nearest_positive by nia. subst n1.
  replace (i * (v * d1)) with (i * v * d1) by ring.
  pose proof (nearest_pos_exact (i * v) d1 ltac:(nia) D1) as [D2 X2].
  destruct (nearest_pos (i * v * d1) d1) as [n2 d2]. cbn [fst snd] in D2, X2.
  unfold ffloor. cbn [fst snd]. subst n2. apply Z.div_mul. lia.
Qed.

Lemma near_sample : forall T n i,
  0 <= T -> 0 < n -> T * n <= 2 ^ 51 -> 0 <= i <= n ->
  near T n i (sample T n (Z.to_nat i)).
Proof.
  intros T n i HT Hn Hb Hi. unfold near.
  destruct (Z.eq_dec T 0) as [->|T0].
  { left. rewrite sample_zero_stop by exact Hn.
    rewrite Z.mul_0_r. reflexivity. }
  destruct (Z.eq_dec i 0) as [->|I0].
  { left. reflexivity. }
  destruct (Z.eq_dec (T mod n) 0) as [M|M].
  - left. pose proof (Z.div_mod T n ltac:(lia)) as D. rewrite M in D.
    set (v := T / n) in *.
    assert (Hv : 0 < v) by nia.
    replace T with (v * n) by lia.
    rewrite sample_exact by lia.
    replace (i * (v * n)) with (i * v * n) by ring.
    rewrite Z.div_mul by lia. reflexivity.
  - pose proof (sample_near T n i ltac:(lia) Hn ltac:(lia) Hb ltac:(lia))
      as [B Eq]. cbv zeta in B, Eq.
    destruct (Z.eq_dec (sample T n (Z.to_nat i)) (i * T / n)) as [E|E];
      [left; exact E|right].
    assert (E' : sample T n (Z.to_nat i) = i * T / n - 1) by lia.
    split; [exact E'|]. split; [exact (Eq E')|exact M].
Qed.

Lemma near_step : forall T n i o o',
  0 <= T -> 0 < n -> 0 <= i ->
  near T n i o -> near T n (i + 1) o' ->
  T / n <= o' - o <= T / n + 1.
Proof.
  intros T n i o o' HT Hn Hi No No'. unfold near in *.
  pose proof (Z.div_mod T n ltac:(lia)) as D.
  pose proof (Z.mod_pos_bound T n Hn) as B.
  pose proof (Z.div_mod (i * T) n ltac:(lia)) as Di.
  pose proof (Z.mod_pos_bound (i * T) n Hn) as Bi.
  pose proof (Z.div_mod ((i + 1) * T) n ltac:(lia)) as Dj.
  pose proof (Z.mod_pos_bound ((i + 1) * T) n Hn) as Bj.
  set (q := T / n) in *. set (t := T mod n) in *.
  set (E := i * T / n) in *. set (r := (i * T) mod n) in *.
  set (E' := (i + 1) * T / n) in *. set (r' := ((i + 1) * T) mod n) in *.
  assert (K : n * (E' - E - q) = r + t - r') by lia.
  assert (C : E' - E - q = 0 \/ E' - E - q = 1) by nia.
  destruct No as [-> | (-> & R & Tn)]; destruct No' as [-> | (-> & R' & Tn')];
    nia.
Qed.

Lemma near_last : forall T n o,
  0 <= T -> 0 < n -> near T n (n - 1) o -> o = (n - 1) * T / n.
Proof.
  intros T n o HT Hn [E | (_ & R & M)]; [exact E|exfalso].
  apply M.
  pose proof (Z.div_mod ((n - 1) * T) n ltac:(lia)) as D. rewrite R in D.
  replace T with (n * (T - (n - 1) * T / n)) by lia.
  rewrite Z.mul_comm. apply Z.mod_mul. lia.
Qed.

Lemma near_range : forall T n i o,
  0 <= T -> 0 < n -> 0 < i -> near T n i o -> 0 <= o <= i * T / n.
Proof.
  intros T n i o HT Hn Hi No.
  assert (0 <= i * T / n) by (apply Z.div_pos; nia).
  destruct No as [-> | (-> & R & M)]; [lia|].
  split; [|lia].
  pose proof (Z.div_mod (i * T) n ltac:(lia)) as D. rewrite R in D.
  assert (T <> 0) by (intros ->; apply M; apply Z.mod_0_l; lia).
  nia.
Qed.

End Binary64Facts.

(** ** The partitioner *)

Lemma sorted_names_length : forall db,
  length (sorted_names db) = length (frags db).
Proof.
  intros db. unfold sorted_names.
  rewrite (Permutation_length (order_by_perm _ _ _)). apply length_map.
Qed.

Lemma firstn_two_skipn : forall (A : Type) (d : A) n (l : list A),
  S n < length l ->
  firstn 2 (skipn n l) = [nth n l d; nth (S n) l d].
Proof.
  induction n as [|n IH]; intros l H.
  - destruct l as [|x [|y l]]; simpl in *; try lia. reflexivity.
  - destruct l as [|x l]; simpl in *; [lia|].
    apply IH. lia.
Qed.

Lemma select_frag_two : forall db offset,
  (0 <= offset)%Z ->
  (offset + 1 < Z.of_nat (length (sorted_names db)))%Z ->
  select_frag db offset = [name_at db offset; name_at db (offset + 1)].
Proof.
  intros db offset H0 H1. unfold select_frag, limit_offset, name_at.
  fold (sorted_names db). simpl Z.ltb. cbv iota.
  replace (Z.to_nat 2) with 2 by reflexivity.
  replace (Z.to_nat (offset + 1)) with (S (Z.to_nat offset)) by lia.
  apply firstn_two_skipn. lia.
Qed.

Lemma set_nth_middle : forall pre m v post,
  set_nth (length pre) v (pre ++ m :: post) = pre ++ v :: post.
Proof.
  induction pre as [|x pre IH]; intros m v post; simpl.
  - reflexivity.
  - rewrite IH. reflexivity.
Qed.

Lemma nth_middle_Z : forall (pre : list Z) m post,
  nth (length pre) (pre ++ m :: post) 0%Z = m.
Proof.
  induction pre as [|x pre IH]; intros m post; simpl; [reflexivity|apply IH].
Qed.

Lemma adjust_middle : forall db pre m post c,
  readable db m ->
  adjust db {| offsets := pre ++ m :: post; connection := c |} (length pre)
  = Ok {| offsets := pre ++ bump db m :: post; connection := Some [] |}.
Proof.
  intros db pre m post c [H0 H1]. unfold adjust. cbn [offsets].
  rewrite nth_middle_Z, (select_frag_two db m H0 H1). cbn.
  unfold bump. destruct (text_eqb (name_at db m) (name_at db (m + 1))); cbn.
  - reflexivity.
  - rewrite set_nth_middle. reflexivity.
Qed.

Lemma adjust_loop_middle : forall mid db pre post c,
  Forall (readable db) mid ->
  snd (adjust_loop db (List.seq (length pre) (length mid))
         {| offsets := pre ++ mid ++ post; connection := c |})
  = Ok {| offsets := pre ++ map (bump db) mid ++ post;
          connection := if nonempty mid then Some [] else c |}.
Proof.
  induction mid as [|m mid IH]; intros db pre post c H.
  - reflexivity.
  - inversion H as [|? ? Hm Hmid]; subst.
    cbn [length List.seq adjust_loop app].
    rewrite (adjust_middle db pre m (mid ++ post) c Hm).
    replace (pre ++ bump db m :: mid ++ post)
      with ((pre ++ [bump db m]) ++ mid ++ post)
      by (rewrite <- app_assoc; reflexivity).
    replace (S (length pre)) with (length (pre ++ [bump db m]))
      by (rewrite length_app; simpl; lia).
    match goal with
    | |- context [adjust_loop ?d _ _] => set (db1 := d)
    end.
    rewrite (IH db1 (pre ++ [bump db m]) post (Some []) Hmid).
    cbn [map nonempty]. rewrite <- app_assoc.
    destruct (nonempty mid); reflexivity.
Qed.

Lemma linspace_shape : forall total n,
  (2 <= n)%Z -> (Z.abs total < 2 ^ 53)%Z ->
  linspace total (n + 1) = Ok (0%Z :: interior total n ++ [total]).
Proof.
  intros total n Hn Ht. unfold linspace, interior.
  destruct (Z.ltb_spec (n + 1) 0); [lia|].
  destruct (Z.eqb_spec (n + 1) 0); [lia|].
  destruct (Z.eqb_spec (n + 1) 1); [lia|].
  replace (n + 1 - 1)%Z with n by lia.
  replace (Z.to_nat (n + 1) - 1) with (S (Z.to_nat n - 1)) by lia.
  cbn [List.seq map app]. rewrite sample_zero_index.
  rewrite of_int_small by exact Ht. unfold ffloor. cbn [fst snd].
  rewrite Z.div_1_r. reflexivity.
Qed.

Lemma in_range_small : forall total n,
  (0 <= total)%Z -> (1 <= n)%Z -> in_range total n ->
  (Z.abs total < 2 ^ 53)%Z.
Proof.
  intros total n Ht Hn H. unfold in_range in H.
  change (2 ^ 51)%Z with 2251799813685248%Z in H.
  change (2 ^ 53)%Z with 9007199254740992%Z. nia.
Qed.

Lemma interior_length : forall total n,
  length (interior total n) = Z.to_nat n - 1.
Proof.
  intros total n. unfold interior. rewrite length_map, length_seq. reflexivity.
Qed.

(** Each sample of [linspace] is [near] its exact quotient. *)
Lemma sample_is_near : forall total n i,
  (0 <= total)%Z -> (1 <= n)%Z -> in_range total n -> i <= Z.to_nat n ->
  near total n (Z.of_nat i) (sample total n i).
Proof.
  intros total n i Ht Hn Hb Hi.
  pose proof (near_sample total n (Z.of_nat i) Ht ltac:(lia) Hb ltac:(lia))
    as N.
  rewrite Nat2Z.id in N. exact N.
Qed.

Lemma near_end : forall total n, (0 < n)%Z -> near total n n total.
Proof.
  intros total n Hn. left. rewrite Z.mul_comm, Z.div_mul by lia. reflexivity.
Qed.

Lemma interior_step : forall total n i,
  (0 <= total)%Z -> (1 <= n)%Z -> in_range total n -> S i <= Z.to_nat n ->
  (total / n <= sample total n (S i) - sample total n i <= total / n + 1)%Z.
Proof.
  intros total n i Ht Hn Hb Hi.
  apply (near_step total n (Z.of_nat i)); try lia.
  - apply sample_is_near; try assumption. lia.
  - replace (Z.of_nat i + 1)%Z with (Z.of_nat (S i)) by lia.
    apply sample_is_near; assumption.
Qed.

Lemma interior_spaced_from : forall total n k i,
  (2 <= n < total)%Z -> in_range total n -> S i + k = Z.to_nat n ->
  spaced (sample total n i + 1) (total - 1)
    (map (sample total n) (List.seq (S i) k)).
Proof.
  intros total n k. induction k as [|k IH]; intros i H Hb Hi;
    cbn [List.seq map spaced].
  - pose proof (sample_is_near total n i ltac:(lia) ltac:(lia) Hb ltac:(lia))
      as N.
    replace (Z.of_nat i) with (n - 1)%Z in N by lia.
    rewrite (near_last total n _ ltac:(lia) ltac:(lia) N).
    assert ((n - 1) * total / n < total - 1)%Z.
    { apply Z.div_lt_upper_bound; nia. }
    lia.
  - split.
    + pose proof (interior_step total n i ltac:(lia) ltac:(lia) Hb ltac:(lia)).
      assert (1 <= total / n)%Z.
      { apply Z.div_le_lower_bound; lia. }
      lia.
    + apply IH; [exact H|exact Hb|lia].
Qed.

Lemma interior_spaced : forall total n,
  (2 <= n < total)%Z -> in_range total n ->
  spaced 1 (total - 1) (interior total n).
Proof.
  intros total n H Hb. unfold interior.
  apply (interior_spaced_from total n (Z.to_nat n - 1) 0 H Hb). lia.
Qed.

Lemma spaced_bounds : forall mid lo hi,
  spaced lo hi mid -> Forall (fun m => (lo <= m /\ m + 1 <= hi)%Z) mid.
Proof.
  induction mid as [|m mid IH]; intros lo hi H; cbn [spaced] in H.
  - constructor.
  - destruct H as [H1 H2]. pose proof (IH _ _ H2) as F.
    constructor.
    + split; [exact H1|].
      destruct mid as [|m' mid]; cbn [spaced] in H2; [lia|].
      inversion F as [|? ? [? ?] _]; subst. lia.
    + eapply Forall_impl; [|exact F]. simpl. intros; lia.
Qed.

Lemma bump_range : forall db m, (m <= bump db m <= m + 1)%Z.
Proof.
  intros db m. unfold bump. destruct (text_eqb _ _); lia.
Qed.

Lemma shards_of_cons : forall a b rest,
  shards_of (a :: b :: rest) = ((b - a)%Z, a) :: shards_of (b :: rest).
Proof. reflexivity. Qed.

Lemma covers_spaced : forall db mid a lo hi total,
  (a <= lo)%Z -> (hi <= total)%Z -> spaced lo hi mid ->
  covers a total (shards_of (a :: map (bump db) mid ++ [total])).
Proof.
  intros db mid. induction mid as [|m mid IH];
    intros a lo hi total Ha Hhi H; cbn [spaced] in H; cbn [map app].
  - rewrite shards_of_cons. cbn. repeat split; lia.
  - destruct H as [H1 H2]. rewrite shards_of_cons. cbn [covers].
    pose proof (bump_range db m).
    repeat split; try lia.
    replace (a + (bump db m - a))%Z with (bump db m) by lia.
    apply (IH (bump db m) (m + 1)%Z hi total); [lia|exact Hhi|exact H2].
Qed.

(** With at least two shards and more records than shards the
    partitioner returns, and its shards are those of the offsets of
    [linspace] with each interior one put through [bump]. *)
Lemma assign_returns : forall db cfg,
  let total := Z.of_nat (length (frags db)) in
  (2 <= shards cfg < total)%Z -> in_range total (shards cfg) ->
  snd (assign_seqs_to_shards db cfg)
  = Ok (shards_of (0%Z :: map (bump db) (interior total (shards cfg))
                       ++ [total])).
Proof.
  intros db cfg total H Hb. unfold assign_seqs_to_shards. fold total.
  rewrite (linspace_shape total (shards cfg) ltac:(lia)
             (in_range_small total (shards cfg) ltac:(lia) ltac:(lia) Hb)).
  set (mid := interior total (shards cfg)).
  assert (Hlen : length (0%Z :: mid ++ [total]) - 2 = length mid).
  { cbn [length]. rewrite length_app. simpl. lia. }
  rewrite Hlen.
  assert (Hr : Forall (readable (logged db SELECT_COUNT)) mid).
  { eapply Forall_impl; [|apply (spaced_bounds mid 1 (total - 1))].
    - intros m [Hm1 Hm2]. split; [lia|].
      rewrite sorted_names_length. cbn [logged frags]. fold total. lia.
    - apply interior_spaced; [exact H|exact Hb]. }
  pose proof (adjust_loop_middle mid (logged db SELECT_COUNT) [0%Z] [total]
                None Hr) as L.
  cbn [length app] in L.
  destruct (adjust_loop (logged db SELECT_COUNT) (List.seq 1 (length mid))
              {| offsets := 0%Z :: mid ++ [total]; connection := None |})
    as [db2 [st|e]]; cbn [snd] in L; [|discriminate].
  injection L as ->. cbn [connection offsets].
  assert (Hne : nonempty mid = true).
  { assert (G : forall l : list Z, length l <> 0 -> nonempty l = true)
      by (intros [|? ?] ?; simpl in *; congruence).
    apply G. unfold mid. rewrite interior_length. lia. }
  rewrite Hne. reflexivity.
Qed.

(** The shards the partitioner returns then cover the ranks from 0 to the
    record count, one after the other. *)
Lemma assign_covers : forall db cfg,
  let total := Z.of_nat (length (frags db)) in
  (2 <= shards cfg < total)%Z -> in_range total (shards cfg) ->
  exists shard_list,
    snd (assign_seqs_to_shards db cfg) = Ok shard_list
    /\ covers 0 total shard_list
    /\ Z.of_nat (length shard_list) = shards cfg.
Proof.
  intros db cfg total H Hb. eexists.
  split; [apply (assign_returns db cfg H Hb)|]. split.
  - apply (covers_spaced db _ 0%Z 1%Z (total - 1)%Z total); try lia.
    apply interior_spaced; assumption.
  - unfold shards_of, shard. rewrite length_combine.
    assert (L : forall l : list Z, length (limits l) = length l - 1).
    { induction l as [|a [|b l] IH]; try reflexivity.
      change (limits (a :: b :: l)) with ((b - a)%Z :: limits (b :: l)).
      cbn [length] in *. rewrite IH. lia. }
    rewrite L, (app_comm_cons _ _ 0%Z), removelast_last.
    rewrite ?length_app. cbn [length].
    rewrite ?length_map, ?interior_length. lia.
Qed.

Lemma StronglySorted_nth : forall (l : list text) i j,
  StronglySorted lex_le l -> i <= j -> j < length l ->
  lex_le (nth i l []) (nth j l []).
Proof.
  induction l as [|x l IH]; intros i j H Hij Hj; simpl in Hj; [lia|].
  inversion H as [|? ? Hl Hx]; subst.
  destruct i as [|i], j as [|j]; simpl; try lia.
  - apply lex_leb_refl.
  - rewrite Forall_forall in Hx. apply Hx, nth_In. lia.
  - apply IH; [exact Hl|lia|lia].
Qed.

Lemma sorted_names_sorted : forall db, StronglySorted lex_le (sorted_names db).
Proof.
  intros db. unfold sorted_names.
  apply (order_by_sorted text (fun n => n)).
Qed.

(** Two ranks with one name: every rank between them has that name. *)
Lemma name_at_between : forall db r1 c r2,
  (0 <= r1 <= c)%Z -> (c <= r2)%Z ->
  (r2 < Z.of_nat (length (frags db)))%Z ->
  name_at db r1 = name_at db r2 -> name_at db c = name_at db r1.
Proof.
  intros db r1 c r2 H1 H2 H3 E. unfold name_at in *.
  pose proof (sorted_names_sorted db) as S.
  rewrite <- sorted_names_length in H3.
  apply lex_leb_antisym.
  - rewrite E. apply StronglySorted_nth; [exact S|lia|lia].
  - apply StronglySorted_nth; [exact S|lia|lia].
Qed.

Lemma three_in_a_row : forall (x : text) n (l : list text),
  S (S n) < length l ->
  nth n l [] = x -> nth (S n) l [] = x -> nth (S (S n)) l [] = x ->
  3 <= count_occ (list_eq_dec ascii_dec) l x.
Proof.
  intros x. induction n as [|n IH]; intros l H H0 H1 H2.
  - destruct l as [|a [|b [|c l]]]; simpl in H; try lia.
    simpl in H0, H1, H2. subst. simpl.
    repeat (destruct (list_eq_dec ascii_dec _ _); [|congruence]). lia.
  - destruct l as [|a l]; simpl in H; [lia|].
    simpl in H0, H1, H2.
    specialize (IH l ltac:(lia) H0 H1 H2).
    simpl. destruct (list_eq_dec ascii_dec a x); lia.
Qed.

Lemma sorted_names_count : forall db x,
  count_occ (list_eq_dec ascii_dec) (sorted_names db) x
  = count_occ (list_eq_dec ascii_dec) (map row_frag (frags db)) x.
Proof.
  intros db x. apply Permutation_count_occ. unfold sorted_names.
  apply order_by_perm.
Qed.

(** Where no name has more than two rows, the offset that the loop
    leaves never falls between two rows of one name. *)
Lemma bump_cut : forall db m,
  (forall x, count_occ (list_eq_dec ascii_dec)
               (map row_frag (frags db)) x <= 2) ->
  (1 <= m)%Z -> readable db m ->
  name_at db (bump db m - 1) <> name_at db (bump db m).
Proof.
  intros db m Hc Hm [_ Hr]. unfold bump.
  destruct (text_eqb (name_at db m) (name_at db (m + 1))) eqn:E.
  - apply text_eqb_eq in E. intros E'.
    pose proof (Hc (name_at db m)) as C.
    rewrite <- sorted_names_count in C.
    assert (3 <= count_occ (list_eq_dec ascii_dec) (sorted_names db)
                   (name_at db m)).
    { apply (three_in_a_row (name_at db m) (Z.to_nat (m - 1))).
      - rewrite sorted_names_length in Hr |- *. lia.
      - exact E'.
      - unfold name_at. f_equal. lia.
      - rewrite E. unfold name_at. f_equal. lia. }
    lia.
  - replace (m + 1 - 1)%Z with m by lia. intros E'.
    rewrite E' in E.
    assert (text_eqb (name_at db (m + 1)) (name_at db (m + 1)) = true)
      by (apply text_eqb_eq; reflexivity).
    congruence.
Qed.

Lemma shards_of_ends : forall (o : list Z) (s : shard),
  In s (shards_of o) -> In (snd s) o /\ In (snd s + fst s)%Z o.
Proof.
  induction o as [|a [|b o] IH]; intros s H; try contradiction.
  rewrite shards_of_cons in H. destruct H as [<- | H].
  - cbn [fst snd]. split; [left; reflexivity|].
    right; left. lia.
  - destruct (IH s H) as [H1 H2]. split; right; assumption.
Qed.

(** C2 at one shard: the loop body never runs, [connection] is never
    assigned, and [connection.close()] raises whatever the store holds. *)
Theorem one_shard_raises :
  forall (db : database) (files : list text) (cpu_count : Z),
    snd (assign_seqs_to_shards db
           {| sra_files := files; shards := 1; cpu := cpu_count |})
    = Raise UnboundLocalError.
Proof.
  intros db files cpu_count. reflexivity.
Qed.

(** As many shards as records: the last interior offset is the last rank,
    the second [fetchone] returns [None], and subscripting it raises. *)
Lemma shards_equal_records_raises :
  snd (assign_seqs_to_shards (db_of_names ["a"; "b"; "c"]%string)
         {| sra_files := []; shards := 3; cpu := 1 |})
  = Raise TypeError.
Proof. reflexivity. Qed.

Lemma covers_bounds : forall l lo hi s r,
  covers lo hi l -> In s l -> in_shard r s -> (lo <= r < hi)%Z.
Proof.
  induction l as [|[limit offset] l IH]; intros lo hi s r C Hs Hr;
    [contradiction|].
  cbn [covers] in C. destruct C as (-> & Hl & C).
  assert (B : forall l lo hi, covers lo hi l -> (lo <= hi)%Z).
  { clear. induction l as [|[limit offset] l IH]; intros lo hi C;
      cbn [covers] in C; [lia|].
    destruct C as (_ & Hl & C). apply IH in C. lia. }
  pose proof (B _ _ _ C).
  destruct Hs as [<- | Hs].
  - unfold in_shard in Hr. cbn [fst snd] in Hr. lia.
  - pose proof (IH _ _ _ _ C Hs Hr). lia.
Qed.

Lemma covers_in : forall l lo hi r,
  covers lo hi l -> (lo <= r < hi)%Z ->
  exists s, In s l /\ in_shard r s.
Proof.
  induction l as [|[limit offset] l IH]; intros lo hi r C Hr;
    cbn [covers] in C; [lia|].
  destruct C as (-> & Hl & C).
  destruct (Z.lt_ge_cases r (lo + limit)) as [Hlt | Hge].
  - exists (limit, lo). split; [left; reflexivity|].
    unfold in_shard. cbn [fst snd]. lia.
  - destruct (IH _ _ r C ltac:(lia)) as (s & Hs & Hin).
    exists s. split; [right; exact Hs|exact Hin].
Qed.

Lemma covers_unique : forall l lo hi s s' r,
  covers lo hi l -> In s l -> In s' l ->
  in_shard r s -> in_shard r s' -> s = s'.
Proof.
  induction l as [|[limit offset] l IH]; intros lo hi s s' r C Hs Hs' Hr Hr';
    [contradiction|].
  cbn [covers] in C. destruct C as (-> & Hl & C).
  destruct Hs as [<- | Hs], Hs' as [<- | Hs'].
  - reflexivity.
  - pose proof (covers_bounds _ _ _ _ _ C Hs' Hr').
    unfold in_shard in Hr. cbn [fst snd] in Hr. lia.
  - pose proof (covers_bounds _ _ _ _ _ C Hs Hr).
    unfold in_shard in Hr'. cbn [fst snd] in Hr'. lia.
  - eapply IH; eassumption.
Qed.

(** No offset that the loop leaves lies between two ranks of one name. *)
Lemma no_cut_between : forall db cfg r1 r2 c,
  let total := Z.of_nat (length (frags db)) in
  (2 <= shards cfg < total)%Z -> in_range total (shards cfg) ->
  (forall x, count_occ (list_eq_dec ascii_dec)
               (map row_frag (frags db)) x <= 2) ->
  (0 <= r1 <= r2)%Z -> (r2 < total)%Z ->
  name_at db r1 = name_at db r2 ->
  In c (0%Z :: map (bump db) (interior total (shards cfg)) ++ [total]) ->
  ~ (r1 < c <= r2)%Z.
Proof.
  intros db cfg r1 r2 c total H Hrange Hc H1 H2 E Hin Hb.
  destruct Hin as [<- | Hin]; [lia|].
  apply in_app_or in Hin. destruct Hin as [Hin | [<- | []]]; [|lia].
  apply in_map_iff in Hin. destruct Hin as (m & <- & Hm).
  pose proof (spaced_bounds _ _ _
                (interior_spaced total (shards cfg) H Hrange)) as B.
  rewrite Forall_forall in B. destruct (B m Hm) as [B1 B2].
  assert (R : readable db m).
  { split; [lia|]. rewrite sorted_names_length. fold total. lia. }
  apply (bump_cut db m Hc B1 R).
  rewrite (name_at_between db r1 (bump db m - 1) r2) by (try exact E; lia).
  rewrite (name_at_between db r1 (bump db m) r2) by (try exact E; lia).
  reflexivity.
Qed.

Lemma interior_nth : forall total n i,
  (1 <= Z.of_nat i < n)%Z ->
  nth (i - 1) (interior total n) 0%Z = sample total n i.
Proof.
  intros total n i Hi. unfold interior.
  rewrite (nth_indep _ 0%Z (sample total n 0))
    by (rewrite length_map, length_seq; lia).
  rewrite (map_nth (sample total n)), seq_nth by lia.
  f_equal. lia.
Qed.

(** C1, as the loop of [format_sra.py] has it. With at least two shards,
    more records than shards and the product of the two counts up to
    2^51, the interior offsets that [np.linspace] computes in double
    precision are the quotients [i * total / shards] cut down, or one
    below where that quotient is an integer; the partitioner reads the
    name at each interior offset and the next name and moves the offset
    one up when they differ (it stays when they are equal). Where no
    name has more than two rows, two ranks of one name are then in the
    same shards: in exactly one, and the same one. *)
Theorem mates_share_a_shard :
  forall (db : database) (cfg : config),
    let total := Z.of_nat (length (frags db)) in
    (2 <= shards cfg < total)%Z ->
    in_range total (shards cfg) ->
    (forall x, count_occ (list_eq_dec ascii_dec)
                 (map row_frag (frags db)) x <= 2) ->
    exists shard_list,
      snd (assign_seqs_to_shards db cfg) = Ok shard_list
      /\ shard_list
         = shards_of (0%Z :: map (bump db) (interior total (shards cfg))
                          ++ [total])
      /\ (forall i, (1 <= Z.of_nat i < shards cfg)%Z ->
            near total (shards cfg) (Z.of_nat i)
                 (nth (i - 1) (interior total (shards cfg)) 0%Z))
      /\ forall r1 r2,
           (0 <= r1 < total)%Z -> (0 <= r2 < total)%Z ->
           name_at db r1 = name_at db r2 ->
           (forall s, In s shard_list -> (in_shard r1 s <-> in_shard r2 s))
           /\ exists s,
                In s shard_list /\ in_shard r1 s /\ in_shard r2 s
                /\ forall s', In s' shard_list -> in_shard r1 s' -> s' = s.
Proof.
  intros db cfg total H Hrange Hc.
  set (final := 0%Z :: map (bump db) (interior total (shards cfg)) ++ [total]).
  exists (shards_of final). split; [apply (assign_returns db cfg H Hrange)|].
  split; [reflexivity|].
  split.
  { intros i Hi. rewrite interior_nth by exact Hi.
    apply sample_is_near; try assumption; lia. }
  assert (Cov : covers 0 total (shards_of final)).
  { apply (covers_spaced db _ 0%Z 1%Z (total - 1)%Z total); try lia.
    apply interior_spaced; assumption. }
  assert (Half : forall r1 r2,
             (0 <= r1 <= r2)%Z -> (r2 < total)%Z ->
             name_at db r1 = name_at db r2 ->
             forall s, In s (shards_of final) ->
                       (in_shard r1 s <-> in_shard r2 s)).
  { intros r1 r2 H1 H2 E s Hs.
    destruct (shards_of_ends final s Hs) as [Ha Hb].
    pose proof (no_cut_between db cfg r1 r2 _ H Hrange Hc H1 H2 E Ha).
    pose proof (no_cut_between db cfg r1 r2 _ H Hrange Hc H1 H2 E Hb).
    unfold in_shard. lia. }
  assert (Iff : forall r1 r2,
             (0 <= r1 < total)%Z -> (0 <= r2 < total)%Z ->
             name_at db r1 = name_at db r2 ->
             forall s, In s (shards_of final) ->
                       (in_shard r1 s <-> in_shard r2 s)).
  { intros r1 r2 H1 H2 E s Hs.
    destruct (Z.le_ge_cases r1 r2).
    - apply Half; try assumption; lia.
    - symmetry. apply Half; try assumption; try lia. symmetry. exact E. }
  intros r1 r2 H1 H2 E. split; [apply Iff; assumption|].
  destruct (covers_in _ _ _ r1 Cov H1) as (s & Hs & Hin).
  exists s. split; [exact Hs|]. split; [exact Hin|]. split.
  - apply (proj1 (Iff r1 r2 H1 H2 E s Hs)). exact Hin.
  - intros s' Hs' Hin'. apply (covers_unique _ _ _ s' s r1 Cov); assumption.
Qed.

Lemma pairs_db_count : forall x,
  count_occ (list_eq_dec ascii_dec) (map row_frag (frags pairs_db)) x <= 2.
Proof.
  intros x.
  change (map row_frag (frags pairs_db))
    with [txt "a"; txt "a"; txt "b"; txt "c"; txt "c"].
  cbv [txt list_ascii_of_string]. cbn [count_occ].
  repeat destruct (list_eq_dec ascii_dec _ x); try lia; congruence.
Qed.

Lemma mates_share_a_shard_witness :
  exists shard_list,
    snd (assign_seqs_to_shards pairs_db two_shards) = Ok shard_list
    /\ forall s, In s shard_list -> (in_shard 3 s <-> in_shard 4 s).
Proof.
  destruct (mates_share_a_shard pairs_db two_shards) as (l & E & _ & _ & F).
  - vm_compute. split; [discriminate|reflexivity].
  - vm_compute. discriminate.
  - exact pairs_db_count.
  - exists l. split; [exact E|].
    assert (H3 : (0 <= 3 < Z.of_nat (length (frags pairs_db)))%Z)
      by (vm_compute; split; [discriminate|reflexivity]).
    assert (H4 : (0 <= 4 < Z.of_nat (length (frags pairs_db)))%Z)
      by (vm_compute; split; [discriminate|reflexivity]).
    assert (N : name_at pairs_db 3 = name_at pairs_db 4)
      by (vm_compute; reflexivity).
    exact (proj1 (F 3%Z 4%Z H3 H4 N)).
Defined.

(** C1 as the specification words it fails on a name with three rows:
    the two names read at the offset are equal, the offset stays where it
    is, and the rows of the name are in two shards. *)
Lemma run_of_three_split :
  snd (assign_seqs_to_shards triple_db two_shards)
  = Ok [(2, 0); (2, 2)]%Z
  /\ map row_frag (frags triple_db) = [txt "a"; txt "b"; txt "b"; txt "b"]
  /\ name_at triple_db 1 = name_at triple_db 2
  /\ bump triple_db 2 = 2%Z
  /\ in_shard 1 (2, 0)%Z /\ ~ in_shard 2 (2, 0)%Z
  /\ in_shard 2 (2, 2)%Z /\ ~ in_shard 1 (2, 2)%Z.
Proof.
  repeat split; try reflexivity; try (vm_compute; discriminate);
    unfold in_shard; cbn [fst snd]; lia.
Qed.

(** ** Lines and trailing whitespace *)

Lemma rstrip_idem : forall s, rstrip (rstrip s) = rstrip s.
Proof.
  induction s as [|c s IH]; [reflexivity|].
  cbn [rstrip]. destruct (rstrip s) as [|d r] eqn:E.
  - destruct (isspace c) eqn:Hc; [reflexivity|].
    cbn [rstrip]. rewrite Hc. reflexivity.
  - cbn [rstrip]. cbn [rstrip] in IH. rewrite IH. reflexivity.
Qed.

Lemma rstrip_app_fixed : forall a x,
  x <> [] -> rstrip x = x -> rstrip (a ++ x) = a ++ x.
Proof.
  induction a as [|c a IH]; intros x Hne Hx; [exact Hx|].
  cbn [app rstrip]. rewrite (IH x Hne Hx).
  destruct (a ++ x) eqn:E; [|reflexivity].
  apply app_eq_nil in E. destruct E. contradiction.
Qed.

Lemma rstrip_Forall : forall (P : ascii -> Prop) s,
  Forall P s -> Forall P (rstrip s).
Proof.
  intros P. induction 1 as [|c s Hc Hs IH]; [constructor|].
  cbn [rstrip]. destruct (rstrip s) as [|d r].
  - destruct (isspace c); constructor; [exact Hc|constructor].
  - constructor; assumption.
Qed.

Lemma rstrip_starts_alpha : forall s,
  starts_alpha s = true -> starts_alpha (rstrip s) = true.
Proof.
  intros [|c s] H; [discriminate|]. simpl in H.
  destruct (rstrip_head c s (alpha_not_space _ H)) as [r ->]. exact H.
Qed.

Lemma universal_newlines_no_cr : forall s, no_cr (universal_newlines s).
Proof.
  assert (G : forall n s, length s <= n -> no_cr (universal_newlines s)).
  { induction n as [|n IH]; intros s Hn.
    - destruct s; [constructor|simpl in Hn; lia].
    - destruct s as [|c s]; [constructor|]. simpl in Hn.
      cbn [universal_newlines]. destruct (is_cr c) eqn:Hc.
      + constructor; [reflexivity|].
        destruct s as [|d s]; [constructor|].
        destruct (is_lf d); apply IH; simpl in *; lia.
      + constructor; [exact Hc|]. apply IH. lia. }
  intros s. apply (G (length s)). lia.
Qed.

Lemma readlines_no_cr : forall s, no_cr s -> Forall no_cr (readlines s).
Proof.
  induction 1 as [|c s Hc Hs IH]; [constructor|].
  cbn [readlines]. destruct (is_lf c).
  - constructor; [|exact IH]. constructor; [exact Hc|constructor].
  - destruct (readlines s) as [|l ls].
    + constructor; [|constructor]. constructor; [exact Hc|constructor].
    + inversion IH; subst. constructor; [|assumption].
      constructor; assumption.
Qed.

Lemma readlines_ok : forall s, lines_ok (readlines s).
Proof.
  induction s as [|c s IH]; [constructor|].
  cbn [readlines]. destruct (is_lf c) eqn:Hc.
  - apply lines_cons; [|exact IH].
    exists []. split; [|constructor].
    rewrite (is_lf_LF _ Hc). reflexivity.
  - destruct (readlines s) as [|l ls].
    + apply lines_last; [|discriminate].
      constructor; [exact Hc|constructor].
    + inversion IH as [|? Hl Hne|? ? Hl Hls]; subst.
      * apply lines_last; [|discriminate]. constructor; assumption.
      * apply lines_cons; [|exact Hls].
        destruct Hl as (body & -> & Hb). exists (c :: body).
        split; [reflexivity|]. constructor; assumption.
Qed.

Lemma open_r_ok : forall content,
  lines_ok (open_r content) /\ Forall no_cr (open_r content).
Proof.
  intros content. unfold open_r. split.
  - apply readlines_ok.
  - apply readlines_no_cr, universal_newlines_no_cr.
Qed.

(** ** What a header line gives *)

Lemma match_groups_inv : forall s g1 g2,
  match_groups s = Some (g1, g2) ->
  exists sep d t,
    g2 = [sep; d] /\ s = g1 ++ sep :: d :: t
    /\ is_sep sep = true /\ is_12 d = true /\ no_lf g1.
Proof.
  induction s as [|c s IH]; intros g1 g2 H; [discriminate|].
  rewrite match_groups_cons in H.
  assert (Stop : match s with
                 | d :: _ => if is_sep c && is_12 d
                             then Some ([], [c; d]) else None
                 | [] => None
                 end = Some (g1, g2) ->
                 exists sep d t,
                   g2 = [sep; d] /\ c :: s = g1 ++ sep :: d :: t
                   /\ is_sep sep = true /\ is_12 d = true /\ no_lf g1).
  { intros Hs. destruct s as [|d t]; [discriminate|].
    destruct (is_sep c && is_12 d) eqn:E; [|discriminate].
    injection Hs as <- <-. apply andb_true_iff in E. destruct E.
    exists c, d, t. repeat split; try assumption. constructor. }
  destruct (is_lf c) eqn:Hc; [exact (Stop H)|].
  destruct (match_groups s) as [[h1 h2]|] eqn:E; [|exact (Stop H)].
  injection H as <- <-.
  destruct (IH h1 h2 eq_refl) as (sep & d & t & E2 & Es & Hs & Hd & Hn).
  exists sep, d, t. repeat split; try assumption.
  - rewrite Es. reflexivity.
  - constructor; assumption.
Qed.

Lemma match_spaces_None_groups : forall s,
  match_spaces s = None -> match_groups s = None.
Proof.
  intros [|c s] H; [reflexivity|].
  rewrite match_spaces_cons in H.
  destruct (isspace c); [|exact H].
  destruct (match_spaces s); [discriminate|exact H].
Qed.

Lemma match_spaces_inv : forall s g1 g2,
  match_spaces s = Some (g1, g2) ->
  exists ws sep d t,
    g2 = [sep; d] /\ s = ws ++ g1 ++ sep :: d :: t
    /\ is_sep sep = true /\ is_12 d = true /\ no_lf g1
    /\ starts_nonspace g1 = true.
Proof.
  induction s as [|c s IH]; intros g1 g2 H; [discriminate|].
  rewrite match_spaces_cons in H.
  destruct (isspace c) eqn:Hc.
  - destruct (match_spaces s) as [[h1 h2]|] eqn:E.
    + injection H as <- <-.
      destruct (IH h1 h2 eq_refl)
        as (ws & sep & d & t & E2 & Es & Hs & Hd & Hn & Hst).
      exists (c :: ws), sep, d, t. repeat split; try assumption.
      rewrite Es. reflexivity.
    + apply match_spaces_None_groups in E.
      rewrite match_groups_cons, E in H.
      assert (H' : match s with
                   | d :: _ => if is_sep c && is_12 d
                               then Some ([], [c; d]) else None
                   | [] => None
                   end = Some (g1, g2))
        by (destruct (is_lf c); exact H).
      destruct s as [|d t]; [discriminate|].
      destruct (is_sep c && is_12 d) eqn:E'; [|discriminate].
      injection H' as <- <-. apply andb_true_iff in E'. destruct E'.
      exists [], c, d, t. repeat split; try assumption. constructor.
  - destruct (match_groups_inv _ _ _ H) as (sep & d & t & E2 & Es & Hs & Hd & Hn).
    exists [], sep, d, t. repeat split; try assumption.
    destruct g1 as [|x g1]; [reflexivity|].
    simpl in Es. injection Es as -> _. simpl. rewrite Hc. reflexivity.
Qed.

Lemma lf_only_last_full : forall l, full_line l -> lf_only_last l.
Proof.
  intros l (body & -> & Hb) p c q E Hq.
  destruct (exists_last Hq) as (q' & x & ->).
  change (p ++ c :: q' ++ [x]) with (p ++ (c :: q') ++ [x]) in E.
  rewrite app_assoc in E. apply app_inj_tail in E. destruct E as [-> _].
  unfold no_lf in Hb. rewrite Forall_forall in Hb.
  apply Hb, in_elt.
Qed.

Lemma lf_only_last_no_lf : forall l, no_lf l -> lf_only_last l.
Proof.
  intros l H p c q -> _. unfold no_lf in H. rewrite Forall_forall in H.
  apply H, in_elt.
Qed.

Lemma lf_only_last_tl : forall c s, lf_only_last (c :: s) -> lf_only_last s.
Proof.
  intros c s H p x q E Hq. apply (H (c :: p) x q); [|exact Hq].
  rewrite E. reflexivity.
Qed.

(** The groups of a matching header line are a well-formed name and end
    tag. *)
Lemma matched_wf : forall line g1 g2,
  lf_only_last line -> no_cr line ->
  FRAGMENT_match line = Some (g1, g2) ->
  wf_name g1 g2 /\ no_cr g1 /\ no_cr g2.
Proof.
  intros [|m s] g1 g2 Hl Hc H; [discriminate|].
  cbn [FRAGMENT_match] in H. destruct (is_marker m); [|discriminate].
  destruct (match_spaces_inv _ _ _ H)
    as (ws & sep & d & t & -> & Es & Hs & Hd & Hn & Hst).
  inversion Hc as [|? ? _ Hcs]; subst.
  apply Forall_app in Hcs. destruct Hcs as [_ Hcs].
  apply Forall_app in Hcs. destruct Hcs as [Hc1 Hc2].
  inversion Hc2 as [|? ? Hsep Hc3]; subst.
  inversion Hc3 as [|? ? Hdig _]; subst.
  split; [|split; [exact Hc1|repeat constructor; assumption]].
  left. exists sep, d. repeat split; try assumption.
  apply (Hl (m :: ws ++ g1) sep (d :: t)); [|discriminate].
  cbn [app]. rewrite <- app_assoc. reflexivity.
Qed.

(** So is the rest of a full header line that does not match. *)
Lemma unmatched_wf : forall line,
  is_header line = true -> full_line line -> no_cr line ->
  FRAGMENT_match line = None ->
  wf_name (tl line) [] /\ no_cr (tl line).
Proof.
  intros [|m s] Hh (body & E & Hb) Hc H; [discriminate|].
  cbn [is_header] in Hh. cbn [FRAGMENT_match] in H. rewrite Hh in H.
  inversion Hc as [|? ? _ Hcs]; subst. cbn [tl].
  split; [|exact Hcs].
  right. split; [reflexivity|].
  destruct body as [|b body].
  - simpl in E. injection E as -> _. discriminate.
  - simpl in E. injection E as _ ->.
    exists body. inversion Hb; subst. auto.
Qed.

(** ** The rows of the loader are well formed *)

Lemma flush_wf : forall l rest, loader_inv l rest -> Forall wf_rec (flush l).
Proof.
  intros l rest [Hr H]. unfold flush.
  destruct (nonempty (seq l)) eqn:E; [|exact Hr].
  apply Forall_app. split; [exact Hr|]. constructor; [|constructor].
  destruct H as [[H _] | [[H _] | [(f & Hf & Hn & Hc1 & Hc2) [H | [Hs Hc3]]]]];
    try (rewrite H in E; discriminate).
  exists f. cbn [fst snd]. split; [exact Hf|].
  unfold wf_row. cbn [row_frag row_frag_end row_seq fst snd]. auto.
Qed.

Lemma line_shape : forall ln rest,
  lines_ok (ln :: rest) ->
  lf_only_last ln /\ (full_line ln \/ (no_lf ln /\ rest = [])).
Proof.
  intros ln rest H. inversion H as [|? Hl Hne|? ? Hl Hls]; subst.
  - split; [apply lf_only_last_no_lf, Hl|right; auto].
  - split; [apply lf_only_last_full, Hl|left; exact Hl].
Qed.

Lemma lines_ok_tl : forall ln rest, lines_ok (ln :: rest) -> lines_ok rest.
Proof.
  intros ln rest H. inversion H; subst; [constructor|assumption].
Qed.

Lemma rstrip_line_no_lf : forall ln,
  full_line ln \/ no_lf ln -> no_lf (rstrip ln).
Proof.
  intros ln [(body & -> & Hb) | H].
  - rewrite rstrip_snoc_space by reflexivity. apply rstrip_Forall, Hb.
  - apply rstrip_Forall, H.
Qed.

Lemma wf_seq_append : forall s ln,
  s = [] \/ (wf_seq s /\ no_cr s) ->
  starts_alpha ln = true -> full_line ln \/ no_lf ln -> no_cr ln ->
  wf_seq (s ++ rstrip ln) /\ no_cr (s ++ rstrip ln).
Proof.
  intros s ln Hs Ha Hl Hc.
  assert (X : wf_seq (rstrip ln) /\ no_cr (rstrip ln)).
  { repeat split.
    - apply rstrip_starts_alpha, Ha.
    - apply rstrip_line_no_lf, Hl.
    - apply rstrip_idem.
    - apply rstrip_Forall, Hc. }
  destruct Hs as [-> | [(Hs1 & Hs2 & Hs3) Hs4]]; [exact X|].
  destruct X as [(X1 & X2 & X3) X4]. repeat split.
  - destruct s; [discriminate|exact Hs1].
  - apply Forall_app. split; assumption.
  - apply rstrip_app_fixed; [|exact X3].
    destruct (rstrip ln); [discriminate|discriminate].
  - apply Forall_app. split; assumption.
Qed.

Lemma loader_inv_step : forall l ln rest,
  lines_ok (ln :: rest) -> no_cr ln ->
  loader_inv l (ln :: rest) -> loader_inv (on_line l ln) rest.
Proof.
  intros l ln rest Hok Hc Inv.
  destruct (line_shape ln rest Hok) as [Hlast Hfull].
  destruct ln as [|c s].
  { destruct Hfull as [(body & E & _) | [_ ->]].
    - destruct body; discriminate.
    - inversion Hok; subst; [congruence|].
      match goal with H : full_line [] |- _ =>
        destruct H as (body & E & _); destruct body; discriminate end. }
  destruct (is_marker c) eqn:Hm.
  - (* a header line *)
    rewrite on_line_header by exact Hm.
    split; [cbn [recs]; eapply flush_wf; exact Inv|].
    cbn [seq frag frag_end]. unfold header_fields.
    destruct (FRAGMENT_match (c :: s)) as [[g1 g2]|] eqn:E.
    + right; right. split; [|left; reflexivity].
      destruct (matched_wf (c :: s) g1 g2 Hlast Hc E) as (W & C1 & C2).
      exists g1. cbn [frag frag_end fst snd]. auto.
    + destruct Hfull as [Hfull | [_ ->]].
      * right; right. split; [|left; reflexivity].
        destruct (unmatched_wf (c :: s) Hm Hfull Hc E) as (W & C1).
        exists s. cbn [frag frag_end fst snd tl] in *.
        repeat split; try assumption. constructor.
      * right; left. auto.
  - destruct Inv as [Hr Inv].
    assert (Keep : forall l',
               recs l' = recs l -> seq l' = seq l -> frag l' = frag l ->
               frag_end l' = frag_end l ->
               (headed ((c :: s) :: rest) = true -> headed rest = true) ->
               loader_inv l' rest).
    { intros l' E1 E2 E3 E4 Hh. split; [rewrite E1; exact Hr|].
      rewrite E2. unfold wf_fields. rewrite E3, E4.
      destruct Inv as [[H1 H2] | [[_ H] | H]];
        [left; auto | discriminate | right; right; exact H]. }
    destruct (is_plus c) eqn:Hp.
    + rewrite on_line_plus by exact Hp.
      apply Keep; try reflexivity.
      cbn [headed is_header starts_alpha]. rewrite Hm.
      destruct (isalpha c) eqn:Ha; [|tauto].
      rewrite (alpha_not_plus _ Ha) in Hp. discriminate.
    + destruct (isalpha c && is_seq l) eqn:Ha.
      * apply andb_true_iff in Ha. destruct Ha as [Ha Hs].
        rewrite on_line_residues by assumption.
        split; [exact Hr|]. cbn [seq frag frag_end].
        destruct Inv as [[_ H] | [[_ H] | [Hf Hseq]]].
        -- cbn [headed is_header starts_alpha] in H.
           rewrite Hm, Ha in H. discriminate.
        -- discriminate.
        -- right; right. split; [exact Hf|]. right.
           apply wf_seq_append; try assumption.
           destruct Hfull as [Hfull | [Hn _]]; auto.
      * assert (E : on_line l (c :: s) = l).
        { unfold on_line. rewrite Hm, Hp, Ha. reflexivity. }
        rewrite E.
        apply Keep; try reflexivity.
        cbn [headed is_header starts_alpha]. rewrite Hm.
        destruct (isalpha c); [discriminate|tauto].
Qed.

Lemma loader_inv_fold : forall ls l,
  lines_ok ls -> Forall no_cr ls -> loader_inv l ls ->
  loader_inv (fold_left on_line ls l) [].
Proof.
  induction ls as [|ln ls IH]; intros l Hok Hc Inv; [exact Inv|].
  inversion Hc; subst. cbn [fold_left].
  apply IH; [eapply lines_ok_tl; exact Hok|assumption|].
  apply loader_inv_step; assumption.
Qed.

Lemma records_wf : forall content,
  headed (open_r content) = true -> Forall wf_rec (records content).
Proof.
  intros content H. unfold records.
  destruct (open_r_ok content) as [Hok Hc].
  eapply flush_wf. apply loader_inv_fold; [exact Hok|exact Hc|].
  split; [constructor|]. left. auto.
Qed.

Lemma store_rec_wf : forall r, wf_rec r -> wf_row (store_rec r).
Proof.
  intros [[f e] s] (name & E & W). cbn [fst snd] in *. subst. exact W.
Qed.

(** Every row of a store loaded from headed files is well formed. *)
Lemma loaded_rows_wf : forall batch files db,
  Forall (fun content => headed (open_r content) = true) files ->
  Forall wf_row (frags db) ->
  Forall wf_row (frags (load_files batch db files)).
Proof.
  intros batch files db Hf Hdb. rewrite frags_load_files.
  apply Forall_app. split; [exact Hdb|].
  apply Forall_map. induction Hf as [|c files Hc Hfs IH]; [constructor|].
  cbn [flat_map]. apply Forall_app. split; [|exact IH].
  eapply Forall_impl; [|apply records_wf, Hc].
  intros r. apply store_rec_wf.
Qed.

Lemma Forall_firstn_skipn : forall (A : Type) (P : A -> Prop) n l,
  Forall P l -> Forall P (firstn n l) /\ Forall P (skipn n l).
Proof.
  intros A P n l H. rewrite <- (firstn_skipn n l) in H.
  apply Forall_app in H. exact H.
Qed.

Lemma select_rows_wf : forall db limit offset,
  Forall wf_row (frags db) -> Forall wf_row (select_rows db limit offset).
Proof.
  intros db limit offset H. unfold select_rows, limit_offset.
  assert (S : Forall wf_row (order_by row_frag (frags db))).
  { eapply Permutation_Forall; [symmetry; apply order_by_perm|exact H]. }
  apply (Forall_firstn_skipn _ _ (Z.to_nat offset)) in S.
  destruct S as [_ K].
  destruct (limit <? 0)%Z; [exact K|].
  apply (Forall_firstn_skipn _ _ (Z.to_nat limit)) in K. apply K.
Qed.

(** ** Export and read back *)

Lemma fold_write_row : forall rows acc,
  fold_left write_row rows acc = acc ++ concat (flat_map row_lines rows).
Proof.
  induction rows as [|r rows IH]; intros acc; cbn [fold_left flat_map].
  - simpl. rewrite app_nil_r. reflexivity.
  - rewrite IH, concat_app. unfold write_row, write, row_lines.
    destruct (row_frag_end r) as [|x e]; cbn [nonempty concat app];
      repeat (rewrite <- app_assoc; cbn [app]);
      rewrite ?app_nil_r; reflexivity.
Qed.

Lemma row_lines_ok : forall r,
  wf_row r -> Forall full_line (row_lines r) /\ Forall no_cr (row_lines r).
Proof.
  intros r (Hn & (Hs1 & Hs2 & Hs3) & C1 & C2 & C3). unfold row_lines.
  destruct Hn as [(sep & d & E & Hsep & Hl & Hd & Hf & Hst)
                 | (E & body & Ef & Hb & Hm)]; rewrite E; cbn [nonempty].
  - split.
    + constructor; [|constructor; [|constructor]].
      * exists (GT :: row_frag r ++ [sep; d]). split.
        -- cbn [app]. rewrite <- app_assoc. reflexivity.
        -- constructor; [reflexivity|]. apply Forall_app. split; [exact Hf|].
           constructor; [exact Hl|].
           constructor; [apply digit_not_lf, Hd|constructor].
      * apply full_line_intro, Hs2.
    + rewrite E in C2.
      constructor; [|constructor; [|constructor]].
      * constructor; [reflexivity|]. apply Forall_app. split; [exact C1|].
        apply no_cr_snoc_lf, C2.
      * apply no_cr_snoc_lf, C3.
  - split.
    + constructor; [|constructor; [|constructor; [|constructor]]].
      * exists (GT :: body). split; [rewrite Ef; reflexivity|].
        constructor; [reflexivity|exact Hb].
      * exists []. split; [reflexivity|constructor].
      * apply full_line_intro, Hs2.
    + constructor; [|constructor; [|constructor; [|constructor]]].
      * constructor; [reflexivity|exact C1].
      * constructor; [reflexivity|constructor].
      * apply no_cr_snoc_lf, C3.
Qed.

Lemma header_fields_export : forall r,
  wf_row r ->
  header_fields (hd [] (row_lines r))
  = (PyStr (row_frag r), row_frag_end r).
Proof.
  intros r (Hn & _). unfold row_lines, header_fields.
  destruct Hn as [(sep & d & E & Hsep & Hl & Hd & Hf & Hst)
                 | (E & body & Ef & Hb & Hm)]; rewrite E; cbn [nonempty hd].
  - cbn [FRAGMENT_match]. replace (is_marker GT) with true by reflexivity.
    cbn [app].
    rewrite (match_spaces_last (row_frag r) sep d [LF]); try assumption;
      [reflexivity|].
    apply match_groups_digit_end; auto.
  - cbn [FRAGMENT_match tl]. replace (is_marker GT) with true by reflexivity.
    rewrite Hm. reflexivity.
Qed.

Lemma row_entry : forall r l,
  wf_row r ->
  flush (fold_left on_line (row_lines r) l) = flush l ++ [row_rec r].
Proof.
  intros r l W. pose proof (header_fields_export r W) as Hh.
  destruct W as (Hn & (Hs1 & Hs2 & Hs3) & _).
  assert (Seq : forall l0,
             seq l0 = [] -> is_seq l0 = true ->
             flush (on_line l0 (row_seq r ++ [LF]))
             = recs l0 ++ [(frag l0, frag_end l0, row_seq r)]).
  { intros l0 E0 E1. rewrite on_line_residues; [| |exact E1].
    - unfold flush. cbn [seq recs frag frag_end]. rewrite E0. cbn [app].
      rewrite rstrip_snoc_space by reflexivity. rewrite Hs3.
      destruct (row_seq r); [discriminate|reflexivity].
    - destruct (row_seq r); [discriminate|exact Hs1]. }
  unfold row_lines in *.
  destruct (nonempty (row_frag_end r)); cbn [hd] in Hh; cbn [fold_left].
  - rewrite (on_line_header l) by reflexivity.
    rewrite Seq by reflexivity. cbn [recs frag frag_end]. rewrite Hh.
    reflexivity.
  - rewrite (on_line_header l) by reflexivity.
    replace (on_line _ [LF]) with
      {| recs := flush l; seq := [];
         frag_end := snd (header_fields (GT :: row_frag r));
         frag := fst (header_fields (GT :: row_frag r)); is_seq := true |}
      by reflexivity.
    rewrite Seq by reflexivity. cbn [recs frag frag_end]. rewrite Hh.
    reflexivity.
Qed.

Lemma row_entries : forall rows l,
  Forall wf_row rows ->
  flush (fold_left on_line (flat_map row_lines rows) l)
  = flush l ++ map row_rec rows.
Proof.
  induction rows as [|r rows IH]; intros l H.
  - simpl. rewrite app_nil_r. reflexivity.
  - inversion H as [|? ? Hr Hrows]; subst.
    cbn [flat_map map]. rewrite fold_left_app, IH by exact Hrows.
    rewrite row_entry by exact Hr. rewrite <- app_assoc. reflexivity.
Qed.

(** Reading back the export of well-formed rows gives the rows. *)
Lemma records_export : forall rows,
  Forall wf_row rows ->
  map store_rec (records (fold_left write_row rows [])) = rows.
Proof.
  intros rows H. rewrite fold_write_row. cbn [app]. unfold records.
  rewrite open_r_lines.
  - rewrite row_entries by exact H. cbn [flush locals0 nonempty seq recs app].
    rewrite map_map. rewrite <- (map_id rows) at 2.
    apply map_ext. intros [[f e] s]. reflexivity.
  - induction H as [|r rows Hr Hrows IH]; [constructor|].
    cbn [flat_map]. apply Forall_app. split; [apply row_lines_ok, Hr|exact IH].
  - induction H as [|r rows Hr Hrows IH]; [constructor|].
    cbn [flat_map]. apply Forall_app. split; [apply row_lines_ok, Hr|exact IH].
Qed.

Lemma create_blast_db_fasta :
  forall (makeblastdb : nat -> text -> Z) file shard_params shard_index,
    makeblastdb shard_index (shard_fasta file shard_params) <> 0%Z ->
    fasta_file (create_blast_db makeblastdb file shard_params shard_index)
    = Some (shard_fasta file shard_params).
Proof.
  intros makeblastdb file [limit offset] shard_index H.
  unfold create_blast_db, shard_fasta in *. cbn [fst snd] in H.
  change (select_rows (connect_db file) limit offset)
    with (select_rows file limit offset).
  destruct (Z.eqb_spec
              (makeblastdb shard_index
                 (fold_left write_row (select_rows file limit offset) [])) 0);
    [contradiction|reflexivity].
Qed.

(** C4. For a store loaded from files in which no sequence line comes
    before the first header line, loading the export of a shard gives
    the rows of the shard again: the same names, end tags and sequences
    in the same order. *)
Theorem export_reingest_roundtrip :
  forall (CONFIG : config) (file file' : database) (shard_params : shard),
    Forall (fun content => headed (open_r content) = true)
      (sra_files CONFIG) ->
    let DB := load_seqs (create_table (connect_db file)) CONFIG in
    frags (load_seqs (create_table (connect_db file'))
             (reingest CONFIG (shard_fasta DB shard_params)))
    = select_rows DB (fst shard_params) (snd shard_params).
Proof.
  intros CONFIG file file' shard_params H DB.
  unfold load_seqs at 1. rewrite frags_load_files.
  cbn [reingest sra_files flat_map create_table frags app].
  rewrite app_nil_r. unfold shard_fasta. apply records_export.
  apply select_rows_wf. subst DB. unfold load_seqs.
  apply loaded_rows_wf; [exact H|constructor].
Qed.

Lemma export_reingest_roundtrip_witness :
  Forall (fun content => headed (open_r content) = true)
    (sra_files mixed_config)
  /\ frags (load_seqs (create_table (connect_db empty_db))
              (reingest mixed_config
                 (shard_fasta
                    (load_seqs (create_table (connect_db empty_db))
                       mixed_config) (2, 1)%Z)))
     = [(txt "r2", txt "/2", txt "TTTT"); (ln "single.read", [], txt "GGCC")].
Proof.
  assert (H : Forall (fun content => headed (open_r content) = true)
                (sra_files mixed_config))
    by (repeat constructor).
  split; [exact H|].
  rewrite (export_reingest_roundtrip mixed_config empty_db empty_db
             (2, 1)%Z H).
  reflexivity.
Defined.

(** C4 as the specification words it fails on a file that starts with a
    sequence line, which the loader accepts: the line is stored under the
    name [0], the text of the integer the loader starts with, and the
    export of the shard comes back under the name of the line [>0], line
    feed included. *)
Lemma headless_file_not_restored :
  let CONFIG := {| sra_files := [ln "ACGT"]; shards := 1; cpu := 1 |} in
  let DB := load_seqs (create_table (connect_db empty_db)) CONFIG in
  frags DB = [(txt "0", [], txt "ACGT")]
  /\ frags (load_seqs (create_table (connect_db empty_db))
              (reingest CONFIG (shard_fasta DB (1, 0)%Z)))
     = [(ln "0", [], txt "ACGT")].
Proof. split; reflexivity. Qed.

(** ** The pool *)

Lemma length_set_task : forall i t l, length (set_task i t l) = length l.
Proof.
  induction i as [|i IH]; intros t [|x l]; simpl; try reflexivity.
  rewrite IH. reflexivity.
Qed.

Lemma nth_error_set_task_eq : forall i t l t0,
  nth_error l i = Some t0 -> nth_error (set_task i t l) i = Some t.
Proof.
  induction i as [|i IH]; intros t [|x l] t0 H; simpl in *; try discriminate.
  - reflexivity.
  - eapply IH, H.
Qed.

Lemma nth_error_set_task_neq : forall i t l k,
  k <> i -> nth_error (set_task i t l) k = nth_error l k.
Proof.
  induction i as [|i IH]; intros t [|x l] k H; simpl; try reflexivity.
  - destruct k; [congruence|reflexivity].
  - destruct k; [reflexivity|]. simpl. apply IH. congruence.
Qed.

Lemma weight_set_task : forall i t l t0,
  nth_error l i = Some t0 ->
  list_sum (map weight (set_task i t l)) + weight t0
  = list_sum (map weight l) + weight t.
Proof.
  induction i as [|i IH]; intros t [|x l] t0 H; simpl in *; try discriminate.
  - injection H as ->. lia.
  - pose proof (IH t l t0 H). lia.
Qed.

Section PoolFacts.

Variable makeblastdb : nat -> text -> Z.
Variable file : database.
Variable cpu_count : Z.
Variable shard_list : list shard.

Let step' := step makeblastdb file cpu_count shard_list.
Let reachable' := reachable makeblastdb file cpu_count shard_list.
Let inv := pool_inv makeblastdb file cpu_count shard_list.

(** Every step brings the run nearer to its end. *)
Lemma step_measure : forall p q, step' p q -> measure q < measure p.
Proof.
  intros p q H. destruct H as [p j i Hpc Hq _ _ | p j i Hpc Hr
                              | p j o n Hpc Ho _ | p j o e Hpc _ _
                              | p Hpc];
    unfold measure; cbn [pc tasks]; rewrite Hpc; try lia.
  - rewrite length_set_task.
    pose proof (weight_set_task i Running (tasks p) Queued Hq).
    simpl in *. lia.
  - rewrite length_set_task.
    pose proof (weight_set_task i (Over (run_task makeblastdb file shard_list i))
                  (tasks p) Running Hr).
    simpl in *. lia.
  - assert (j < length (tasks p))
      by (apply nth_error_Some; congruence).
    lia.
Qed.

Lemma step_well_founded : well_founded (fun q p => step' p q).
Proof.
  apply (well_founded_lt_compat pool measure). intros q p H.
  apply step_measure, H.
Qed.

End PoolFacts.

Lemma terminate_built : forall t, built t -> built (terminate t).
Proof. intros t (o & n & -> & H). exists o, n. auto. Qed.

Lemma terminate_over : forall t o, terminate t = Over o -> t = Over o.
Proof. intros [| |o'|] o H; simpl in H; congruence. Qed.

Lemma first_queued : forall l i,
  nth_error l i = Some Queued ->
  exists i0, nth_error l i0 = Some Queued
             /\ forall k, k < i0 -> nth_error l k <> Some Queued.
Proof.
  induction l as [|t l IH]; intros i H; [destruct i; discriminate|].
  destruct (is_queued t) eqn:E.
  - exists 0. destruct t; try discriminate. split; [reflexivity|]. lia.
  - destruct i as [|i]; [simpl in H; injection H as ->; discriminate|].
    destruct (IH i H) as (i0 & H0 & Hk).
    exists (S i0). split; [exact H0|].
    intros [|k] Hlt; simpl.
    + intros C. injection C as ->. discriminate.
    + apply Hk. lia.
Qed.

Lemma running_or_idle : forall l,
  running l = 0%Z \/ exists i, nth_error l i = Some Running.
Proof.
  induction l as [|t l IH]; [left; reflexivity|].
  destruct t; try (right; exists 0; reflexivity);
    (destruct IH as [IH | (i & Hi)];
     [left; exact IH | right; exists (S i); exact Hi]).
Qed.

Section PoolInvariant.

Variable makeblastdb : nat -> text -> Z.
Variable file : database.
Variable cpu_count : Z.
Variable shard_list : list shard.

Let step' := step makeblastdb file cpu_count shard_list.
Let reachable' := reachable makeblastdb file cpu_count shard_list.
Let inv := pool_inv makeblastdb file cpu_count shard_list.

Lemma inv_submitted : inv (submitted cpu_count shard_list).
Proof.
  unfold inv, pool_inv, submitted.
  destruct (Z.ltb_spec cpu_count 1); cbn [tasks pc].
  - split; [intros [|i] o Hi; discriminate|]. left. auto.
  - assert (Q : forall i t,
               nth_error (map (fun _ : shard => Queued) shard_list) i = Some t ->
               t = Queued).
    { intros i t Hi. apply nth_error_In, in_map_iff in Hi.
      destruct Hi as (_ & Hi & _). congruence. }
    split; [intros i o Hi; apply Q in Hi; discriminate|].
    split; [apply length_map|]. split; [lia|]. split; [intros k Hk; lia|].
    intros i Hi. apply Q in Hi. discriminate.
Qed.

Lemma inv_step : forall p q, inv p -> step' p q -> inv q.
Proof.
  intros p q [Hrun Hpc] H.
  destruct H as [p j i Epc Hq Hfirst Hcpu | p j i Epc Hr
                | p j o n Epc Ho Hret | p j o e Epc Ho Hret
                | p Epc];
    rewrite Epc in Hpc; unfold inv, pool_inv; cbn [pc tasks];
    try rewrite Epc.
  - (* a task starts *)
    destruct Hpc as (Hlen & Hc & Hbuilt & Hterm).
    assert (Other : forall k t, nth_error (tasks p) k = Some t ->
                                t <> Queued ->
              nth_error (set_task i Running (tasks p)) k = Some t).
    { intros k t Hk Hne. rewrite nth_error_set_task_neq; [exact Hk|].
      intros ->. congruence. }
    split; [|split; [|split; [|split]]].
    + intros k o Hk. apply Hrun.
      destruct (Nat.eq_dec k i) as [->|Hne].
      * rewrite (nth_error_set_task_eq i Running (tasks p) Queued Hq) in Hk.
        discriminate.
      * rewrite nth_error_set_task_neq in Hk by exact Hne. exact Hk.
    + rewrite length_set_task. exact Hlen.
    + exact Hc.
    + intros k Hk. destruct (Hbuilt k Hk) as (t & Ht & Bt).
      exists t. split; [|exact Bt]. apply Other; [exact Ht|].
      destruct Bt as (o & n & -> & _). discriminate.
    + intros k Hk. destruct (Nat.eq_dec k i) as [->|Hne].
      * rewrite (nth_error_set_task_eq i Running (tasks p) Queued Hq) in Hk.
        discriminate.
      * rewrite nth_error_set_task_neq in Hk by exact Hne.
        exact (Hterm k Hk).
  - (* a task is over *)
    destruct Hpc as (Hlen & Hc & Hbuilt & Hterm).
    set (o' := run_task makeblastdb file shard_list i).
    split; [|split; [|split; [|split]]].
    + intros k o Hk. destruct (Nat.eq_dec k i) as [->|Hne].
      * rewrite (nth_error_set_task_eq i (Over o') (tasks p) Running Hr) in Hk.
        injection Hk as <-. reflexivity.
      * rewrite nth_error_set_task_neq in Hk by exact Hne.
        apply Hrun, Hk.
    + rewrite length_set_task. exact Hlen.
    + exact Hc.
    + intros k Hk. destruct (Hbuilt k Hk) as (t & Ht & Bt).
      exists t. split; [|exact Bt].
      rewrite nth_error_set_task_neq; [exact Ht|].
      intros ->. destruct Bt as (o & n & -> & _). congruence.
    + intros k Hk. destruct (Nat.eq_dec k i) as [->|Hne].
      * rewrite (nth_error_set_task_eq i (Over o') (tasks p) Running Hr) in Hk.
        discriminate.
      * rewrite nth_error_set_task_neq in Hk by exact Hne.
        exact (Hterm k Hk).
  - (* a result is collected *)
    destruct Hpc as (Hlen & Hc & Hbuilt & Hterm).
    split; [exact Hrun|]. repeat split; try assumption.
    intros k Hk. destruct (Nat.eq_dec k j) as [->|Hne].
    + exists (Over o). split; [exact Ho|]. exists o, n. auto.
    + apply Hbuilt. lia.
  - (* a result raises *)
    destruct Hpc as (Hlen & Hc & Hbuilt & Hterm).
    split.
    + intros k o' Hk. rewrite nth_error_map in Hk.
      destruct (nth_error (tasks p) k) as [t|] eqn:Et; [|discriminate].
      injection Hk as Hk. apply terminate_over in Hk. subst t.
      apply Hrun, Et.
    + right. split; [rewrite length_map; exact Hlen|].
      exists j, o. split; [|split; [exact Hret|split]].
      * rewrite nth_error_map, Ho. reflexivity.
      * intros k Hk. destruct (Hbuilt k Hk) as (t & Ht & Bt).
        exists (terminate t). split; [|apply terminate_built, Bt].
        rewrite nth_error_map, Ht. reflexivity.
      * apply Forall_map, Forall_forall. intros [| |o'|] _; simpl; eauto.
  - (* every result is collected *)
    destruct Hpc as (Hlen & Hc & Hbuilt & Hterm).
    split.
    + intros k o' Hk. rewrite nth_error_map in Hk.
      destruct (nth_error (tasks p) k) as [t|] eqn:Et; [|discriminate].
      injection Hk as Hk. apply terminate_over in Hk. subst t.
      apply Hrun, Et.
    + split; [rewrite length_map; exact Hlen|].
      apply Forall_map, Forall_forall. intros t Ht.
      apply In_nth_error in Ht. destruct Ht as (k & Hk).
      assert (Hlt : k < length (tasks p))
        by (apply nth_error_Some; congruence).
      destruct (Hbuilt k Hlt) as (t' & Ht' & Bt).
      rewrite Hk in Ht'. injection Ht' as <-. apply terminate_built, Bt.
Qed.

Lemma inv_reachable : forall p, reachable' p -> inv p.
Proof.
  induction 1 as [|p q _ IH Hs]; [apply inv_submitted|].
  eapply inv_step; eassumption.
Qed.

(** A run that is not over can go on. *)
Lemma pool_progress : forall p j,
  reachable' p -> pc p = Getting j -> exists q, step' p q.
Proof.
  intros p j Hr Epc. destruct (inv_reachable p Hr) as [Hrun Hpc].
  rewrite Epc in Hpc. destruct Hpc as (Hlen & Hc & Hbuilt & Hterm).
  destruct (nth_error (tasks p) j) as [t|] eqn:Et.
  - destruct t as [| |o|].
    + destruct (running_or_idle (tasks p)) as [Hz | (i & Hi)].
      * destruct (first_queued (tasks p) j Et) as (i0 & H0 & Hk).
        eexists. eapply step_start; try eassumption. lia.
      * eexists. eapply step_over; eassumption.
    + eexists. eapply step_over; eassumption.
    + destruct (returned o) as [n|e] eqn:Eo.
      * eexists. eapply step_get; eassumption.
      * eexists. eapply step_raise; eassumption.
    + exfalso. exact (Hterm j Et).
  - apply nth_error_None in Et.
    assert (j = length (tasks p)).
    { destruct (Nat.eq_dec j (length (tasks p))) as [E|E]; [exact E|].
      exfalso. destruct (Hbuilt (length (tasks p)) ltac:(lia)) as (t & Ht & _).
      assert (length (tasks p) < length (tasks p))
        by (apply nth_error_Some; congruence).
      lia. }
    subst j. eexists. eapply step_finish. exact Epc.
Qed.

End PoolInvariant.

Lemma create_blast_db_returned :
  forall (makeblastdb : nat -> text -> Z) file shard_params shard_index,
    let o := create_blast_db makeblastdb file shard_params shard_index in
    let status := makeblastdb shard_index (shard_fasta file shard_params) in
    (status = 0%Z /\ returned o = Ok shard_index /\ blast_db o = true
     /\ fasta_file o = None)
    \/ (status <> 0%Z /\ returned o = Raise (CalledProcessError status)
        /\ blast_db o = false
        /\ fasta_file o = Some (shard_fasta file shard_params)).
Proof.
  intros makeblastdb file [limit offset] shard_index.
  unfold create_blast_db, shard_fasta. cbn [fst snd].
  change (select_rows (connect_db file) limit offset)
    with (select_rows file limit offset).
  destruct (Z.eqb_spec
              (makeblastdb shard_index
                 (fold_left write_row (select_rows file limit offset) [])) 0)
    as [E|E]; cbn; [left|right]; auto.
Qed.

Lemma run_task_ok : forall makeblastdb file shard_list i n,
  returned (run_task makeblastdb file shard_list i) = Ok n ->
  returned (run_task makeblastdb file shard_list i) = Ok i
  /\ blast_db (run_task makeblastdb file shard_list i) = true.
Proof.
  intros makeblastdb file shard_list i n H. unfold run_task in *.
  destruct (create_blast_db_returned makeblastdb file
              (nth i shard_list (0, 0)%Z) i)
    as [(_ & R & B & _) | (_ & R & _)]; [auto|congruence].
Qed.

Lemma failed_run_reachable :
  reachable fails_on_first pairs_db 1 pair_shards failed_run.
Proof.
  set (o0 := run_task fails_on_first pairs_db pair_shards 0).
  set (p0 := {| tasks := [Queued; Queued]; pc := Getting 0 |}).
  set (p1 := {| tasks := [Running; Queued]; pc := Getting 0 |}).
  set (p2 := {| tasks := [Over o0; Queued]; pc := Getting 0 |}).
  set (p3 := {| tasks := [Over o0; Running]; pc := Getting 0 |}).
  assert (R0 : reachable fails_on_first pairs_db 1 pair_shards p0)
    by exact (reach_submitted fails_on_first pairs_db 1 pair_shards).
  assert (R1 : reachable fails_on_first pairs_db 1 pair_shards p1).
  { apply (reach_step R0).
    change p1 with {| tasks := set_task 0 Running (tasks p0); pc := pc p0 |}.
    apply (@step_start fails_on_first pairs_db 1 pair_shards p0 0 0);
      try reflexivity.
    intros k Hk. lia. }
  assert (R2 : reachable fails_on_first pairs_db 1 pair_shards p2).
  { apply (reach_step R1).
    change p2 with {| tasks := set_task 0 (Over o0) (tasks p1); pc := pc p1 |}.
    apply (@step_over fails_on_first pairs_db 1 pair_shards p1 0 0);
      reflexivity. }
  assert (R3 : reachable fails_on_first pairs_db 1 pair_shards p3).
  { apply (reach_step R2).
    change p3 with {| tasks := set_task 1 Running (tasks p2); pc := pc p2 |}.
    apply (@step_start fails_on_first pairs_db 1 pair_shards p2 0 1);
      try reflexivity.
    intros [|k] Hk; [discriminate|lia]. }
  apply (reach_step R3).
  change failed_run
    with {| tasks := map terminate (tasks p3);
            pc := Propagating (CalledProcessError 1) |}.
  apply (@step_raise fails_on_first pairs_db 1 pair_shards p3 0 o0);
    reflexivity.
Qed.

(** C3, as the pool of [create_blast_dbs] has it. A run that is not over
    can always go on. When it returns, every shard is built: every worker
    has finished. When an exception leaves it, either the pool refused
    its size, or the exception is that of the first shard, in shard
    order, whose build failed: the shards before it are built, every
    other task is over or was stopped when the pool was terminated, and
    no shard is marked in any way. *)
Theorem pool_returns_or_propagates :
  forall (makeblastdb : nat -> text -> Z) (file : database)
         (CONFIG : config) (shard_list : list shard) (p : pool),
    create_blast_dbs makeblastdb file CONFIG shard_list p ->
    let task_of i := run_task makeblastdb file shard_list i in
    let is_built k :=
      nth_error (tasks p) k = Some (Over (task_of k))
      /\ returned (task_of k) = Ok k /\ blast_db (task_of k) = true in
    match pc p with
    | Getting _ =>
        exists q, step makeblastdb file (cpu CONFIG) shard_list p q
    | Finished =>
        length (tasks p) = length shard_list
        /\ forall k, k < length shard_list -> is_built k
    | Propagating e =>
        (e = ValueError /\ (cpu CONFIG < 1)%Z)
        \/ exists j,
             j < length shard_list
             /\ nth_error (tasks p) j = Some (Over (task_of j))
             /\ returned (task_of j) = Raise e
             /\ (forall k, k < j -> is_built k)
             /\ Forall (fun t => t = Terminated \/ exists o, t = Over o)
                  (tasks p)
    end.
Proof.
  intros makeblastdb file CONFIG shard_list p Hr task_of is_built.
  unfold create_blast_dbs in Hr.
  pose proof (inv_reachable _ _ _ _ p Hr) as [Hrun Hpc].
  assert (B : forall k t, nth_error (tasks p) k = Some t -> built t ->
                          is_built k).
  { intros k t Hk (o & n & -> & Ho). pose proof (Hrun k o Hk) as E.
    subst o. unfold is_built, task_of.
    destruct (run_task_ok _ _ _ _ _ Ho) as [R Bd]. auto. }
  destruct (pc p) as [j| |e] eqn:Epc.
  - eapply pool_progress; eassumption.
  - destruct Hpc as [Hlen Hall]. split; [exact Hlen|].
    intros k Hk. rewrite <- Hlen in Hk.
    destruct (nth_error (tasks p) k) as [t|] eqn:Et;
      [|apply nth_error_None in Et; lia].
    apply (B k t Et). rewrite Forall_forall in Hall.
    eapply Hall, nth_error_In, Et.
  - destruct Hpc as [(-> & Hc & _) | (Hlen & j & o & Hj & Ho & Hb & Hall)];
      [left; auto|right].
    exists j. pose proof (Hrun j o Hj) as E. subst o.
    split; [rewrite <- Hlen; apply nth_error_Some; congruence|].
    split; [exact Hj|]. split; [exact Ho|]. split; [|exact Hall].
    intros k Hk. destruct (Hb k Hk) as (t & Ht & Bt). exact (B k t Ht Bt).
Qed.

Lemma pool_returns_or_propagates_witness :
  create_blast_dbs fails_on_first pairs_db two_shards pair_shards failed_run
  /\ exists j,
       j < length pair_shards
       /\ returned (run_task fails_on_first pairs_db pair_shards j)
          = Raise (CalledProcessError 1)
       /\ Forall (fun t => t = Terminated \/ exists o, t = Over o)
            (tasks failed_run).
Proof.
  split; [exact failed_run_reachable|].
  destruct (pool_returns_or_propagates fails_on_first pairs_db two_shards
              pair_shards failed_run failed_run_reachable)
    as [[E _] | (j & Hj & _ & Hr & _ & Hall)]; [discriminate|].
  exists j. auto.
Defined.

(** C3 as the specification words it fails: in this run the build of
    the first shard exits with status 1; the exception leaves
    [create_blast_dbs] while the second shard, whose own build would
    succeed, is being built; its task is stopped and its shard is not
    built. *)
Lemma sibling_task_stopped :
  create_blast_dbs fails_on_first pairs_db two_shards pair_shards failed_run
  /\ pc failed_run = Propagating (CalledProcessError 1)
  /\ nth_error (tasks failed_run) 1 = Some Terminated
  /\ returned (run_task fails_on_first pairs_db pair_shards 1) = Ok 1
  /\ ~ Forall (fun t => exists o, t = Over o) (tasks failed_run).
Proof.
  split; [exact failed_run_reachable|].
  repeat split; try reflexivity.
  intros H. inversion H as [|? ? _ H1]; subst.
  inversion H1 as [|? ? [o Ho] _]; subst. discriminate.
Qed.

(** * Further properties *)

(** X1. The rows that [load_seqs] stores do not depend on the batch
    size: whatever the threshold, the table gets the rows it had,
    followed by the records of the files, file after file and in the
    order of the lines. *)
Theorem load_files_batch_independent :
  forall (b1 b2 : Z) (db : database) (files : list text),
    frags (load_files b1 db files) = frags (load_files b2 db files)
    /\ frags (load_files b1 db files)
       = frags db ++ map store_rec (flat_map records files).
Proof.
  intros b1 b2 db files. rewrite !frags_load_files. split; reflexivity.
Qed.

(** X2. The pattern is not anchored at the end of the line: when a header
    holds several separator-digit pairs the last one is the end tag, and
    whatever follows that pair is dropped from the name and from the
    tag. *)
Theorem last_pair_wins :
  forall (m : ascii) (ws name : text) (sep d : ascii) (t : text),
    is_marker m = true ->
    Forall (fun c => isspace c = true) ws ->
    no_lf name -> starts_nonspace name = true ->
    is_sep sep = true -> is_lf sep = false -> is_12 d = true ->
    has_pair (d :: t) = false ->
    header_fields (m :: ws ++ name ++ sep :: d :: t)
    = (PyStr name, [sep; d]).
Proof.
  intros m ws name sep d t Hm Hws Hn Hst Hs Hl Hd Ht.
  unfold header_fields, FRAGMENT_match. rewrite Hm.
  assert (G : match_spaces (name ++ sep :: d :: t) = Some (name, [sep; d])).
  { apply match_spaces_last; try assumption.
    apply match_groups_no_pair, Ht. }
  rewrite (match_spaces_skip ws _ _ Hws G). reflexivity.
Qed.

Lemma last_pair_wins_witness :
  header_fields trailing_text_header
  = (PyStr (txt "sample_1_read"), txt "/2").
Proof.
  apply (last_pair_wins GT [] (txt "sample_1_read") SLASH (ascii_of_N 50)
           (ln " lane 3"));
    try reflexivity; repeat constructor.
Defined.

(** X3. In a store loaded from files in which no sequence line comes
    before the first header line, every row has this shape: the end tag
    is empty or a separator followed by '1' or '2'; a name with an end
    tag holds no line feed and does not start with whitespace; a name
    without end tag ends with the line feed of its header line; the
    sequence starts with a letter, holds no line break and has no
    trailing whitespace. *)
Theorem stored_row_shape :
  forall (CONFIG : config) (file : database) (r : row),
    Forall (fun content => headed (open_r content) = true)
      (sra_files CONFIG) ->
    In r (frags (load_seqs (create_table (connect_db file)) CONFIG)) ->
    ((exists sep d,
         row_frag_end r = [sep; d] /\ is_sep sep = true /\ is_12 d = true
         /\ no_lf (row_frag r) /\ starts_nonspace (row_frag r) = true)
     \/ (row_frag_end r = []
         /\ exists body, row_frag r = body ++ [LF] /\ no_lf body))
    /\ starts_alpha (row_seq r) = true
    /\ no_lf (row_seq r) /\ no_cr (row_seq r)
    /\ rstrip (row_seq r) = row_seq r.
Proof.
  intros CONFIG file r H Hin.
  assert (W : Forall wf_row
                (frags (load_seqs (create_table (connect_db file)) CONFIG))).
  { unfold load_seqs. apply loaded_rows_wf; [exact H|constructor]. }
  rewrite Forall_forall in W.
  destruct (W r Hin) as (Hn & (S1 & S2 & S3) & _ & _ & C3).
  split; [|auto].
  destruct Hn as [(sep & d & E & Hs & _ & Hd & Hf & Hst)
                 | (E & body & Ef & Hb & _)].
  - left. exists sep, d. auto.
  - right. split; [exact E|]. exists body. auto.
Qed.

Lemma stored_row_shape_witness :
  rstrip (txt "GGCC") = txt "GGCC"
  /\ starts_alpha (txt "GGCC") = true.
Proof.
  assert (H : Forall (fun content => headed (open_r content) = true)
                (sra_files mixed_config))
    by (repeat constructor).
  destruct (stored_row_shape mixed_config empty_db
              (ln "single.read", [], txt "GGCC") H)
    as (_ & S1 & _ & _ & S3).
  - vm_compute. right. right. left. reflexivity.
  - split; [exact S3|exact S1].
Defined.

(** X4. The export that [create_blast_db] writes for well-formed rows
    reads back as the header line and the sequence line of each row, in
    the order of the rows, with one blank line more after the header of a
    row whose header was not parsed: such a name keeps its line feed. *)
Theorem export_lines :
  forall rows : list row,
    Forall wf_row rows ->
    open_r (fold_left write_row rows []) = flat_map row_lines rows
    /\ length (open_r (fold_left write_row rows []))
       = 2 * length rows
         + length (filter (fun r => negb (nonempty (row_frag_end r))) rows).
Proof.
  intros rows H.
  assert (E : open_r (fold_left write_row rows []) = flat_map row_lines rows).
  { rewrite fold_write_row. cbn [app]. apply open_r_lines.
    - induction H as [|r rows Hr Hrows IH]; [constructor|].
      cbn [flat_map]. apply Forall_app.
      split; [apply row_lines_ok, Hr|exact IH].
    - induction H as [|r rows Hr Hrows IH]; [constructor|].
      cbn [flat_map]. apply Forall_app.
      split; [apply row_lines_ok, Hr|exact IH]. }
  split; [exact E|]. rewrite E. clear.
  induction rows as [|r rows IH]; [reflexivity|].
  cbn [flat_map filter length]. rewrite length_app, IH. unfold row_lines.
  destruct (nonempty (row_frag_end r)); cbn [negb length]; lia.
Qed.

Lemma export_lines_witness :
  open_r (shard_fasta
            (load_seqs (create_table (connect_db empty_db)) mixed_config)
            (2, 1)%Z)
  = [ln ">r2/2"; ln "TTTT"; ln ">single.read"; [LF]; ln "GGCC"].
Proof.
  assert (W : Forall wf_row
                (select_rows
                   (load_seqs (create_table (connect_db empty_db))
                      mixed_config) 2 1)).
  { apply select_rows_wf. unfold load_seqs.
    apply loaded_rows_wf; repeat constructor. }
  destruct (export_lines _ W) as [E _].
  unfold shard_fasta. cbn [fst snd]. rewrite E. reflexivity.
Defined.

(** X5. When the pool has at least one worker and the external tool exits
    with status 0 on every shard, no exception ever leaves
    [create_blast_dbs], and when it returns every shard is built and
    every export file has been removed. *)
Theorem all_builds_succeed :
  forall (makeblastdb : nat -> text -> Z) (file : database)
         (CONFIG : config) (shard_list : list shard) (p : pool),
    (1 <= cpu CONFIG)%Z ->
    (forall shard_index fasta, makeblastdb shard_index fasta = 0%Z) ->
    create_blast_dbs makeblastdb file CONFIG shard_list p ->
    (forall e, pc p <> Propagating e)
    /\ (pc p = Finished ->
        length (tasks p) = length shard_list
        /\ Forall (fun t => exists o,
                       t = Over o /\ blast_db o = true /\ fasta_file o = None)
             (tasks p)).
Proof.
  intros makeblastdb file CONFIG shard_list p Hc Hok Hr.
  unfold create_blast_dbs in Hr.
  pose proof (inv_reachable _ _ _ _ p Hr) as [Hrun Hpc].
  assert (Good : forall i,
             returned (run_task makeblastdb file shard_list i) = Ok i
             /\ blast_db (run_task makeblastdb file shard_list i) = true
             /\ fasta_file (run_task makeblastdb file shard_list i) = None).
  { intros i. unfold run_task.
    destruct (create_blast_db_returned makeblastdb file
                (nth i shard_list (0, 0)%Z) i)
      as [(_ & R & B & F) | (S & _)]; [auto|].
    exfalso. apply S, Hok. }
  split.
  - intros e Epc. rewrite Epc in Hpc.
    destruct Hpc as [(_ & Hlt & _) | (_ & j & o & Hj & Ho & _)]; [lia|].
    rewrite (Hrun j o Hj) in Ho. rewrite (proj1 (Good j)) in Ho.
    discriminate.
  - intros Epc. rewrite Epc in Hpc. destruct Hpc as [Hlen Hall].
    split; [exact Hlen|]. rewrite Forall_forall in *. intros t Ht.
    destruct (Hall t Ht) as (o & n & -> & _).
    apply In_nth_error in Ht. destruct Ht as (i & Hi).
    rewrite (Hrun i o Hi). exists (run_task makeblastdb file shard_list i).
    destruct (Good i) as (_ & B & F). auto.
Qed.

Lemma built_run_reachable :
  reachable always_succeeds pairs_db 1 pair_shards built_run.
Proof.
  set (o0 := run_task always_succeeds pairs_db pair_shards 0).
  set (o1 := run_task always_succeeds pairs_db pair_shards 1).
  set (p0 := {| tasks := [Queued; Queued]; pc := Getting 0 |}).
  set (p1 := {| tasks := [Running; Queued]; pc := Getting 0 |}).
  set (p2 := {| tasks := [Over o0; Queued]; pc := Getting 0 |}).
  set (p3 := {| tasks := [Over o0; Queued]; pc := Getting 1 |}).
  set (p4 := {| tasks := [Over o0; Running]; pc := Getting 1 |}).
  set (p5 := {| tasks := [Over o0; Over o1]; pc := Getting 1 |}).
  set (p6 := {| tasks := [Over o0; Over o1]; pc := Getting 2 |}).
  assert (R0 : reachable always_succeeds pairs_db 1 pair_shards p0)
    by exact (reach_submitted always_succeeds pairs_db 1 pair_shards).
  assert (R1 : reachable always_succeeds pairs_db 1 pair_shards p1).
  { apply (reach_step R0).
    change p1 with {| tasks := set_task 0 Running (tasks p0); pc := pc p0 |}.
    apply (@step_start always_succeeds pairs_db 1 pair_shards p0 0 0);
      try reflexivity.
    intros k Hk. lia. }
  assert (R2 : reachable always_succeeds pairs_db 1 pair_shards p2).
  { apply (reach_step R1).
    change p2 with {| tasks := set_task 0 (Over o0) (tasks p1); pc := pc p1 |}.
    apply (@step_over always_succeeds pairs_db 1 pair_shards p1 0 0);
      reflexivity. }
  assert (R3 : reachable always_succeeds pairs_db 1 pair_shards p3).
  { apply (reach_step R2).
    change p3 with {| tasks := tasks p2; pc := Getting 1 |}.
    apply (@step_get always_succeeds pairs_db 1 pair_shards p2 0 o0 0);
      reflexivity. }
  assert (R4 : reachable always_succeeds pairs_db 1 pair_shards p4).
  { apply (reach_step R3).
    change p4 with {| tasks := set_task 1 Running (tasks p3); pc := pc p3 |}.
    apply (@step_start always_succeeds pairs_db 1 pair_shards p3 1 1);
      try reflexivity.
    intros [|k] Hk; [discriminate|lia]. }
  assert (R5 : reachable always_succeeds pairs_db 1 pair_shards p5).
  { apply (reach_step R4).
    change p5 with {| tasks := set_task 1 (Over o1) (tasks p4); pc := pc p4 |}.
    apply (@step_over always_succeeds pairs_db 1 pair_shards p4 1 1);
      reflexivity. }
  assert (R6 : reachable always_succeeds pairs_db 1 pair_shards p6).
  { apply (reach_step R5).
    change p6 with {| tasks := tasks p5; pc := Getting 2 |}.
    apply (@step_get always_succeeds pairs_db 1 pair_shards p5 1 o1 1);
      reflexivity. }
  apply (reach_step R6).
  change built_run with {| tasks := map terminate (tasks p6); pc := Finished |}.
  apply (@step_finish always_succeeds pairs_db 1 pair_shards p6).
  reflexivity.
Qed.

Lemma all_builds_succeed_witness :
  create_blast_dbs always_succeeds pairs_db two_shards pair_shards built_run
  /\ Forall (fun t => exists o,
                 t = Over o /\ blast_db o = true /\ fasta_file o = None)
       (tasks built_run).
Proof.
  split; [exact built_run_reachable|].
  apply (all_builds_succeed always_succeeds pairs_db two_shards pair_shards
           built_run); try reflexivity.
  exact built_run_reachable.
Defined.

(** ** Wrapped sequences *)

Lemma fold_seq_lines : forall lines l,
  Forall seq_line_ok lines -> is_seq l = true ->
  fold_left on_line (seq_lines lines) l
  = {| recs := recs l; seq := seq l ++ joined lines;
       frag_end := frag_end l; frag := frag l; is_seq := true |}.
Proof.
  induction lines as [|s lines IH]; intros l H Hs.
  - cbn. unfold joined. cbn. rewrite app_nil_r, <- Hs.
    destruct l; reflexivity.
  - inversion H as [|? ? [Hb Ha] Hrest]; subst.
    cbn [seq_lines map fold_left]. fold (seq_lines lines).
    rewrite on_line_residues; [|destruct s; [discriminate|exact Ha]|exact Hs].
    rewrite IH by (try exact Hrest; reflexivity).
    cbn [recs seq frag frag_end]. unfold joined. cbn [map concat].
    rewrite rstrip_snoc_space by reflexivity.
    rewrite <- app_assoc. reflexivity.
Qed.

Lemma joined_nonempty : forall lines,
  lines <> [] -> Forall seq_line_ok lines -> nonempty (joined lines) = true.
Proof.
  intros [|s lines] Hne H; [congruence|].
  inversion H as [|? ? [_ Ha] _]; subst. unfold joined. cbn [map concat].
  pose proof (rstrip_nonempty s Ha) as N.
  destruct (rstrip s); [discriminate|reflexivity].
Qed.

Lemma fasta_record_read : forall e l,
  fasta_ok e ->
  flush (fold_left on_line (fasta_lines e) l) = flush l ++ [fasta_rec e].
Proof.
  intros e l (Ht & Hne & Hl). unfold fasta_lines. cbn [fold_left].
  rewrite (on_line_header l) by reflexivity.
  rewrite fold_seq_lines by (try exact Hl; reflexivity).
  unfold flush at 1. cbn [recs seq frag frag_end app].
  rewrite (joined_nonempty _ Hne Hl). reflexivity.
Qed.

Lemma fasta_records_read : forall es l,
  Forall fasta_ok es ->
  flush (fold_left on_line (flat_map fasta_lines es) l)
  = flush l ++ map fasta_rec es.
Proof.
  induction es as [|e es IH]; intros l H.
  - simpl. rewrite app_nil_r. reflexivity.
  - inversion H as [|? ? He Hes]; subst.
    cbn [flat_map map]. rewrite fold_left_app, IH by exact Hes.
    rewrite fasta_record_read by exact He. rewrite <- app_assoc. reflexivity.
Qed.

Lemma seq_lines_shape : forall lines,
  Forall seq_line_ok lines ->
  Forall full_line (seq_lines lines) /\ Forall no_cr (seq_lines lines).
Proof.
  induction 1 as [|s lines [Hb _] _ [IH1 IH2]]; [split; constructor|].
  split; constructor; try assumption.
  - apply full_line_intro, no_break_no_lf, Hb.
  - apply no_cr_snoc_lf, no_break_no_cr, Hb.
Qed.

Lemma fasta_lines_shape : forall es,
  Forall fasta_ok es ->
  Forall full_line (flat_map fasta_lines es)
  /\ Forall no_cr (flat_map fasta_lines es).
Proof.
  induction 1 as [|e es (Ht & _ & Hl) _ [IH1 IH2]]; [split; constructor|].
  destruct (seq_lines_shape _ Hl) as [S1 S2].
  cbn [flat_map]. unfold fasta_lines. split.
  - apply Forall_app. split; [|exact IH1]. constructor; [|exact S1].
    apply full_line_cons; [reflexivity|apply no_break_no_lf, Ht].
  - apply Forall_app. split; [|exact IH2]. constructor; [|exact S2].
    apply (no_cr_snoc_lf (GT :: fa_title e)).
    constructor; [reflexivity|apply no_break_no_cr, Ht].
Qed.

(** X6. A FASTA file whose sequences are wrapped over several lines
    loads as one row per record, in order: the sequence of the row is the
    lines of the record put end to end, each without its trailing
    whitespace (whitespace inside a line stays). *)
Theorem fasta_wrapped_lines_joined :
  forall (batch : Z) (db : database) (es : list fasta),
    Forall fasta_ok es ->
    frags (load_file batch db (fasta_text es))
    = frags db ++ map fasta_row es.
Proof.
  intros batch db es H. rewrite frags_load_file. f_equal.
  unfold records, fasta_text.
  destruct (fasta_lines_shape es H) as [S1 S2].
  rewrite open_r_lines by assumption.
  rewrite fasta_records_read by exact H. simpl. rewrite map_map.
  apply map_ext. intros e. reflexivity.
Qed.

Lemma fasta_wrapped_lines_joined_witness :
  frags (load_file DEFAULT_BATCH_SIZE empty_db (fasta_text [wrapped_example]))
  = [(txt "read7", txt "/1", txt "ACGTTTGA")].
Proof.
  apply (fasta_wrapped_lines_joined DEFAULT_BATCH_SIZE empty_db
           [wrapped_example]).
  constructor; [|constructor].
  split; [|split; [discriminate|]]; repeat constructor.
Defined.

(** X7. Sequence lines that come before the first header line of a file
    are not dropped: they are stored as one row under the name [0], the
    text of the integer the loader starts with, with an empty end tag. *)
Theorem headless_lines_named_zero :
  forall (batch : Z) (db : database) (lines : list text) (es : list fasta),
    lines <> [] -> Forall seq_line_ok lines -> Forall fasta_ok es ->
    frags (load_file batch db (concat (seq_lines lines) ++ fasta_text es))
    = frags db ++ (txt "0", [], joined lines) :: map fasta_row es.
Proof.
  intros batch db lines es Hne Hl H. rewrite frags_load_file. f_equal.
  unfold records, fasta_text. rewrite <- concat_app.
  destruct (fasta_lines_shape es H) as [S1 S2].
  destruct (seq_lines_shape lines Hl) as [L1 L2].
  rewrite open_r_lines by (apply Forall_app; split; assumption).
  rewrite fold_left_app, fasta_records_read by exact H.
  rewrite fold_seq_lines by (try exact Hl; reflexivity).
  unfold flush at 1. cbn [recs seq frag frag_end locals0 app].
  rewrite (joined_nonempty _ Hne Hl). cbn [map app].
  f_equal. rewrite map_map. apply map_ext. intros e. reflexivity.
Qed.

Lemma headless_lines_named_zero_witness :
  frags (load_file DEFAULT_BATCH_SIZE empty_db
           (concat (seq_lines [txt "GATTACA"]) ++ fasta_text [wrapped_example]))
  = [(txt "0", [], txt "GATTACA"); (txt "read7", txt "/1", txt "ACGTTTGA")].
Proof.
  apply (headless_lines_named_zero DEFAULT_BATCH_SIZE empty_db
           [txt "GATTACA"] [wrapped_example]).
  - discriminate.
  - repeat constructor.
  - constructor; [|constructor].
    split; [|split; [discriminate|]]; repeat constructor.
Defined.

(** ** The size of the batches *)

Lemma flush_length : forall l, length (flush l) <= S (length (recs l)).
Proof.
  intros l. unfold flush. destruct (nonempty (seq l)); [|lia].
  rewrite length_app. simpl. lia.
Qed.

Lemma on_line_recs_length : forall l line,
  length (recs (on_line l line)) <= S (length (recs l)).
Proof.
  intros l [|c rest]; [simpl; lia|].
  destruct (is_marker c) eqn:Hm.
  - rewrite on_line_header by exact Hm. apply flush_length.
  - unfold on_line. rewrite Hm. destruct (is_plus c); [simpl; lia|].
    destruct (isalpha c && is_seq l); simpl; lia.
Qed.

Lemma bounded_inserts_app : forall batch a b,
  bounded_inserts batch a -> bounded_inserts batch b ->
  bounded_inserts batch (a ++ b).
Proof.
  intros batch a b Ha Hb. apply Forall_app. split; assumption.
Qed.

Lemma bulk_insert_bounded : forall batch db rs,
  (Z.of_nat (length rs) <= batch)%Z ->
  exists log, executed (bulk_insert db rs) = executed db ++ log
              /\ bounded_inserts batch log.
Proof.
  intros batch db [|r rs] H.
  - exists []. simpl. rewrite app_nil_r. split; [reflexivity|constructor].
  - exists [INSERT (map store_rec (r :: rs)); COMMIT].
    split; [apply bulk_insert_nonempty|].
    constructor; [|constructor; [exact I|constructor]].
    rewrite length_map. simpl length in *. lia.
Qed.

Lemma fold_step_bounded : forall batch lines db l,
  (1 <= batch)%Z -> (Z.of_nat (length (recs l)) < batch)%Z ->
  exists log,
    executed (fst (fold_left (load_step batch) lines (db, l)))
    = executed db ++ log
    /\ bounded_inserts batch log
    /\ (Z.of_nat (length (recs (snd (fold_left (load_step batch) lines
                                       (db, l))))) < batch)%Z.
Proof.
  intros batch lines. induction lines as [|line lines IH]; intros db l Hb Hl.
  - exists []. cbn. rewrite app_nil_r. repeat split; [constructor|exact Hl].
  - cbn [fold_left].
    pose proof (on_line_recs_length l line) as Hlen.
    set (l1 := on_line l line) in *.
    assert (E : load_step batch (db, l) line
                = if (batch <=? Z.of_nat (length (recs l1)))%Z
                  then (bulk_insert db (recs l1), with_recs [] l1)
                  else (db, l1)) by reflexivity.
    rewrite E. clear E.
    destruct (Z.leb_spec batch (Z.of_nat (length (recs l1)))).
    + destruct (bulk_insert_bounded batch db (recs l1))
        as (log1 & E1 & B1); [lia|].
      destruct (IH (bulk_insert db (recs l1)) (with_recs [] l1) Hb)
        as (log2 & E2 & B2 & L2); [simpl; lia|].
      exists (log1 ++ log2). rewrite E2, E1, app_assoc.
      split; [reflexivity|].
      split; [apply bounded_inserts_app; assumption|exact L2].
    + apply IH; [exact Hb|lia].
Qed.

Lemma load_file_bounded : forall batch db content,
  (1 <= batch)%Z ->
  exists log, executed (load_file batch db content) = executed db ++ log
              /\ bounded_inserts batch log.
Proof.
  intros batch db content Hb. unfold load_file.
  destruct (fold_step_bounded batch (open_r content) db locals0 Hb)
    as (log1 & E1 & B1 & L1); [simpl; lia|].
  destruct (fold_left (load_step batch) (open_r content) (db, locals0))
    as [db1 l]. cbn [fst snd] in *.
  pose proof (flush_length l).
  destruct (bulk_insert_bounded batch db1 (flush l)) as (log2 & E2 & B2);
    [lia|].
  exists (log1 ++ log2). rewrite E2, E1, app_assoc.
  split; [reflexivity|apply bounded_inserts_app; assumption].
Qed.

(** X8. With a batch size of at least one, every INSERT that the loader
    runs carries at least one row and at most as many rows as the batch
    size: the loader never holds more than one batch of records. *)
Theorem inserts_within_batch_size :
  forall (batch : Z) (files : list text) (db : database),
    (1 <= batch)%Z ->
    exists log,
      executed (load_files batch db files) = executed db ++ log
      /\ bounded_inserts batch log.
Proof.
  intros batch files. induction files as [|f files IH]; intros db Hb.
  - exists []. cbn. rewrite app_nil_r. split; [reflexivity|constructor].
  - unfold load_files. cbn [fold_left].
    destruct (load_file_bounded batch db f Hb) as (log1 & E1 & B1).
    destruct (IH (load_file batch db f) Hb) as (log2 & E2 & B2).
    exists (log1 ++ log2). unfold load_files in E2. rewrite E2, E1, app_assoc.
    split; [reflexivity|apply bounded_inserts_app; assumption].
Qed.

Lemma inserts_within_batch_size_witness :
  exists log,
    executed (load_files 2 empty_db
                [ln ">a/1" ++ ln "AC" ++ ln ">a/2" ++ ln "GT" ++ ln ">b/1"
                 ++ ln "AA"])
    = executed empty_db ++ log
    /\ bounded_inserts 2 log.
Proof.
  apply (inserts_within_batch_size 2). lia.
Defined.

(** ** The outcome of the partitioner *)

Lemma select_frag_length : forall db m,
  (0 <= m)%Z ->
  length (select_frag db m) = Nat.min 2 (length (sorted_names db) - Z.to_nat m).
Proof.
  intros db m Hm. unfold select_frag, limit_offset. fold (sorted_names db).
  cbn [Z.ltb Z.compare]. rewrite length_firstn, length_skipn. reflexivity.
Qed.

Lemma adjust_unreadable : forall db pre m post c,
  (0 <= m)%Z -> ~ readable db m ->
  adjust db {| offsets := pre ++ m :: post; connection := c |} (length pre)
  = Raise TypeError.
Proof.
  intros db pre m post c Hm Hr. unfold adjust. cbn [offsets].
  rewrite nth_middle_Z.
  pose proof (select_frag_length db m Hm) as L.
  assert (Hlen : length (select_frag db m) <= 1).
  { rewrite L. unfold readable in Hr. lia. }
  destruct (select_frag db m) as [|x [|y rest]]; simpl in Hlen;
    [reflexivity|reflexivity|lia].
Qed.

Lemma readable_dec : forall db m, {readable db m} + {~ readable db m}.
Proof.
  intros db m. unfold readable.
  destruct (Z_le_dec 0 m);
    destruct (Z_lt_dec (m + 1) (Z.of_nat (length (sorted_names db))));
    (left; lia) || (right; lia).
Qed.

Lemma adjust_loop_raises : forall mid db pre post c,
  Forall (fun m => (0 <= m)%Z) mid ->
  Exists (fun m => ~ readable db m) mid ->
  snd (adjust_loop db (List.seq (length pre) (length mid))
         {| offsets := pre ++ mid ++ post; connection := c |})
  = Raise TypeError.
Proof.
  induction mid as [|m mid IH]; intros db pre post c Hpos Hex.
  - inversion Hex.
  - inversion Hpos as [|? ? Hm Hmid]; subst.
    cbn [length List.seq adjust_loop app].
    destruct (readable_dec db m) as [Hr | Hr].
    + rewrite (adjust_middle db pre m (mid ++ post) c Hr).
      replace (pre ++ bump db m :: mid ++ post)
        with ((pre ++ [bump db m]) ++ mid ++ post)
        by (rewrite <- app_assoc; reflexivity).
      replace (S (length pre)) with (length (pre ++ [bump db m]))
        by (rewrite length_app; simpl; lia).
      match goal with
      | |- context [adjust_loop ?d _ _] => set (db1 := d)
      end.
      apply (IH db1 (pre ++ [bump db m]) post (Some []) Hmid).
      inversion Hex as [? ? Hbad | ? ? Hrest]; subst;
        [contradiction|exact Hrest].
    + rewrite (adjust_unreadable db pre m (mid ++ post) c Hm Hr).
      reflexivity.
Qed.

Lemma interior_nonneg : forall total n,
  (0 <= total)%Z -> (1 <= n)%Z -> in_range total n ->
  Forall (fun m => (0 <= m)%Z) (interior total n).
Proof.
  intros total n Ht Hn Hb. unfold interior. apply Forall_map, Forall_forall.
  intros i Hi. apply in_seq in Hi.
  pose proof (sample_is_near total n i Ht Hn Hb ltac:(lia)) as N.
  apply (near_range total n (Z.of_nat i)) in N; lia.
Qed.

Lemma interior_last : forall total n,
  (2 <= n)%Z -> (0 <= total)%Z -> in_range total n ->
  In ((n - 1) * total / n)%Z (interior total n).
Proof.
  intros total n Hn Ht Hb. unfold interior. apply in_map_iff.
  exists (Z.to_nat n - 1). split.
  - pose proof (sample_is_near total n (Z.to_nat n - 1) Ht ltac:(lia) Hb
                  ltac:(lia)) as N.
    replace (Z.of_nat (Z.to_nat n - 1)) with (n - 1)%Z in N by lia.
    apply (near_last total n _ Ht ltac:(lia) N).
  - apply in_seq. lia.
Qed.

Lemma assign_raises_TypeError : forall db cfg,
  let total := Z.of_nat (length (frags db)) in
  (2 <= shards cfg)%Z -> (total <= shards cfg)%Z ->
  in_range total (shards cfg) ->
  snd (assign_seqs_to_shards db cfg) = Raise TypeError.
Proof.
  intros db cfg total Hn Ht Hb. unfold assign_seqs_to_shards. fold total.
  rewrite (linspace_shape total (shards cfg) ltac:(lia)
             (in_range_small total (shards cfg) ltac:(lia) ltac:(lia) Hb)).
  set (mid := interior total (shards cfg)).
  assert (Hlen : length (0%Z :: mid ++ [total]) - 2 = length mid).
  { cbn [length]. rewrite length_app. simpl. lia. }
  rewrite Hlen.
  pose proof (adjust_loop_raises mid (logged db SELECT_COUNT) [0%Z] [total]
                None) as L.
  cbn [length app] in L.
  destruct (adjust_loop (logged db SELECT_COUNT) (List.seq 1 (length mid))
              {| offsets := 0%Z :: mid ++ [total]; connection := None |})
    as [db2 r]. cbn [snd] in L. rewrite L; [reflexivity| |].
  - apply interior_nonneg; [lia|lia|exact Hb].
  - apply Exists_exists. exists ((shards cfg - 1) * total / shards cfg)%Z.
    split; [apply interior_last; [exact Hn|lia|exact Hb]|].
    intros [_ Hr]. rewrite sorted_names_length in Hr.
    cbn [logged frags] in Hr. fold total in Hr.
    assert (total - 1 <= (shards cfg - 1) * total / shards cfg)%Z.
    { apply Z.div_le_lower_bound; nia. }
    lia.
Qed.

(** X9. With the product of the two counts up to 2^51, the partitioner
    of [format_sra.py] returns a shard list exactly when the shard count
    is at least two and smaller than the record count; the list is the
    one of the offsets of [np.linspace], each interior one moved up by
    one where the two names read there differ. With a count below -1
    [linspace] refuses the number of samples; with -1, 0 or 1 the loop
    never runs and closing the unbound [connection] raises; with two or
    more shards and no more records than shards an interior offset has
    no second row and subscripting [None] raises (an empty store
    included). *)
Theorem assign_outcome_by_counts :
  forall (db : database) (cfg : config),
    ((2 <= shards cfg)%Z ->
     in_range (Z.of_nat (length (frags db))) (shards cfg)) ->
    snd (assign_seqs_to_shards db cfg) = assign_outcome db (shards cfg).
Proof.
  intros db cfg Hb. unfold assign_outcome.
  destruct (Z.ltb_spec (shards cfg) (-1)) as [H1|H1].
  - unfold assign_seqs_to_shards, linspace.
    destruct (Z.ltb_spec (shards cfg + 1) 0); [reflexivity|lia].
  - destruct (Z.leb_spec (shards cfg) 1) as [H2|H2].
    + assert (C : (shards cfg = -1 \/ shards cfg = 0 \/ shards cfg = 1)%Z) by lia.
      unfold assign_seqs_to_shards.
      destruct C as [C | [C | C]]; rewrite C; reflexivity.
    + destruct (Z.leb_spec (Z.of_nat (length (frags db))) (shards cfg))
        as [H3|H3].
      * apply assign_raises_TypeError; [lia|lia|apply Hb; lia].
      * apply assign_returns; [lia|apply Hb; lia].
Qed.

Lemma assign_outcome_by_counts_witness :
  snd (assign_seqs_to_shards pairs_db two_shards)
  = assign_outcome pairs_db (shards two_shards).
Proof.
  apply (assign_outcome_by_counts pairs_db two_shards).
  intros _. vm_compute. discriminate.
Defined.

(** ** The sizes of the shards *)

Lemma interior_gaps_from : forall total n k i,
  (0 <= total)%Z -> (1 <= n)%Z -> in_range total n ->
  S i + k = Z.to_nat n ->
  gaps_ok (total / n) (sample total n i) total
    (map (sample total n) (List.seq (S i) k)).
Proof.
  intros total n k. induction k as [|k IH]; intros i Ht Hn Hb Hi;
    cbn [List.seq map gaps_ok].
  - apply (near_step total n (Z.of_nat i)); try lia.
    + apply sample_is_near; try assumption. lia.
    + replace (Z.of_nat i + 1)%Z with n by lia. apply near_end. lia.
  - split; [apply interior_step; try assumption; lia|].
    apply IH; try assumption. lia.
Qed.

Lemma gaps_shards : forall db mid q prev a total s,
  gaps_ok q prev total mid -> (prev <= a <= prev + 1)%Z ->
  In s (shards_of (a :: map (bump db) mid ++ [total])) ->
  (q - 1 <= fst s <= q + 2)%Z.
Proof.
  intros db mid. induction mid as [|m mid IH];
    intros q prev a total s G Ha Hs; cbn [gaps_ok] in G; cbn [map app] in Hs.
  - rewrite shards_of_cons in Hs. destruct Hs as [<- | []].
    cbn [fst]. lia.
  - destruct G as [G1 G2]. rewrite shards_of_cons in Hs.
    pose proof (bump_range db m).
    destruct Hs as [<- | Hs]; [cbn [fst]; lia|].
    apply (IH q m (bump db m) total s G2); [lia|exact Hs].
Qed.

(** X10. With at least two shards, more records than shards and the
    product of the two counts up to 2^51, every shard the partitioner
    returns holds between T/N - 1 and T/N + 2 records (T records, N
    shards, the quotient cut down): the shards are of near-equal size,
    and one may be empty only when T < 2N. The rounding of [np.linspace]
    in double precision does not widen these bounds. *)
Theorem shard_sizes_balanced :
  forall (db : database) (cfg : config),
    let total := Z.of_nat (length (frags db)) in
    (2 <= shards cfg < total)%Z ->
    in_range total (shards cfg) ->
    exists shard_list,
      snd (assign_seqs_to_shards db cfg) = Ok shard_list
      /\ forall s, In s shard_list ->
           (total / shards cfg - 1 <= fst s <= total / shards cfg + 2)%Z.
Proof.
  intros db cfg total H Hb. eexists.
  split; [apply (assign_returns db cfg H Hb)|].
  intros s Hs.
  apply (gaps_shards db (interior total (shards cfg)) (total / shards cfg)
           0%Z 0%Z total s); [|lia|exact Hs].
  unfold interior.
  pose proof (interior_gaps_from total (shards cfg)
                (Z.to_nat (shards cfg) - 1) 0) as G.
  rewrite sample_zero_index in G.
  apply G; [lia|lia|exact Hb|lia].
Qed.

Lemma shard_sizes_balanced_witness :
  exists shard_list,
    snd (assign_seqs_to_shards pairs_db two_shards) = Ok shard_list
    /\ forall s, In s shard_list -> (1 <= fst s <= 4)%Z.
Proof.
  apply (shard_sizes_balanced pairs_db two_shards).
  - vm_compute. split; [discriminate|reflexivity].
  - vm_compute. discriminate.
Defined.

(** ** The shards together *)

Lemma firstn_add_skipn : forall (A : Type) a b (l : list A),
  firstn (a + b) l = firstn a l ++ firstn b (skipn a l).
Proof.
  intros A a. induction a as [|a IH]; intros b l; [reflexivity|].
  destruct l as [|x l]; [cbn; rewrite firstn_nil; reflexivity|].
  cbn [Nat.add firstn skipn app]. rewrite IH. reflexivity.
Qed.

Lemma covers_le : forall l lo hi, covers lo hi l -> (lo <= hi)%Z.
Proof.
  induction l as [|[limit offset] l IH]; intros lo hi C; cbn [covers] in C;
    [lia|].
  destruct C as (_ & Hl & C). apply IH in C. lia.
Qed.

Lemma covers_slices : forall (A : Type) (L : list A) l lo hi,
  covers lo hi l -> (0 <= lo)%Z ->
  concat (map (fun s : shard => limit_offset (fst s) (snd s) L) l)
  = firstn (Z.to_nat (hi - lo)) (skipn (Z.to_nat lo) L).
Proof.
  intros A L. induction l as [|[limit offset] l IH]; intros lo hi C Hlo;
    cbn [covers] in C.
  - subst. rewrite Z.sub_diag. reflexivity.
  - destruct C as (-> & Hl & C). pose proof (covers_le _ _ _ C).
    cbn [map concat fst snd]. rewrite (IH _ _ C) by lia.
    unfold limit_offset. destruct (Z.ltb_spec limit 0); [lia|].
    replace (Z.to_nat (hi - lo))
      with (Z.to_nat limit + Z.to_nat (hi - (lo + limit))) by lia.
    rewrite firstn_add_skipn, skipn_skipn.
    replace (Z.to_nat limit + Z.to_nat lo) with (Z.to_nat (lo + limit)) by lia.
    reflexivity.
Qed.

(** X11. With at least two shards, more records than shards and the
    product of the two counts up to 2^51, the rows that the workers
    select for the shards, put end to end in shard order, are the rows
    of the table in the order of their names: every row is exported in
    one shard and none is exported twice. *)
Theorem shards_export_every_row_once :
  forall (db : database) (cfg : config),
    let total := Z.of_nat (length (frags db)) in
    (2 <= shards cfg < total)%Z ->
    in_range total (shards cfg) ->
    exists shard_list,
      snd (assign_seqs_to_shards db cfg) = Ok shard_list
      /\ concat (map (fun s => select_rows db (fst s) (snd s)) shard_list)
         = order_by row_frag (frags db).
Proof.
  intros db cfg total H Hb.
  destruct (assign_covers db cfg H Hb) as (l & E & C & _).
  exists l. split; [exact E|].
  assert (Z0 : (0 <= 0)%Z) by lia.
  etransitivity;
    [exact (covers_slices row (order_by row_frag (frags db)) l 0 total C Z0)|].
  rewrite Z.sub_0_r. cbn [Z.to_nat skipn]. unfold total.
  rewrite Nat2Z.id.
  rewrite <- (Permutation_length (order_by_perm _ row_frag (frags db))).
  apply firstn_all.
Qed.

Lemma shards_export_every_row_once_witness :
  exists shard_list,
    snd (assign_seqs_to_shards pairs_db two_shards) = Ok shard_list
    /\ concat (map (fun s => select_rows pairs_db (fst s) (snd s)) shard_list)
       = order_by row_frag (frags pairs_db).
Proof.
  apply (shards_export_every_row_once pairs_db two_shards).
  - vm_compute. split; [discriminate|reflexivity].
  - vm_compute. discriminate.
Defined.

(** ** A run starts afresh *)

Lemma adjust_frags : forall db db' st i,
  frags db = frags db' -> adjust db st i = adjust db' st i.
Proof.
  intros db db' st i E. unfold adjust, select_frag. rewrite E. reflexivity.
Qed.

Lemma adjust_loop_frags : forall range db db' st,
  frags db = frags db' ->
  snd (adjust_loop db range st) = snd (adjust_loop db' range st).
Proof.
  induction range as [|i range IH]; intros db db' st E; [reflexivity|].
  cbn [adjust_loop]. rewrite (adjust_frags db db' st i E).
  destruct (adjust db' st i) as [st1|e]; [|reflexivity].
  apply IH. exact E.
Qed.

Lemma assign_frags : forall db db' cfg,
  frags db = frags db' ->
  snd (assign_seqs_to_shards db cfg) = snd (assign_seqs_to_shards db' cfg).
Proof.
  intros db db' cfg E. unfold assign_seqs_to_shards. rewrite E.
  destruct (linspace _ _) as [offsets0|e]; [|reflexivity].
  match goal with
  | |- snd match adjust_loop ?d ?r ?s with _ => _ end
       = snd match adjust_loop ?d' _ _ with _ => _ end =>
      pose proof (adjust_loop_frags r d d' s E) as L;
      destruct (adjust_loop d r s) as [a [x|x]];
      destruct (adjust_loop d' r s) as [a' [x'|x']]
  end; cbn [snd] in L; try discriminate.
  - injection L as <-. destruct (connection x); reflexivity.
  - injection L as <-. reflexivity.
Qed.

(** X12. A run of the main program starts from an empty table: whatever
    the database file held before, the table afterwards holds the records
    of the input files and nothing else, the index exists, and the shard
    list (or the exception) is the same. *)
Theorem main_ignores_old_rows :
  forall (CONFIG : config) (file1 file2 : database),
    frags (fst (main CONFIG file1))
    = map store_rec (flat_map records (sra_files CONFIG))
    /\ frags (fst (main CONFIG file1)) = frags (fst (main CONFIG file2))
    /\ frag_index (fst (main CONFIG file1)) = true
    /\ snd (main CONFIG file1) = snd (main CONFIG file2).
Proof.
  intros CONFIG file1 file2.
  assert (F : forall file,
             frags (fst (main CONFIG file))
             = map store_rec (flat_map records (sra_files CONFIG))
             /\ frag_index (fst (main CONFIG file)) = true).
  { intros file. unfold main.
    destruct (queries_assign
                (create_index
                   (load_seqs (create_table (connect_db file)) CONFIG))
                CONFIG) as (log & _ & _ & Fr & Ix).
    rewrite Fr, Ix. cbn [create_index frags frag_index].
    unfold load_seqs. rewrite frags_load_files. auto. }
  destruct (F file1) as [F1 I1]. destruct (F file2) as [F2 _].
  split; [exact F1|]. split; [congruence|]. split; [exact I1|].
  unfold main. apply assign_frags. cbn [create_index frags].
  unfold load_seqs. rewrite !frags_load_files. reflexivity.
Qed.

(** ** The files of the shards *)

Lemma to_uint_nonnil : forall n, Nat.to_uint n <> Decimal.Nil.
Proof.
  intros n E. pose proof (DecimalNat.Unsigned.to_of (Nat.to_uint n)) as H.
  rewrite DecimalNat.Unsigned.of_to, E in H. discriminate.
Qed.

Lemma iter_D0_nonnil : forall k d,
  d <> Decimal.Nil -> Nat.iter k Decimal.D0 d <> Decimal.Nil.
Proof.
  intros [|k] d H; [exact H|]. cbn. discriminate.
Qed.

Lemma digits_zero_fill : forall k d,
  d <> Decimal.Nil ->
  txt (NilZero.string_of_uint (Nat.iter k Decimal.D0 d))
  = repeat ZERO k ++ txt (NilZero.string_of_uint d).
Proof.
  induction k as [|k IH]; intros d H; [reflexivity|].
  cbn [repeat app]. rewrite <- (IH d H).
  pose proof (iter_D0_nonnil k d H) as N.
  change (Nat.iter (S k) Decimal.D0 d)
    with (Decimal.D0 (Nat.iter k Decimal.D0 d)).
  destruct (Nat.iter k Decimal.D0 d); [congruence| reflexivity ..].
Qed.

Lemma txt_inj : forall a b : string, txt a = txt b -> a = b.
Proof.
  intros a b E. unfold txt in E.
  rewrite <- (string_of_list_ascii_of_string a),
          <- (string_of_list_ascii_of_string b), E. reflexivity.
Qed.

Lemma zero_fill_inj : forall ki kj i j,
  repeat ZERO ki ++ format_d i = repeat ZERO kj ++ format_d j -> i = j.
Proof.
  intros ki kj i j E. unfold format_d in E.
  rewrite <- !digits_zero_fill in E by apply to_uint_nonnil.
  apply txt_inj in E.
  apply (f_equal NilZero.uint_of_string) in E.
  rewrite !NilZero.usu in E by (apply iter_D0_nonnil, to_uint_nonnil).
  injection E as E. apply (f_equal Decimal.unorm) in E.
  rewrite !DecimalFacts.unorm_iter_D0 in E.
  apply (f_equal Nat.of_uint) in E.
  rewrite !DecimalNat.Unsigned.of_uint_norm, !DecimalNat.Unsigned.of_to in E.
  exact E.
Qed.

Lemma format_d_inj : forall i j, format_d i = format_d j -> i = j.
Proof. intros i j E. apply (zero_fill_inj 0 0 i j). exact E. Qed.

Lemma format_03d_inj : forall i j, format_03d i = format_03d j -> i = j.
Proof. intros i j E. unfold format_03d in E. exact (zero_fill_inj _ _ i j E). Qed.

Lemma join_shape : forall a b c,
  startswith_sep b = startswith_sep c ->
  exists prefix, join a b = prefix ++ b /\ join a c = prefix ++ c.
Proof.
  intros a b c E. unfold join. rewrite <- E.
  destruct (startswith_sep b); [exists []; split; reflexivity|].
  destruct (negb (nonempty a) || endswith_sep a).
  - exists a. split; reflexivity.
  - exists (a ++ [SLASH]). rewrite <- !app_assoc. split; reflexivity.
Qed.

Lemma fasta_name_start : forall exe_name i j,
  startswith_sep (fasta_name exe_name i)
  = startswith_sep (fasta_name exe_name j).
Proof. intros [|c e] i j; reflexivity. Qed.

Lemma enumerate_indexes : forall (A : Type) start (l : list A),
  map fst (enumerate start l) = List.seq start (length l).
Proof.
  intros A start l. unfold enumerate.
  assert (G : forall (xs : list nat), length xs = length l ->
              map fst (combine xs l) = xs).
  { induction l as [|x l IH]; intros [|y ys] L; cbn in *; try discriminate;
      [reflexivity|]. f_equal. apply IH. lia. }
  apply G, length_seq.
Qed.

(** X13. No two shards of a run of [format_sra.py] share an export file:
    the workers get the indexes 0, 1, 2, ... of the shard list, each once,
    and the name of the FASTA file determines the index. *)
Theorem fasta_files_distinct :
  forall (blast_db : text) (shard_list : list shard),
    NoDup (map fst (enumerate 0 shard_list))
    /\ forall i j,
         fasta_file_name blast_db i = fasta_file_name blast_db j -> i = j.
Proof.
  intros blast_db shard_list. split.
  - rewrite enumerate_indexes. apply seq_NoDup.
  - intros i j E. unfold fasta_file_name in E.
    apply app_inv_head in E. apply app_inv_head in E.
    apply app_inv_tail in E. apply format_d_inj in E. lia.
Qed.

(** X14. No two shards of a run of [atram_preprocessor.py] share a blast
    database name or a temporary FASTA path, whatever the prefix, the
    temporary directory and the name of the program: the workers get the
    indexes 1, 2, 3, ... each once, and each of the two names determines
    the index, beyond 999 shards too. *)
Theorem shard_paths_distinct :
  forall (blast_db temp_dir exe_name : text) (shard_list : list (text * text)),
    NoDup (map fst (enumerate 1 shard_list))
    /\ (forall i j, shard_name blast_db i = shard_name blast_db j -> i = j)
    /\ (forall i j,
          fasta_path temp_dir exe_name i = fasta_path temp_dir exe_name j ->
          i = j).
Proof.
  intros blast_db temp_dir exe_name shard_list. split; [|split].
  - rewrite enumerate_indexes. apply seq_NoDup.
  - intros i j E. unfold shard_name in E.
    apply app_inv_head in E. injection E as E.
    apply app_inv_tail in E. apply format_03d_inj. exact E.
  - intros i j E. unfold fasta_path in E.
    destruct (join_shape temp_dir _ _ (fasta_name_start exe_name i j))
      as (prefix & E1 & E2).
    rewrite E1, E2 in E. apply app_inv_head in E. unfold fasta_name in E.
    apply app_inv_head in E. injection E as E.
    apply app_inv_tail in E. apply format_03d_inj. exact E.
Qed.

(** ** The partitioner of the preprocessor *)

Lemma comprehension_map :
  forall (A B : Type) (f : A -> Preprocessor.outcome B) (g : A -> B) l,
    (forall x, In x l -> f x = Preprocessor.Returns (g x)) ->
    Preprocessor.comprehension f l = Preprocessor.Returns (map g l).
Proof.
  intros A B f g. induction l as [|x l IH]; intros H; [reflexivity|].
  cbn [Preprocessor.comprehension map].
  rewrite (H x (or_introl eq_refl)), IH; [reflexivity|].
  intros y Hy. apply H. right. exact Hy.
Qed.

Lemma cut_offset_near : forall total n k,
  (1 <= total)%Z -> (1 <= n)%Z -> in_range (total - 1) n ->
  (Z.of_nat k <= n)%Z ->
  near (total - 1) n (Z.of_nat k) (cut_offset total n k).
Proof.
  intros total n k Ht Hn Hb Hk. unfold cut_offset.
  destruct (Z.eqb_spec (Z.of_nat k) n) as [E|E].
  - rewrite E. apply near_end. lia.
  - apply sample_is_near; try assumption; lia.
Qed.

Lemma cut_offset_first : forall total n,
  (1 <= n)%Z -> cut_offset total n 0 = 0%Z.
Proof.
  intros total n Hn. unfold cut_offset.
  destruct (Z.eqb_spec (Z.of_nat 0) n); [lia|apply sample_zero_index].
Qed.

Lemma cut_offset_last : forall total n,
  (1 <= n)%Z -> cut_offset total n (Z.to_nat n) = (total - 1)%Z.
Proof.
  intros total n Hn. unfold cut_offset. rewrite Z2Nat.id by lia.
  rewrite Z.eqb_refl. reflexivity.
Qed.

Lemma cut_offset_step : forall total n k,
  (1 <= total)%Z -> (1 <= n)%Z -> in_range (total - 1) n ->
  (Z.of_nat (S k) <= n)%Z ->
  (cut_offset total n k <= cut_offset total n (S k))%Z.
Proof.
  intros total n k Ht Hn Hb Hk.
  pose proof (near_step (total - 1) n (Z.of_nat k)
                (cut_offset total n k) (cut_offset total n (S k))
                ltac:(lia) ltac:(lia) ltac:(lia)) as G.
  assert (0 <= (total - 1) / n)%Z by (apply Z.div_pos; lia).
  destruct G; [| |lia].
  - apply cut_offset_near; try assumption. lia.
  - replace (Z.of_nat k + 1)%Z with (Z.of_nat (S k)) by lia.
    apply cut_offset_near; assumption.
Qed.

Lemma cut_offset_mono : forall total n j k,
  (1 <= total)%Z -> (1 <= n)%Z -> in_range (total - 1) n ->
  j <= k -> (Z.of_nat k <= n)%Z ->
  (cut_offset total n j <= cut_offset total n k)%Z.
Proof.
  intros total n j k Ht Hn Hb Hjk. induction Hjk as [|k Hjk IH]; intros Hk.
  - lia.
  - pose proof (cut_offset_step total n k Ht Hn Hb Hk).
    specialize (IH ltac:(lia)). lia.
Qed.

Lemma cut_offset_range : forall total n k,
  (1 <= total)%Z -> (1 <= n)%Z -> in_range (total - 1) n ->
  (Z.of_nat k <= n)%Z ->
  (0 <= cut_offset total n k <= total - 1)%Z.
Proof.
  intros total n k Ht Hn Hb Hk. split.
  - rewrite <- (cut_offset_first total n Hn).
    apply cut_offset_mono; try assumption. lia.
  - rewrite <- (cut_offset_last total n Hn).
    apply cut_offset_mono; try assumption; lia.
Qed.

Lemma linspace_cut_offsets : forall total n,
  (1 <= n)%Z -> (Z.abs (total - 1) < 2 ^ 53)%Z ->
  linspace (total - 1) (n + 1)
  = Ok (map (cut_offset total n) (List.seq 0 (S (Z.to_nat n)))).
Proof.
  intros total n Hn Ht. unfold linspace.
  destruct (Z.ltb_spec (n + 1) 0); [lia|].
  destruct (Z.eqb_spec (n + 1) 0); [lia|].
  destruct (Z.eqb_spec (n + 1) 1); [lia|].
  replace (n + 1 - 1)%Z with n by lia.
  replace (Z.to_nat (n + 1) - 1) with (Z.to_nat n) by lia.
  rewrite seq_S, map_app. cbn [map Nat.add].
  rewrite cut_offset_last by exact Hn.
  rewrite of_int_small by exact Ht. unfold ffloor. cbn [fst snd].
  rewrite Z.div_1_r. do 2 f_equal.
  apply map_ext_in. intros k Hk. apply in_seq in Hk. unfold cut_offset.
  destruct (Z.eqb_spec (Z.of_nat k) n); [lia|reflexivity].
Qed.

(** The pairs of [N + 1] cuts [h 0 .. h N], the last one with its [z]. *)
Lemma pairs_nth : forall (h : nat -> text) N k,
  k < N ->
  nth k (Preprocessor.pairs (map h (List.seq 0 N) ++ [h N ++ txt "z"])) no_pair
  = (h k, if S k <? N then h (S k) else h N ++ txt "z").
Proof.
  intros h N k Hk. unfold Preprocessor.pairs.
  rewrite length_app, length_map, length_seq. cbn [length].
  replace (N + 1 - 1) with N by lia.
  set (cuts := map h (List.seq 0 N) ++ [h N ++ txt "z"]).
  rewrite (nth_indep _ no_pair
             ((fun i => (nth (i - 1) cuts [], nth i cuts [])) 0))
    by (rewrite length_map, length_seq; exact Hk).
  rewrite (map_nth (fun i => (nth (i - 1) cuts [], nth i cuts []))).
  rewrite seq_nth by exact Hk.
  replace (1 + k - 1) with k by lia. cbn [Nat.add].
  assert (G : forall i, i < N -> nth i cuts [] = h i).
  { intros i Hi. unfold cuts.
    rewrite app_nth1 by (rewrite length_map, length_seq; exact Hi).
    rewrite (nth_indep _ [] (h 0))
      by (rewrite length_map, length_seq; exact Hi).
    rewrite (map_nth h), seq_nth by exact Hi. reflexivity. }
  rewrite (G k Hk). f_equal.
  destruct (Nat.ltb_spec (S k) N) as [L|L]; [apply G, L|].
  assert (S k = N) as -> by lia. unfold cuts.
  rewrite app_nth2 by (rewrite length_map, length_seq; lia).
  rewrite length_map, length_seq, Nat.sub_diag. reflexivity.
Qed.

Lemma pairs_length : forall (h : nat -> text) N,
  length (Preprocessor.pairs (map h (List.seq 0 N) ++ [h N ++ txt "z"])) = N.
Proof.
  intros h N. unfold Preprocessor.pairs.
  rewrite length_map, length_seq, length_app, length_map, length_seq.
  cbn [length]. lia.
Qed.

Lemma assign_cuts :
  forall (cxn : Type) (count : cxn -> Z)
         (cut : cxn -> Z -> Preprocessor.outcome text)
         (c : cxn) (shard_count : Z) (name : Z -> text),
    (1 <= count c)%Z -> (1 <= shard_count)%Z ->
    in_range (count c - 1) shard_count ->
    (forall o, (0 <= o < count c)%Z -> cut c o = Preprocessor.Returns (name o)) ->
    Preprocessor.assign_seqs_to_shards count cut c shard_count
    = Preprocessor.Returns
        (Preprocessor.pairs
           (map (fun k => name (cut_offset (count c) shard_count k))
                (List.seq 0 (Z.to_nat shard_count))
            ++ [name (cut_offset (count c) shard_count (Z.to_nat shard_count))
                ++ txt "z"])).
Proof.
  intros cxn count cut c n name Ht Hn Hb Hcut.
  unfold Preprocessor.assign_seqs_to_shards.
  rewrite (linspace_cut_offsets (count c) n Hn
             (in_range_small (count c - 1) n ltac:(lia) Hn Hb)).
  rewrite (comprehension_map Z text (cut c) name).
  - rewrite map_map, seq_S, map_app, rev_app_distr. cbn [map rev app Nat.add].
    rewrite rev_involutive. reflexivity.
  - intros o Ho. apply in_map_iff in Ho. destruct Ho as (k & <- & Hk).
    apply in_seq in Hk. apply Hcut.
    pose proof (cut_offset_range (count c) n k Ht Hn Hb). lia.
Qed.

(** X15. With at least one sequence, at least one shard and the product
    of the two counts up to 2^51, the partitioner of
    [atram_preprocessor.py] asks for the names at offsets inside the
    table only and returns one pair of names for each shard: the lower
    bound of shard [k] is the name at the offset of rank [k] of
    [np.linspace], which is [k * (total - 1) / shard_count] cut down, or
    one below where that quotient is an integer, the first at offset 0;
    the upper bound of a shard is the lower bound of the next one; the
    upper bound of the last shard is the last name of the table followed
    by [z]. *)
Theorem preprocessor_shard_bounds :
  forall (cxn : Type) (count : cxn -> Z)
         (cut : cxn -> Z -> Preprocessor.outcome text)
         (c : cxn) (shard_count : Z) (name : Z -> text),
    (1 <= count c)%Z -> (1 <= shard_count)%Z ->
    in_range (count c - 1) shard_count ->
    (forall o, (0 <= o < count c)%Z -> cut c o = Preprocessor.Returns (name o)) ->
    exists shard_list,
      Preprocessor.assign_seqs_to_shards count cut c shard_count
      = Preprocessor.Returns shard_list
      /\ Z.of_nat (length shard_list) = shard_count
      /\ (forall k, (Z.of_nat k < shard_count)%Z ->
            fst (nth k shard_list no_pair)
            = name (cut_offset (count c) shard_count k)
            /\ near (count c - 1) shard_count (Z.of_nat k)
                    (cut_offset (count c) shard_count k)
            /\ (0 <= cut_offset (count c) shard_count k < count c)%Z)
      /\ fst (nth 0 shard_list no_pair) = name 0%Z
      /\ (forall k, (Z.of_nat (S k) < shard_count)%Z ->
            snd (nth k shard_list no_pair)
            = fst (nth (S k) shard_list no_pair))
      /\ snd (last shard_list no_pair) = name (count c - 1)%Z ++ txt "z".
Proof.
  intros cxn count cut c n name Ht Hn Hb Hcut.
  eexists. split; [apply (assign_cuts cxn count cut c n name Ht Hn Hb Hcut)|].
  set (h := fun k => name (cut_offset (count c) n k)).
  change (name (cut_offset (count c) n (Z.to_nat n))) with (h (Z.to_nat n)).
  set (N := Z.to_nat n).
  assert (F : forall k, (Z.of_nat k < n)%Z ->
            fst (nth k (Preprocessor.pairs
                          (map h (List.seq 0 N) ++ [h N ++ txt "z"])) no_pair)
            = h k).
  { intros k Hk. rewrite pairs_nth by (unfold N; lia). reflexivity. }
  split; [rewrite pairs_length; unfold N; lia|].
  split.
  { intros k Hk. split; [exact (F k Hk)|]. split.
    - apply cut_offset_near; try assumption. lia.
    - pose proof (cut_offset_range (count c) n k Ht Hn Hb). lia. }
  split.
  { rewrite F by lia. unfold h. rewrite cut_offset_first by exact Hn.
    reflexivity. }
  split.
  - intros k Hk. rewrite F by exact Hk.
    rewrite pairs_nth by (unfold N; lia).
    destruct (Nat.ltb_spec (S k) N); [reflexivity|unfold N in *; lia].
  - set (l := Preprocessor.pairs _).
    assert (L : length l = N) by apply pairs_length.
    assert (E : last l no_pair = nth (N - 1) l no_pair).
    { destruct (exists_last (l := l)) as (l' & x & E).
      { intros E. rewrite E in L. cbn in L. unfold N in L. lia. }
      rewrite E in L |- *. rewrite last_last.
      rewrite length_app in L. cbn [length] in L.
      rewrite app_nth2 by lia.
      replace (N - 1 - length l') with 0 by lia. reflexivity. }
    rewrite E. unfold l. rewrite pairs_nth by (unfold N; lia).
    destruct (Nat.ltb_spec (S (N - 1)) N); [lia|]. cbn [snd].
    unfold h, N. rewrite cut_offset_last by exact Hn. reflexivity.
Qed.

Lemma five_names_cut : forall o,
  (0 <= o < names_count five_names)%Z ->
  names_cut five_names o
  = Preprocessor.Returns (nth (Z.to_nat o) five_names []).
Proof.
  intros o Ho. change (names_count five_names) with 5%Z in Ho.
  assert (C : (o = 0 \/ o = 1 \/ o = 2 \/ o = 3 \/ o = 4)%Z) by lia.
  destruct C as [-> | [-> | [-> | [-> | ->]]]]; reflexivity.
Qed.

Lemma preprocessor_shard_bounds_witness :
  exists shard_list,
    Preprocessor.assign_seqs_to_shards names_count names_cut five_names 2
    = Preprocessor.Returns shard_list
    /\ Z.of_nat (length shard_list) = 2%Z
    /\ (forall k, (Z.of_nat k < 2)%Z ->
          fst (nth k shard_list no_pair)
          = nth (Z.to_nat (cut_offset (names_count five_names) 2 k))
                five_names []
          /\ near (names_count five_names - 1) 2 (Z.of_nat k)
                  (cut_offset (names_count five_names) 2 k)
          /\ (0 <= cut_offset (names_count five_names) 2 k
               < names_count five_names)%Z)
    /\ fst (nth 0 shard_list no_pair) = nth (Z.to_nat 0) five_names []
    /\ (forall k, (Z.of_nat (S k) < 2)%Z ->
          snd (nth k shard_list no_pair)
          = fst (nth (S k) shard_list no_pair))
    /\ snd (last shard_list no_pair)
       = nth (Z.to_nat (names_count five_names - 1)) five_names []
         ++ txt "z".
Proof.
  apply (preprocessor_shard_bounds (list text) names_count names_cut
           five_names 2 (fun o => nth (Z.to_nat o) five_names [])).
  - vm_compute. discriminate.
  - lia.
  - vm_compute. discriminate.
  - exact five_names_cut.
Defined.

Lemma lex_leb_prefix : forall a b, lex_leb a (a ++ b) = true.
Proof.
  induction a as [|x a IH]; intros b; [reflexivity|].
  cbn [app lex_leb]. rewrite N.ltb_irrefl, N.eqb_refl. apply IH.
Qed.

Lemma lex_lt_longer : forall a x b, lex_lt a (a ++ x :: b).
Proof.
  unfold lex_lt. induction a as [|y a IH]; intros x b; [reflexivity|].
  cbn [app lex_leb]. rewrite N.ltb_irrefl, N.eqb_refl. apply IH.
Qed.

Lemma lex_le_lt_trans : forall a b c, lex_le a b -> lex_lt b c -> lex_lt a c.
Proof.
  unfold lex_le, lex_lt. intros a b c H1 H2.
  destruct (lex_leb c a) eqn:E; [|reflexivity].
  rewrite (lex_leb_trans c a b E H1) in H2. discriminate.
Qed.

(** X16. When the names come in their order, and with the product of
    the two counts up to 2^51, the bounds that the
    partitioner of [atram_preprocessor.py] returns are in order too: no
    shard has its lower bound after its upper bound, no name of the table
    is before the first lower bound, and every name, the last one
    included, is strictly before the last upper bound. *)
Theorem preprocessor_bounds_ordered :
  forall (cxn : Type) (count : cxn -> Z)
         (cut : cxn -> Z -> Preprocessor.outcome text)
         (c : cxn) (shard_count : Z) (name : Z -> text),
    (1 <= count c)%Z -> (1 <= shard_count)%Z ->
    in_range (count c - 1) shard_count ->
    (forall o, (0 <= o < count c)%Z -> cut c o = Preprocessor.Returns (name o)) ->
    (forall a b, (0 <= a <= b)%Z -> (b < count c)%Z ->
                 lex_le (name a) (name b)) ->
    exists shard_list,
      Preprocessor.assign_seqs_to_shards count cut c shard_count
      = Preprocessor.Returns shard_list
      /\ (forall p, In p shard_list -> lex_le (fst p) (snd p))
      /\ (forall o, (0 <= o < count c)%Z ->
            lex_le (fst (nth 0 shard_list no_pair)) (name o)
            /\ lex_lt (name o) (snd (last shard_list no_pair))).
Proof.
  intros cxn count cut c n name Ht Hn Hb Hcut Hord.
  eexists. split; [apply (assign_cuts cxn count cut c n name Ht Hn Hb Hcut)|].
  set (h := fun k => name (cut_offset (count c) n k)).
  change (name (cut_offset (count c) n (Z.to_nat n))) with (h (Z.to_nat n)).
  set (N := Z.to_nat n).
  set (l := Preprocessor.pairs (map h (List.seq 0 N) ++ [h N ++ txt "z"])).
  assert (L : length l = N) by apply pairs_length.
  assert (M : forall j k, j <= k -> k <= N -> lex_le (h j) (h k)).
  { intros j k Hjk Hk. unfold h.
    pose proof (cut_offset_range (count c) n j Ht Hn Hb).
    pose proof (cut_offset_range (count c) n k Ht Hn Hb).
    pose proof (cut_offset_mono (count c) n j k Ht Hn Hb Hjk).
    apply Hord; unfold N in *; lia. }
  assert (HN : h N = name (count c - 1)%Z).
  { unfold h, N. rewrite cut_offset_last by exact Hn. reflexivity. }
  split.
  - intros p Hp. destruct (In_nth l p no_pair Hp) as (k & Hk & <-).
    rewrite L in Hk. unfold l. rewrite pairs_nth by exact Hk. cbn [fst snd].
    destruct (Nat.ltb_spec (S k) N); [apply M; lia|].
    unfold lex_le. apply (lex_leb_trans _ (h N)); [apply M; lia|].
    apply lex_leb_prefix.
  - intros o Ho. split.
    + unfold l. rewrite pairs_nth by (unfold N; lia). cbn [fst].
      unfold h. rewrite cut_offset_first by exact Hn.
      apply Hord; lia.
    + assert (E : last l no_pair = nth (N - 1) l no_pair).
      { destruct (exists_last (l := l)) as (l' & x & E).
        { intros E. rewrite E in L. cbn in L. unfold N in L. lia. }
        rewrite E in L |- *. rewrite last_last.
        rewrite length_app in L. cbn [length] in L.
        rewrite app_nth2 by lia.
        replace (N - 1 - length l') with 0 by lia. reflexivity. }
      rewrite E. unfold l. rewrite pairs_nth by (unfold N; lia).
      destruct (Nat.ltb_spec (S (N - 1)) N); [lia|]. cbn [snd].
      apply (lex_le_lt_trans _ (h N)).
      * rewrite HN. apply Hord; lia.
      * apply lex_lt_longer.
Qed.

Lemma preprocessor_bounds_ordered_witness :
  exists shard_list,
    Preprocessor.assign_seqs_to_shards names_count names_cut five_names 2
    = Preprocessor.Returns shard_list
    /\ (forall p, In p shard_list -> lex_le (fst p) (snd p))
    /\ (forall o, (0 <= o < names_count five_names)%Z ->
          lex_le (fst (nth 0 shard_list no_pair))
                 (nth (Z.to_nat o) five_names [])
          /\ lex_lt (nth (Z.to_nat o) five_names [])
                    (snd (last shard_list no_pair))).
Proof.
  apply (preprocessor_bounds_ordered (list text) names_count names_cut
           five_names 2 (fun o => nth (Z.to_nat o) five_names [])).
  - vm_compute. discriminate.
  - lia.
  - vm_compute. discriminate.
  - exact five_names_cut.
  - intros a b Ha Hb. change (names_count five_names) with 5%Z in Hb.
    assert (Ca : (a = 0 \/ a = 1 \/ a = 2 \/ a = 3 \/ a = 4)%Z) by lia.
    assert (Cb : (b = 0 \/ b = 1 \/ b = 2 \/ b = 3 \/ b = 4)%Z) by lia.
    destruct Ca as [-> | [-> | [-> | [-> | ->]]]];
      destruct Cb as [-> | [-> | [-> | [-> | ->]]]];
      try reflexivity; lia.
Defined.

(** X17. With a shard count below one the partitioner of
    [atram_preprocessor.py] makes no shard: below -1 [np.linspace]
    refuses the number of samples, at -1 no name is asked for and
    [cuts[-1]] raises [IndexError], and at 0 the name at offset 0 is
    asked for and then dropped, and the empty list is returned without
    any error. *)
Theorem preprocessor_no_shard :
  forall (cxn : Type) (count : cxn -> Z)
         (cut : cxn -> Z -> Preprocessor.outcome text)
         (c : cxn) (shard_count : Z),
    (shard_count <= 0)%Z ->
    Preprocessor.assign_seqs_to_shards count cut c shard_count
    = if (shard_count <? -1)%Z
      then Preprocessor.Raises (Preprocessor.Other ValueError)
      else if (shard_count =? -1)%Z
      then Preprocessor.Raises Preprocessor.IndexError
      else match cut c 0%Z with
           | Preprocessor.Returns _ => Preprocessor.Returns []
           | Preprocessor.Raises r => Preprocessor.Raises r
           end.
Proof.
  intros cxn count cut c n Hn. unfold Preprocessor.assign_seqs_to_shards.
  destruct (Z.ltb_spec n (-1)) as [H1|H1].
  - unfold linspace. destruct (Z.ltb_spec (n + 1) 0); [reflexivity|lia].
  - destruct (Z.eqb_spec n (-1)) as [->|H2]; [reflexivity|].
    assert (n = 0%Z) as -> by lia.
    change (linspace (count c - 1) (0 + 1)) with (Ok [0%Z]).
    cbn [Preprocessor.comprehension].
    destruct (cut c 0%Z); reflexivity.
Qed.

Lemma preprocessor_no_shard_witness :
  Preprocessor.assign_seqs_to_shards names_count names_cut five_names 0
  = Preprocessor.Returns [].
Proof.
  apply (preprocessor_no_shard (list text) names_count names_cut
           five_names 0).
  lia.
Defined.

(** ** The loader of the preprocessor *)

Lemma load_rec_batches :
  forall (cxn : Type) (B : Z) (insert : cxn -> list row -> cxn)
         (parse : text -> text -> text -> text * text) (ends clamp : text)
         (rs : list (text * text)) (c : cxn) (batch : list row),
    (Z.of_nat (length batch) < B)%Z ->
    exists batches rest,
      fold_left (Preprocessor.load_rec B insert parse ends clamp) rs
                (c, batch)
      = (fold_left insert batches c, rest)
      /\ concat batches ++ rest
         = batch ++ map (title_row parse ends clamp) rs
      /\ Forall (fun b => Z.of_nat (length b) = B) batches
      /\ (Z.of_nat (length rest) < B)%Z.
Proof.
  intros cxn B insert parse ends clamp.
  induction rs as [|r rs IH]; intros c batch Hb.
  - exists [], batch. cbn. rewrite app_nil_r. auto.
  - cbn [fold_left map].
    assert (E : Preprocessor.load_rec B insert parse ends clamp (c, batch) r
                = let batch1 := batch ++ [title_row parse ends clamp r] in
                  if (B <=? Z.of_nat (length batch1))%Z
                  then (insert c batch1, []) else (c, batch1)).
    { unfold Preprocessor.load_rec, title_row.
      destruct (parse (strip (fst r)) ends clamp); reflexivity. }
    rewrite E. cbv zeta.
    set (batch1 := batch ++ [title_row parse ends clamp r]).
    assert (L : length batch1 = S (length batch)).
    { unfold batch1. rewrite length_app. cbn [length]. lia. }
    destruct (Z.leb_spec B (Z.of_nat (length batch1))) as [Hfull|Hless].
    + destruct (IH (insert c batch1) []) as (bs & rest & F & C & A & R);
        [cbn [length]; lia|].
      exists (batch1 :: bs), rest. cbn [fold_left concat].
      split; [exact F|]. split.
      * rewrite <- app_assoc, C. unfold batch1. cbn [app].
        rewrite <- app_assoc. reflexivity.
      * split; [constructor; [lia|exact A]|exact R].
    + destruct (IH c batch1 Hless) as (bs & rest & F & C & A & R).
      exists bs, rest. split; [exact F|]. split; [|auto].
      rewrite C. unfold batch1. rewrite <- app_assoc. reflexivity.
Qed.

(** X18. With a batch size of at least one, [load_one_file] hands the
    records of the file to [db.insert_sequences_batch] in their order,
    each once, in batches of exactly the batch size; what is left at the
    end of the file, fewer records than a batch and possibly none, is
    inserted by a last call. When the parser raises, the batches that
    were full are in the database and the records read after the last
    full batch are dropped without being inserted. *)
Theorem load_one_file_batches :
  forall (cxn : Type) (B : Z) (insert : cxn -> list row -> cxn)
         (parse : text -> text -> text -> text * text)
         (fq fa : text -> list (text * text) * option Preprocessor.raised)
         (c : cxn) (file_name ends clamp : text)
         (recs : list (text * text))
         (raised_by_parser : option Preprocessor.raised),
    (1 <= B)%Z ->
    Preprocessor.parser fq fa file_name file_name = (recs, raised_by_parser) ->
    exists batches rest,
      Preprocessor.load_one_file B insert parse fq fa c file_name ends clamp
      = match raised_by_parser with
        | None => (insert (fold_left insert batches c) rest,
                   Preprocessor.Returns tt)
        | Some r => (fold_left insert batches c, Preprocessor.Raises r)
        end
      /\ concat batches ++ rest = map (title_row parse ends clamp) recs
      /\ Forall (fun b => Z.of_nat (length b) = B) batches
      /\ (Z.of_nat (length rest) < B)%Z.
Proof.
  intros cxn B insert parse fq fa c file_name ends clamp recs raised HB HP.
  destruct (load_rec_batches cxn B insert parse ends clamp recs c [])
    as (bs & rest & F & C & A & R); [cbn [length]; lia|].
  exists bs, rest. unfold Preprocessor.load_one_file. rewrite HP, F.
  split; [destruct raised; reflexivity|]. auto.
Qed.

Lemma load_one_file_batches_witness :
  exists batches rest,
    Preprocessor.load_one_file 2 record_batch title_and_clamp
      three_reads three_reads [] (txt "a_1.fasta") (txt "end_1") (txt "1")
    = (record_batch (fold_left record_batch batches []) rest,
       Preprocessor.Returns tt)
    /\ concat batches ++ rest
       = map (title_row title_and_clamp (txt "end_1") (txt "1"))
             (fst (three_reads (txt "a_1.fasta")))
    /\ Forall (fun b => Z.of_nat (length b) = 2%Z) batches
    /\ (Z.of_nat (length rest) < 2)%Z.
Proof.
  apply (load_one_file_batches (list (list row)) 2 record_batch
           title_and_clamp three_reads three_reads [] (txt "a_1.fasta")
           (txt "end_1") (txt "1") (fst (three_reads (txt "a_1.fasta")))
           None).
  - lia.
  - reflexivity.
Defined.

Lemma for_each_files :
  forall (cxn : Type) (B : Z) (insert : cxn -> list row -> cxn)
         (parse : text -> text -> text -> text * text)
         (fq fa : text -> list (text * text) * option Preprocessor.raised)
         (recs_of : text -> list (text * text)) (ends clamp : text)
         (files : list text) (c : cxn),
    (1 <= B)%Z ->
    (forall f, In f files ->
               Preprocessor.parser fq fa f f = (recs_of f, None)) ->
    exists batches,
      Preprocessor.for_each
        (fun c file_name =>
           Preprocessor.load_one_file B insert parse fq fa c file_name
                                      ends clamp)
        files c
      = (fold_left insert batches c, Preprocessor.Returns tt)
      /\ concat batches
         = flat_map (fun f => map (title_row parse ends clamp) (recs_of f))
                    files
      /\ Forall (fun b => (Z.of_nat (length b) <= B)%Z) batches.
Proof.
  intros cxn B insert parse fq fa recs_of ends clamp files.
  induction files as [|f files IH]; intros c HB HP.
  - exists []. cbn. auto.
  - cbn [Preprocessor.for_each flat_map].
    destruct (load_rec_batches cxn B insert parse ends clamp (recs_of f) c [])
      as (bs & rest & F & C & A & R); [cbn [length]; lia|].
    unfold Preprocessor.load_one_file at 1.
    rewrite (HP f (or_introl eq_refl)), F.
    destruct (IH (insert (fold_left insert bs c) rest) HB) as (bs' & F' & C' & A').
    { intros g Hg. apply HP. right. exact Hg. }
    exists (bs ++ rest :: bs'). rewrite F'.
    split; [rewrite fold_left_app; reflexivity|]. split.
    + rewrite concat_app. cbn [concat]. rewrite C', app_assoc, C.
      reflexivity.
    + apply Forall_app. split.
      * eapply Forall_impl; [|exact A]. cbv beta. intros b Hb. lia.
      * constructor; [lia|exact A'].
Qed.

Lemma not_given_no_files : forall files,
  Preprocessor.given files = false -> Preprocessor.files_of files = [].
Proof. intros [[|f l]|] H; [reflexivity|discriminate|reflexivity]. Qed.

Lemma all_files_groups : forall a,
  Preprocessor.all_files a
  = Preprocessor.files_of (Preprocessor.mixed_ends a)
    ++ Preprocessor.files_of (Preprocessor.end_1 a)
    ++ Preprocessor.files_of (Preprocessor.end_2 a)
    ++ Preprocessor.files_of (Preprocessor.single_ends a).
Proof.
  intros a. unfold Preprocessor.all_files. cbn [fold_left].
  assert (G : forall all files,
             (if Preprocessor.given files
              then all ++ Preprocessor.files_of files else all)
             = all ++ Preprocessor.files_of files).
  { intros all files. destruct (Preprocessor.given files) eqn:E;
      [reflexivity|].
    rewrite (not_given_no_files files E), app_nil_r. reflexivity. }
  rewrite !G. cbn [app]. rewrite <- !app_assoc. reflexivity.
Qed.

(** X19. When no parser raises, [load_seqs] of [atram_preprocessor.py]
    inserts every record of every file of the command line once: the
    batches handed to [db.insert_sequences_batch], put end to end, are the
    records of the files in the order mixed ends, end 1, end 2, single
    ends, those of the end 1 files parsed with the clamp [1] and those of
    the end 2 files with [2]; the files are those of [all_files] in
    [parse_command_line], in that order, and no batch is larger than the
    batch size. *)
Theorem load_seqs_every_record_once :
  forall (cxn : Type) (B : Z) (insert : cxn -> list row -> cxn)
         (parse : text -> text -> text -> text * text)
         (fq fa : text -> list (text * text) * option Preprocessor.raised)
         (recs_of : text -> list (text * text))
         (a : Preprocessor.args) (c : cxn),
    (1 <= B)%Z ->
    (forall f, In f (Preprocessor.all_files a) ->
               Preprocessor.parser fq fa f f = (recs_of f, None)) ->
    exists batches,
      Preprocessor.load_seqs B insert parse fq fa a c
      = (fold_left insert batches c, Preprocessor.Returns tt)
      /\ concat batches
         = flat_map (fun t => map (title_row parse (snd (fst t)) (snd t))
                                  (recs_of (fst (fst t))))
                    (tagged a)
      /\ map (fun t => fst (fst t)) (tagged a) = Preprocessor.all_files a
      /\ Forall (fun b => (Z.of_nat (length b) <= B)%Z) batches.
Proof.
  intros cxn B insert parse fq fa recs_of a c HB HP.
  rewrite all_files_groups in HP.
  assert (G : forall files ends clamp c0,
             (forall f, In f (Preprocessor.files_of files) ->
                        Preprocessor.parser fq fa f f = (recs_of f, None)) ->
             exists batches,
               (if Preprocessor.given files
                then Preprocessor.for_each
                       (fun c file_name =>
                          Preprocessor.load_one_file B insert parse fq fa c
                                                     file_name ends clamp)
                       (Preprocessor.files_of files) c0
                else (c0, Preprocessor.Returns tt))
               = (fold_left insert batches c0, Preprocessor.Returns tt)
               /\ concat batches
                  = flat_map
                      (fun t => map (title_row parse (snd (fst t)) (snd t))
                                    (recs_of (fst (fst t))))
                      (map (fun f => (f, ends, clamp))
                           (Preprocessor.files_of files))
               /\ Forall (fun b => (Z.of_nat (length b) <= B)%Z) batches).
  { intros files ends clamp c0 H.
    destruct (Preprocessor.given files) eqn:E.
    - destruct (for_each_files cxn B insert parse fq fa recs_of ends clamp
                  (Preprocessor.files_of files) c0 HB H) as (bs & F & C & A).
      exists bs. split; [exact F|]. split; [|exact A].
      rewrite C, flat_map_concat_map, flat_map_concat_map, map_map.
      reflexivity.
    - exists []. rewrite (not_given_no_files files E). cbn. auto. }
  unfold Preprocessor.load_seqs. cbn [Preprocessor.for_each].
  destruct (G (Preprocessor.mixed_ends a) (txt "mixed_ends") [] c)
    as (b1 & F1 & C1 & A1).
  { intros f Hf. apply HP. apply in_or_app. left. exact Hf. }
  rewrite F1.
  destruct (G (Preprocessor.end_1 a) (txt "end_1") (txt "1")
              (fold_left insert b1 c)) as (b2 & F2 & C2 & A2).
  { intros f Hf. apply HP. rewrite !in_app_iff. auto. }
  rewrite F2.
  destruct (G (Preprocessor.end_2 a) (txt "end_2") (txt "2")
              (fold_left insert b2 (fold_left insert b1 c)))
    as (b3 & F3 & C3 & A3).
  { intros f Hf. apply HP. rewrite !in_app_iff. auto. }
  rewrite F3.
  destruct (G (Preprocessor.single_ends a) (txt "single_ends") []
              (fold_left insert b3
                 (fold_left insert b2 (fold_left insert b1 c))))
    as (b4 & F4 & C4 & A4).
  { intros f Hf. apply HP. rewrite !in_app_iff. auto. }
  rewrite F4.
  exists (b1 ++ b2 ++ b3 ++ b4). split; [rewrite !fold_left_app; reflexivity|].
  split; [|split].
  - unfold tagged. rewrite !concat_app, !flat_map_app, C1, C2, C3, C4.
    reflexivity.
  - rewrite all_files_groups. unfold tagged.
    rewrite !map_app, !map_map. cbn [fst]. rewrite !map_id. reflexivity.
  - rewrite !Forall_app. auto.
Qed.

Lemma load_seqs_every_record_once_witness :
  exists batches,
    Preprocessor.load_seqs 2 record_batch title_and_clamp three_reads
      three_reads paired_args []
    = (fold_left record_batch batches [], Preprocessor.Returns tt)
    /\ concat batches
       = flat_map (fun t => map (title_row title_and_clamp (snd (fst t))
                                           (snd t))
                                (fst (three_reads (fst (fst t)))))
                  (tagged paired_args)
    /\ map (fun t => fst (fst t)) (tagged paired_args)
       = Preprocessor.all_files paired_args
    /\ Forall (fun b => (Z.of_nat (length b) <= 2)%Z) batches.
Proof.
  apply (load_seqs_every_record_once (list (list row)) 2 record_batch
           title_and_clamp three_reads three_reads
           (fun f => fst (three_reads f)) paired_args []).
  - lia.
  - intros f Hf. unfold Preprocessor.parser.
    destruct (Preprocessor.is_fastq f); reflexivity.
Defined.

Lemma lower_char_q : forall c,
  lower_char c = ascii_of_N 113 <-> c = ascii_of_N 113 \/ c = ascii_of_N 81.
Proof.
  intros [b0 b1 b2 b3 b4 b5 b6 b7];
    destruct b0, b1, b2, b3, b4, b5, b6, b7; vm_compute;
    (split; [intros H; try discriminate H; auto
            |intros [H|H]; try discriminate H; reflexivity]).
Qed.

(** X20. [load_one_file] chooses its parser by the last character of the
    file name alone: the FASTQ parser when it is [q] or [Q], the FASTA
    parser for every other name, the empty one and one of a compressed
    FASTQ file included. *)
Theorem parser_by_last_character :
  forall (fq fa : text -> list (text * text) * option Preprocessor.raised)
         (file_name : text),
    (Preprocessor.is_fastq file_name = true
     <-> exists stem c, file_name = stem ++ [c]
                        /\ (c = ascii_of_N 113 \/ c = ascii_of_N 81))
    /\ Preprocessor.parser fq fa file_name
       = (if Preprocessor.is_fastq file_name then fq else fa)
    /\ Preprocessor.is_fastq (txt "reads.fastq.gz") = false.
Proof.
  intros fq fa file_name. split; [|split; reflexivity].
  unfold Preprocessor.is_fastq, endswith.
  destruct (rev file_name) as [|c r] eqn:E.
  - apply (f_equal (@rev ascii)) in E. rewrite rev_involutive in E.
    cbn in E. subst. cbn. split; [discriminate|].
    intros (stem & c & H & _). destruct stem; discriminate.
  - apply (f_equal (@rev ascii)) in E. rewrite rev_involutive in E.
    cbn [rev] in E. subst file_name. unfold lower.
    change (txt "q") with [ascii_of_N 113].
    rewrite map_app, length_app, length_map. cbn [map length].
    replace (length (rev r) + 1 - 1) with (length (map lower_char (rev r)) + 0)
      by (rewrite length_map; lia).
    rewrite skipn_app, skipn_all2 by (rewrite length_map; lia).
    replace (length (map lower_char (rev r)) + 0
             - length (map lower_char (rev r))) with 0 by lia.
    cbn [skipn app].
    replace (1 <=? length (rev r) + 1) with true
      by (symmetry; apply Nat.leb_le; lia).
    cbn [andb]. rewrite text_eqb_eq. split.
    + intros H. exists (rev r), c. split; [reflexivity|].
      apply lower_char_q. injection H as H. exact H.
    + intros (stem & d & H & Hd). apply app_inj_tail in H.
      destruct H as [_ <-]. apply lower_char_q in Hd.
      rewrite Hd. reflexivity.
Qed.
